(** * NordHHub: data-to-model compilation pipeline

    A shallow embedding of the parameter builder ([scr/core/param_table.py]),
    the domain extractors and input orchestrator
    ([scr/core/data_loading.py]), the first-period / storage / demand
    constraint families of the model compiler ([scr/core/model.py]) and
    the storage checks of the validator ([scr/core/validate.py]),
    followed by the properties stated about them.

    Modelling conventions.
    - A Python [dict] is a [gmap]; [d.get(k, v)] is [dget v d k];
      [d.setdefault(k, v)] is [setdefault k v d]; [d[k] = v] is [<[k:=v]> d].
    - A pandas cell holding text is an [option string]: [None] is the
      missing cell (NaN); [py_str] is Python's [str(cell)].
    - A pandas cell holding a number is an [option Q]: a finite float,
      or [None] for a cell that [pd.to_numeric(..., errors="coerce")]
      turns into NaN.  The year and hour cells of timeseries.csv and the
      year cells of regasification.csv are such numbers, cast by
      [astype_int].  The year cells of consumption.csv and
      production.csv are integers within the range of [int64]
      ([option Z]): on any other number their cast to [Int64] raises.
    - A finite float is a rational number, so a comparison of two stored
      values or a copy of one is exact, and the literal [1e-5] that the
      propagation tests compare with is the double that Python reads
      ([tol] below).  The arithmetic of the formulas is modelled without
      rounding.
    - Text is ASCII: [upper], [lower] and [strip] act on ASCII letters and
      ASCII white space.
    - [sorted(set(xs))] is [sorted_set xs]. *)

From Stdlib Require Import ZArith QArith Qabs String Ascii List.
From stdpp Require Import base gmap strings list sorting.

Open Scope Q_scope.

(** ** Python preliminaries *)

Definition Qgtb (a b : Q) : bool := negb (Qle_bool a b).

(** [max(a, b)] and [min(a, b)] as Python evaluates them: the first
    argument is kept unless the second is strictly better. *)
Definition py_max (a b : Q) : Q := if Qgtb b a then b else a.
Definition py_min (a b : Q) : Q := if Qgtb a b then b else a.

Definition is_space (c : ascii) : bool :=
  let n := N_of_ascii c in
  ((9 <=? n)%N && (n <=? 13)%N) || ((28 <=? n)%N && (n <=? 32)%N).

Definition upper_ascii (c : ascii) : ascii :=
  let n := N_of_ascii c in
  if ((97 <=? n)%N && (n <=? 122)%N) then ascii_of_N (n - 32) else c.

Definition lower_ascii (c : ascii) : ascii :=
  let n := N_of_ascii c in
  if ((65 <=? n)%N && (n <=? 90)%N) then ascii_of_N (n + 32) else c.

Fixpoint map_string (g : ascii → ascii) (s : string) : string :=
  match s with
  | EmptyString => EmptyString
  | String c s' => String (g c) (map_string g s')
  end.

Definition upper (s : string) : string := map_string upper_ascii s.
Definition lower (s : string) : string := map_string lower_ascii s.

Fixpoint lstrip (s : string) : string :=
  match s with
  | EmptyString => EmptyString
  | String c s' => if is_space c then lstrip s' else s
  end.

Fixpoint rstrip (s : string) : string :=
  match s with
  | EmptyString => EmptyString
  | String c s' =>
      match rstrip s' with
      | EmptyString => if is_space c then EmptyString else String c EmptyString
      | r => String c r
      end
  end.

Definition strip (s : string) : string := lstrip (rstrip s).

(** [str(cell)]: a missing cell prints as [nan]. *)
Definition py_str (c : option string) : string := default "nan" c.

(** [pd.to_numeric(..., errors="coerce")] followed by [fillna(d)], or the
    [0.0 if pd.isna(v) else float(v)] idiom. *)
Definition num_or (d : Q) (c : option Q) : Q := default d c.

Definition sorted_set (l : list string) : list string :=
  merge_sort String.le (remove_dups l).

Definition sorted_setZ (l : list Z) : list Z :=
  merge_sort Z.le (remove_dups l).

Section dict.
Context {K : Type} `{Countable K} {V : Type}.

Definition dget (d : V) (m : gmap K V) (k : K) : V := default d (m !! k).

Definition setdefault (k : K) (v : V) (m : gmap K V) : gmap K V :=
  match m !! k with
  | Some _ => m
  | None => <[k := v]> m
  end.
End dict.

(** Python [for x in xs: body]. *)
Definition for_each {A S : Type} (xs : list A) (body : A → S → S) (s : S) : S :=
  foldl (λ s x, body x s) s xs.

Definition py_sum (l : list Q) : Q := foldl Qplus 0 l.

(** Exceptions and results of fallible functions. *)
Inductive exn : Type :=
  | ValueError (msg : string).

Inductive res (A : Type) : Type :=
  | Ok (a : A)
  | Raise (e : exn).
Arguments Ok {A} a.
Arguments Raise {A} e.

Definition is_ok {A : Type} (r : res A) : bool :=
  match r with Ok _ => true | Raise _ => false end.

(** The value of a result, or [d] when it is an exception. *)
Definition unwrap {A : Type} (d : A) (r : res A) : A :=
  match r with Ok a => a | Raise _ => d end.

(** ** scr/core/utils.py and scr/core/param_table.py *)

(** One row of [other.csv] as read by pandas. *)
Record ORow : Type := mkORow {
  o_param : option string;
  o_indx1 : option string;
  o_indx2 : option string;
  o_value : option Q
}.

(** A row after [_prepare_dat_o]. *)
Record PRow : Type := mkPRow {
  p_param : string;
  p_indx1 : string;
  p_indx2 : string;
  p_value : Q
}.

Definition _clean_str (x : option string) : option string :=
  match x with
  | None => None
  | Some s => let s' := strip s in if String.eqb s' "" then None else Some s'
  end.

Definition _to_float (x : option Q) : Q := default 0 x.

Definition norm (value : option string) : string :=
  default "" (_clean_str value).

Definition _prepare_dat_o (dat_o : list ORow) : list PRow :=
  map (λ r, mkPRow (lower (norm (o_param r))) (norm (o_indx1 r))
                   (norm (o_indx2 r)) (_to_float (o_value r))) dat_o.

(** A prepared table handed again to a function that expects a raw one. *)
Definition as_raw (r : PRow) : ORow :=
  mkORow (Some (p_param r)) (Some (p_indx1 r)) (Some (p_indx2 r))
         (Some (p_value r)).

Definition is_penalty_row (r : PRow) : bool :=
  String.eqb (p_param r) "penalty" || String.eqb (p_param r) "penality".

Definition build_penalty_lookup (dat_o : list ORow) : gmap (string * string) Q :=
  let df := _prepare_dat_o dat_o in
  let penalties := filter (λ r, is_penalty_row r = true) df in
  foldl (λ lookup r, <[(p_indx1 r, p_indx2 r) := p_value r]> lookup) ∅ penalties.

Definition penalty_value (lookup : gmap (string * string) Q) (z e : string) : Q :=
  let z := norm (Some z) in
  let e := norm (Some e) in
  let val := dget 0 lookup (z, e) in
  let val := if Qle_bool val 0 then dget 0 lookup (z, "") else val in
  let val := if Qle_bool val 0 then dget 0 lookup ("", "") else val in
  val.

Record CzRow : Type := mkCzRow {
  cz_z : string;
  cz_e : string;
  cz_val : Q
}.

Definition nonempty_or (l d : list string) : list string :=
  match l with [] => d | _ => l end.

Definition build_c_z (dat_o : list ORow)
    (z_values e_values : option (list string)) : list CzRow :=
  let df := _prepare_dat_o dat_o in
  let penalty_rows := filter (λ r, is_penalty_row r = true) df in
  let z_domain :=
    match z_values with
    | None =>
        sorted_set (filter (λ z, z ≠ "") (map p_indx1 penalty_rows))
    | Some zs =>
        sorted_set (filter (λ z, z ≠ "") (map (λ z, norm (Some z)) zs))
    end in
  let e_domain :=
    match e_values with
    | None =>
        nonempty_or
          (sorted_set (filter (λ e, e ≠ "") (map p_indx2 penalty_rows))) [""]
    | Some es =>
        nonempty_or
          (sorted_set (filter (λ e, e ≠ "") (map (λ e, norm (Some e)) es))) [""]
    end in
  let lookup := build_penalty_lookup (map as_raw df) in
  z ← z_domain; e ← e_domain; [mkCzRow z e (penalty_value lookup z e)].

Fixpoint first_positive (vals : list Q) : Q :=
  match vals with
  | [] => 0
  | v :: rest => if Qgtb v 0 then v else first_positive rest
  end.

Definition build_scalar_param (dat_o : list ORow) (param_name : string) : Q :=
  let df := _prepare_dat_o dat_o in
  let rows := filter (λ r, p_param r = lower (norm (Some param_name))) df in
  first_positive (map p_value rows).

Definition build_bigM (dat_o : list ORow) : Q := build_scalar_param dat_o "bigm".
Definition build_yearstep (dat_o : list ORow) : Q :=
  build_scalar_param dat_o "yearstep".

Definition build_disc_rate (dat_o : list ORow) : Q :=
  let value := build_scalar_param dat_o "discrate" in
  if Qgtb value 0 then value else 2 # 100.

Definition build_loss_max (dat_o : list ORow) : Q :=
  let value := build_scalar_param dat_o "lossmax" in
  if Qgtb value 0 then value else 0.

(** [build_vola2] with [e_values] given, as [load_inputs] calls it. *)
Definition build_vola2 (dat_o : list ORow) (e_values : list string)
    : gmap string Q :=
  let df := _prepare_dat_o dat_o in
  let rows := filter (λ r, p_param r = "vola2") df in
  let e_domain :=
    sorted_set (filter (λ e, e ≠ "") (map (λ e, norm (Some e)) e_values)) in
  let result : gmap string Q :=
    foldl (λ acc e, <[e := 1]> acc) ∅ e_domain in
  foldl (λ acc r,
           if String.eqb (p_indx1 r) "" then acc
           else if Qeq_bool (p_value r) 0 then acc
           else <[p_indx1 r := p_value r]> acc)
        result rows.

(** The ('', '') row of a pair parameter: the value of the first such
    row, or 0.0 when there is none. *)
Definition pair_default (rows : list PRow) : Q :=
  match filter (λ r, p_indx1 r = "" ∧ p_indx2 r = "") rows with
  | [] => 0
  | r :: _ => p_value r
  end.

Definition pair_lookup (rows : list PRow) : gmap (string * string) Q :=
  foldl (λ lookup r, <[(p_indx1 r, p_indx2 r) := p_value r]> lookup) ∅ rows.

Definition _build_pair_param_with_global_default (dat_o : list ORow)
    (param_name : string) (e_values : option (list string))
    : gmap (string * string) Q :=
  let df := _prepare_dat_o dat_o in
  let rows := filter (λ r, p_param r = lower (norm (Some param_name))) df in
  let e_domain :=
    match e_values with
    | None =>
        sorted_set (filter (λ e, e ≠ "") (map p_indx1 rows)
                    ++ filter (λ f, f ≠ "") (map p_indx2 rows))
    | Some es =>
        sorted_set (filter (λ e, e ≠ "") (map (λ e, norm (Some e)) es))
    end in
  let default_value := pair_default rows in
  let lookup := pair_lookup rows in
  for_each e_domain
    (λ e, for_each e_domain
       (λ f result,
          let val := dget 0 lookup (e, f) in
          let val := if Qle_bool val 0 then default_value else val in
          <[(e, f) := val]> result)) ∅.

Definition build_c_bl (dat_o : list ORow) (e_values : option (list string))
    : gmap (string * string) Q :=
  _build_pair_param_with_global_default dat_o "blendcost" e_values.

Definition build_ub_bl (dat_o : list ORow) (e_values : option (list string))
    : gmap (string * string) Q :=
  _build_pair_param_with_global_default dat_o "blendlim" e_values.

(** ** scr/core/data_loading.py: tables *)

Definition _normalize_fuel_label (raw : option string) : string :=
  let s := upper (strip (py_str raw)) in
  if bool_decide (s ∈ ["GAS"; "NATURAL_GAS"; "NATURALGAS"; "NG"]) then "G"
  else if bool_decide (s ∈ ["HYDROGEN"; "H2"]) then "H"
  else if bool_decide (s ∈ ["COAL"]) then "C"
  else s.

(** timeseries.csv: the three columns as [pd.to_numeric] reads them. *)
Record TRow : Type := mkTRow {
  t_y : option Q;
  t_h : option Q;
  t_scaleup : option Q
}.

(** nodes.csv *)
Record NRow : Type := mkNRow {
  n_n : option string;
  n_cn : option string;
  n_nuts2 : option string;
  n_rgn : option string
}.

(** arcs.csv *)
Record ARow : Type := mkARow {
  a_a : option string;
  a_start : option string;
  a_end : option string;
  a_f : option string;
  a_cap : option Q;
  a_len : option Q;
  a_off : option Q;
  a_cal_b : option Q;
  a_cal_c : option Q;
  a_cal_l : option Q;
  a_cal_r : option Q;
  a_cal_x : option Q;
  a_bidir : option Q
}.

(** regasification.csv; the year as [pd.to_numeric] reads it. *)
Record RRow : Type := mkRRow {
  r_n : option string;
  r_f : option string;
  r_y : option Q;
  r_cal_c : option Q;
  r_ub : option Q
}.

(** storage.csv: the columns behind the node and fuel domains, the
    working volume and the H2-ready flag. *)
Record SRow : Type := mkSRow {
  s_n : option string;
  s_f : option string;
  s_w : option Q;
  s_h2_ready : option Q
}.

(** A wide table (consumption.csv, production.csv): the integer-named
    hour columns, already sorted by [_hour_columns], and the rows, each
    with one cell per hour column. *)
Record WRow : Type := mkWRow {
  w_n : option string;
  w_f : option string;
  w_y : option Z;
  w_mc : option Q;
  w_lb : option Q;
  w_cells : list (option Q)
}.

Record Wide : Type := mkWide {
  hour_cols : list Z;
  w_rows : list WRow
}.

(** [row[h_col]] for the [i]-th hour column. *)
Definition cell (row : WRow) (i : nat) : option Q :=
  mjoin (w_cells row !! i).

(** ** Time, node and consumption extractors *)

Definition somes {A} (l : list (option A)) : list A := omap id l.

(** [float(v)] rounded toward zero, as a cast to an integer does. *)
Definition py_trunc (v : Q) : Z := Z.quot (Qnum v) (Z.pos (Qden v)).

Definition in_int64 (z : Z) : Prop := (- 2 ^ 63 ≤ z < 2 ^ 63)%Z.

Definition wrap_int64 (z : Z) : Z := ((z + 2 ^ 63) `mod` 2 ^ 64 - 2 ^ 63)%Z.

(** [Series.astype(int)] on a numeric column without NaN: the value is
    truncated toward zero.  A value outside the range of [int64] does
    not keep its value: 2^63 becomes -2^63.  What other values out of
    range become depends on the dtype of the column, and the statements
    about this cast are made for cells in range. *)
Definition astype_int (v : Q) : Z := wrap_int64 (py_trunc v).

(** [pd.to_numeric(df_t["h"], errors="coerce") == h]: a NaN equals nothing. *)
Definition hour_is (h : Z) (r : TRow) : bool :=
  match t_h r with
  | Some v => Qeq_bool v (inject_Z h)
  | None => false
  end.

Definition _extract_time_domains (df_t : list TRow)
    : list Z * list Z * gmap Z Q :=
  match df_t with
  | [] => ([], [], ∅)
  | _ =>
      let y_values := sorted_setZ (map astype_int (somes (map t_y df_t))) in
      let h_values := sorted_setZ (map astype_int (somes (map t_h df_t))) in
      let scale_map :=
        foldl (λ acc h,
                 let rows := filter (λ r, hour_is h r = true) df_t in
                 let vals := somes (map t_scaleup rows) in
                 let chosen :=
                   match filter (λ v, Qgtb v 0 = true) vals with
                   | v :: _ => v
                   | [] => 1
                   end in
                 <[h := chosen]> acc)
              ∅ h_values in
      (y_values, h_values, scale_map)
  end.

(** [_extract_node_structures], projected on the node domain [n_values]. *)
Definition _extract_node_structures (df_n : list NRow) : list string :=
  match df_n with
  | [] => []
  | _ =>
      let clean :=
        filter (λ r, strip (py_str (n_n r)) ≠ "" ∧ strip (py_str (n_cn r)) ≠ ""
                     ∧ strip (py_str (n_nuts2 r)) ≠ ""
                     ∧ strip (py_str (n_rgn r)) ≠ "") df_n in
      sorted_set (map (λ r, strip (py_str (n_n r))) clean)
  end.

Abbreviation Key4 := (string * string * Z * Z)%type.
Abbreviation Key3 := (string * string * Z)%type.

(** Enumerate the hour columns with their position. *)
Definition hour_index (hc : list Z) : list (nat * Z) := imap (λ i h, (i, h)) hc.

Record ConsAcc : Type := mkConsAcc {
  ca_dmd : gmap Key4 Q;
  ca_y : list Z;
  ca_h : list Z;
  ca_f : list string
}.

(** [_extract_consumption_data], without the NUTS2 aggregate [dmd2]. *)
Definition _extract_consumption_data (df_c : Wide)
    : gmap Key4 Q * list Z * list Z * list string :=
  match w_rows df_c with
  | [] => (∅, [], [], [])
  | _ =>
      let acc :=
        foldl (λ acc row,
                 let n := strip (py_str (w_n row)) in
                 let f := strip (py_str (w_f row)) in
                 match w_y row with
                 | None => acc
                 | Some y =>
                     if bool_decide (n = "" ∨ f = "") then acc
                     else
                       let acc :=
                         mkConsAcc (ca_dmd acc) (y :: ca_y acc) (ca_h acc)
                                   (f :: ca_f acc) in
                       foldl (λ acc ih,
                                let '(i, h) := ih in
                                let v := num_or 0 (cell row i) in
                                mkConsAcc (<[(n, f, y, h) := v]> (ca_dmd acc))
                                          (ca_y acc) (h :: ca_h acc) (ca_f acc))
                             acc (hour_index (hour_cols df_c))
                 end)
              (mkConsAcc ∅ [] [] []) (w_rows df_c) in
      (ca_dmd acc, sorted_setZ (ca_y acc), sorted_setZ (ca_h acc),
       sorted_set (ca_f acc))
  end.

(** ** Production extractor *)

Record ProdAcc : Type := mkProdAcc {
  pa_cap_p : gmap Key4 Q;
  pa_c_p : gmap Key3 Q;
  pa_lb_p : gmap Key4 Q;
  pa_y : list Z;
  pa_h : list Z;
  pa_f : list string
}.

(** The row loop of [_extract_production_data].  The source declares
    [y_values] next to [h_values] and [f_values] but the loop body adds
    to the latter two only, so [pa_y] is carried through unchanged. *)
Definition prod_row (hc : list Z) (acc : ProdAcc) (row : WRow) : ProdAcc :=
  let n := strip (py_str (w_n row)) in
  let f := strip (py_str (w_f row)) in
  match w_y row with
  | None => acc
  | Some y =>
      if bool_decide (n = "" ∨ f = "") then acc
      else
        let acc :=
          mkProdAcc (pa_cap_p acc) (<[(n, f, y) := num_or 0 (w_mc row)]> (pa_c_p acc))
                    (pa_lb_p acc) (pa_y acc) (pa_h acc) (f :: pa_f acc) in
        let lb_scalar := num_or 0 (w_lb row) in
        foldl (λ acc ih,
                 let '(i, h) := ih in
                 mkProdAcc (<[(n, f, y, h) := num_or 0 (cell row i)]> (pa_cap_p acc))
                           (pa_c_p acc)
                           (<[(n, f, y, h) := lb_scalar]> (pa_lb_p acc))
                           (pa_y acc) (h :: pa_h acc) (pa_f acc))
              acc (hour_index hc)
  end.

Definition keys3 (m : gmap Key3 Q) : list Key3 := (map_to_list m).*1.

(** The inner part shared by both year-2030 passes: when [(n, f, 2030)]
    is configured, every year of [later] is overwritten with its value. *)
Definition carry_ref (later : list Z) (n f : string) (c_p : gmap Key3 Q)
    : gmap Key3 Q :=
  match c_p !! (n, f, 2030%Z) with
  | None => c_p
  | Some ref_val => foldl (λ c y, <[(n, f, y) := ref_val]> c) c_p later
  end.

(** The year-2030 pass inside [_extract_production_data]. *)
Definition carry_forward_rows (ordered_years : list Z) (c_p : gmap Key3 Q)
    : gmap Key3 Q :=
  if bool_decide (3 ≤ length ordered_years)%nat
     && bool_decide (2030%Z ∈ ordered_years) then
    foldl (λ c n,
             let fs := sorted_set (map (λ k, k.1.2)
                                       (filter (λ k : Key3, k.1.1 = n) (keys3 c))) in
             foldl (λ c f, carry_ref (drop 2 ordered_years) n f c) c fs)
          c_p (sorted_set (map (λ k, k.1.1) (keys3 c_p)))
  else c_p.

(** [lb_p[key] = min(lb_p.get(key, 0.0), cap_val)] for every item of [cap_p]. *)
Definition clip_lb (cap_p lb_p : gmap Key4 Q) : gmap Key4 Q :=
  map_fold (λ key cap_val lb, <[key := py_min (dget 0 lb key) cap_val]> lb)
           lb_p cap_p.

Definition _extract_production_data (df_p : Wide)
    : gmap Key4 Q * gmap Key3 Q * gmap Key4 Q * list Z * list Z * list string :=
  match w_rows df_p with
  | [] => (∅, ∅, ∅, [], [], [])
  | _ =>
      let acc := foldl (prod_row (hour_cols df_p)) (mkProdAcc ∅ ∅ ∅ [] [] [])
                       (w_rows df_p) in
      let ordered_years := sorted_setZ (pa_y acc) in
      let c_p := carry_forward_rows ordered_years (pa_c_p acc) in
      let lb_p := clip_lb (pa_cap_p acc) (pa_lb_p acc) in
      (pa_cap_p acc, c_p, lb_p, sorted_setZ (pa_y acc), sorted_setZ (pa_h acc),
       sorted_set (pa_f acc))
  end.

(** ** Regasification extractor *)

Definition regas_default (e : string) : Q :=
  if String.eqb (_normalize_fuel_label (Some e)) "G" then 1 else 9999.

Definition regas_defaults (n_values e_values : list string)
    : gmap (string * string) Q * gmap (string * string) Q :=
  for_each n_values
    (λ n, for_each e_values
       (λ e acc, (<[(n, e) := regas_default e]> acc.1, <[(n, e) := 0]> acc.2)))
    (∅, ∅).

(** [pd.to_numeric(work["y"], errors="coerce").fillna(2025).astype(int)] *)
Definition regas_year (r : RRow) : Z := astype_int (num_or 2025 (r_y r)).

(** The [work] copy of the regasification table. *)
Definition regas_work (r : RRow) : string * string * Z :=
  (strip (py_str (r_n r)), _normalize_fuel_label (r_f r), regas_year r).

Definition regas_row (acc : gmap (string * string) Q * gmap (string * string) Q)
    (r : RRow) : gmap (string * string) Q * gmap (string * string) Q :=
  let '(wn, wf, y) := regas_work r in
  let n := strip wn in
  let f := strip wf in
  if bool_decide (n = "" ∨ f = "") then acc
  else if bool_decide (y ≠ 2025%Z) then acc
  else
    let cal_c :=
      match r_cal_c r with
      | None => 1
      | Some v => if Qle_bool v 0 then 1 else v
      end in
    let ub :=
      match r_ub r with
      | None => 0
      | Some v => py_max 0 v
      end in
    (<[(n, f) := if String.eqb (_normalize_fuel_label (Some f)) "G"
                 then cal_c else 9999]> acc.1,
     <[(n, f) := ub]> acc.2).

Definition _extract_regas_data (df_r : list RRow) (n_values e_values : list string)
    : gmap (string * string) Q * gmap (string * string) Q
      * list string * list string :=
  let '(c_lr, ub_r) := regas_defaults n_values e_values in
  match df_r with
  | [] => (c_lr, ub_r, [], [])
  | _ =>
      let work := map regas_work df_r in
      let regas_nodes := sorted_set (filter (λ n, n ≠ "") (map (λ w, w.1.1) work)) in
      let regas_fuels := sorted_set (filter (λ f, f ≠ "") (map (λ w, w.1.2) work)) in
      let '(c_lr, ub_r) := foldl regas_row (c_lr, ub_r) df_r in
      (c_lr, ub_r, regas_nodes, regas_fuels)
  end.

(** ** Storage extractor

    [_extract_storage_data], projected on [cap_ww], [h2_ready],
    [stor_nodes] and [stor_fuels]. *)

Definition _extract_storage_data (df_s : list SRow)
    (n_values e_values : list string) (y_values h_values : list Z)
    (scaleup : gmap Z Q)
    : gmap Key3 Q * gmap (string * string) Q * list string * list string :=
  let sum_scaleup :=
    match h_values with
    | [] => 0
    | _ => py_sum (map (λ h, dget 1 scaleup h) h_values)
    end in
  let work :=
    map (λ r, (r, _normalize_fuel_label (Some (strip (default "" (s_f r))))))
      (filter (λ r, strip (default "" (s_n r)) ≠ "" ∧ strip (default "" (s_f r)) ≠ "")
              df_s) in
  let stor_nodes := sorted_set (map (λ rf, strip (default "" (s_n rf.1))) work) in
  let stor_fuels := sorted_set (map snd work) in
  let dat_w_map : gmap (string * string * string) Q :=
    for_each work
      (λ '(r, wf) m,
         let n := strip (strip (default "" (s_n r))) in
         let f := strip wf in
         if bool_decide (n = "" ∨ f = "") then m
         else <[(n, f, "H2-ready") := num_or 0 (s_h2_ready r)]>
                (<[(n, f, "W") := num_or 0 (s_w r)]> m)) ∅ in
  let all_nodes := sorted_set (n_values ++ stor_nodes) in
  let '(cap_ww, h2_ready) :=
    for_each all_nodes
      (λ n, for_each e_values
         (λ e '(cap_ww, h2_ready),
            let e_norm := _normalize_fuel_label (Some e) in
            let w_raw := dget 0 dat_w_map (n, e_norm, "W") in
            let h2_ready :=
              <[(n, e_norm) := dget 0 dat_w_map (n, e_norm, "H2-ready")]> h2_ready in
            let ww_scaled :=
              if Qgtb sum_scaleup 0 then w_raw * sum_scaleup / 8760 else 0 in
            (for_each y_values
               (λ y, insert (n, e_norm, y) (py_max 0 ww_scaled)) cap_ww,
             h2_ready)))
      (∅, ∅) in
  (cap_ww, h2_ready, stor_nodes, stor_fuels).

(** ** Arc extractor *)

Abbreviation Key4s := (string * string * string * Z)%type.

(** The parameter dictionaries that [_extract_arc_data] fills in place. *)
Record ArcSt : Type := mkArcSt {
  st_a_s : gmap (string * string) Z;
  st_a_e : gmap (string * string) Z;
  st_is_bid : gmap string Z;
  st_cap_a : gmap Key3 Q;
  st_c_a : gmap Key3 Q;
  st_c_ax : gmap Key3 Q;
  st_c_ab : gmap Key3 Q;
  st_c_ar : gmap Key4s Q;
  st_f_ar : gmap Key4s Q;
  st_f_ab : gmap (string * Z) Q;
  st_e_a : gmap (string * string) Q
}.

Definition empty_st : ArcSt := mkArcSt ∅ ∅ ∅ ∅ ∅ ∅ ∅ ∅ ∅ ∅ ∅.

Definition upd_a_s g (s : ArcSt) : ArcSt :=
  mkArcSt (g (st_a_s s)) (st_a_e s) (st_is_bid s) (st_cap_a s) (st_c_a s)
          (st_c_ax s) (st_c_ab s) (st_c_ar s) (st_f_ar s) (st_f_ab s) (st_e_a s).
Definition upd_a_e g (s : ArcSt) : ArcSt :=
  mkArcSt (st_a_s s) (g (st_a_e s)) (st_is_bid s) (st_cap_a s) (st_c_a s)
          (st_c_ax s) (st_c_ab s) (st_c_ar s) (st_f_ar s) (st_f_ab s) (st_e_a s).
Definition upd_is_bid g (s : ArcSt) : ArcSt :=
  mkArcSt (st_a_s s) (st_a_e s) (g (st_is_bid s)) (st_cap_a s) (st_c_a s)
          (st_c_ax s) (st_c_ab s) (st_c_ar s) (st_f_ar s) (st_f_ab s) (st_e_a s).
Definition upd_cap_a g (s : ArcSt) : ArcSt :=
  mkArcSt (st_a_s s) (st_a_e s) (st_is_bid s) (g (st_cap_a s)) (st_c_a s)
          (st_c_ax s) (st_c_ab s) (st_c_ar s) (st_f_ar s) (st_f_ab s) (st_e_a s).
Definition upd_c_a g (s : ArcSt) : ArcSt :=
  mkArcSt (st_a_s s) (st_a_e s) (st_is_bid s) (st_cap_a s) (g (st_c_a s))
          (st_c_ax s) (st_c_ab s) (st_c_ar s) (st_f_ar s) (st_f_ab s) (st_e_a s).
Definition upd_c_ax g (s : ArcSt) : ArcSt :=
  mkArcSt (st_a_s s) (st_a_e s) (st_is_bid s) (st_cap_a s) (st_c_a s)
          (g (st_c_ax s)) (st_c_ab s) (st_c_ar s) (st_f_ar s) (st_f_ab s) (st_e_a s).
Definition upd_c_ab g (s : ArcSt) : ArcSt :=
  mkArcSt (st_a_s s) (st_a_e s) (st_is_bid s) (st_cap_a s) (st_c_a s)
          (st_c_ax s) (g (st_c_ab s)) (st_c_ar s) (st_f_ar s) (st_f_ab s) (st_e_a s).
Definition upd_c_ar g (s : ArcSt) : ArcSt :=
  mkArcSt (st_a_s s) (st_a_e s) (st_is_bid s) (st_cap_a s) (st_c_a s)
          (st_c_ax s) (st_c_ab s) (g (st_c_ar s)) (st_f_ar s) (st_f_ab s) (st_e_a s).
Definition upd_f_ar g (s : ArcSt) : ArcSt :=
  mkArcSt (st_a_s s) (st_a_e s) (st_is_bid s) (st_cap_a s) (st_c_a s)
          (st_c_ax s) (st_c_ab s) (st_c_ar s) (g (st_f_ar s)) (st_f_ab s) (st_e_a s).
Definition upd_f_ab g (s : ArcSt) : ArcSt :=
  mkArcSt (st_a_s s) (st_a_e s) (st_is_bid s) (st_cap_a s) (st_c_a s)
          (st_c_ax s) (st_c_ab s) (st_c_ar s) (st_f_ar s) (g (st_f_ab s)) (st_e_a s).
Definition upd_e_a g (s : ArcSt) : ArcSt :=
  mkArcSt (st_a_s s) (st_a_e s) (st_is_bid s) (st_cap_a s) (st_c_a s)
          (st_c_ax s) (st_c_ab s) (st_c_ar s) (st_f_ar s) (st_f_ab s) (g (st_e_a s)).

(** A row of the cleaned [work] table. *)
Record AWork : Type := mkAWork {
  aw_a : string;
  aw_start : string;
  aw_end : string;
  aw_f : string;
  aw_cap : Q;
  aw_len : Q;
  aw_off : Q;
  aw_cal_b : Q;
  aw_cal_c : Q;
  aw_cal_l : Q;
  aw_cal_r : Q;
  aw_cal_x : Q;
  aw_bidir : Q
}.

Definition arc_work (df_a : list ARow) : list AWork :=
  filter (λ w, aw_a w ≠ "" ∧ aw_start w ≠ "" ∧ aw_end w ≠ "" ∧ aw_f w ≠ "")
    (map (λ r, mkAWork (strip (py_str (a_a r))) (strip (py_str (a_start r)))
                       (strip (py_str (a_end r))) (_normalize_fuel_label (a_f r))
                       (num_or 0 (a_cap r)) (num_or 0 (a_len r))
                       (num_or 0 (a_off r)) (num_or 0 (a_cal_b r))
                       (num_or 0 (a_cal_c r)) (num_or 0 (a_cal_l r))
                       (num_or 0 (a_cal_r r)) (num_or 0 (a_cal_x r))
                       (num_or 0 (a_bidir r))) df_a).

Definition blank_token (s : string) : string :=
  if bool_decide (s ∈ ["NAN"; "NONE"; "NULL"]) then "" else s.

(** [dat_o_norm]: the arc extractor's own normalisation of other.csv. *)
Definition arc_dat_o (dat_o : list ORow) : list PRow :=
  map (λ r, mkPRow (lower (strip (default "" (o_param r))))
                   (blank_token (upper (strip (default "" (o_indx1 r)))))
                   (blank_token (upper (strip (default "" (o_indx2 r)))))
                   (num_or 0 (o_value r))) dat_o.

Definition _o_value (dat_o_norm : list PRow) (param indx1 indx2 : string)
    (dflt : Q) : Q :=
  match filter (λ r, p_param r = lower param ∧ p_indx1 r = upper (strip indx1)
                     ∧ p_indx2 r = upper (strip indx2)) dat_o_norm with
  | [] => dflt
  | r :: _ => p_value r
  end.

Definition or_default (v d : Q) : Q := if Qle_bool v 0 then d else v.

(** The literal [1e-5] of the two propagation tests: the double nearest
    to 10^-5, which is 5902958103587057 / 2^69, a little above 1/100000. *)
Definition tol : Q := 5902958103587057 # 590295810358705651712.

(** [arc_endpoints] and the opposite-arc relation. *)
Definition arc_endpoints (work : list AWork) (a_values : list string)
    : gmap string (string * string) :=
  for_each a_values
    (λ a m, match filter (λ w, aw_a w = a) work with
            | [] => m
            | w :: _ => <[a := (strip (aw_start w), strip (aw_end w))]> m
            end) ∅.

Definition build_opp (ends : gmap string (string * string))
    (a_values : list string) : gmap (string * string) Z :=
  for_each a_values
    (λ ai opp,
       match ends !! ai with
       | None => opp
       | Some (ni, mi) =>
           for_each a_values
             (λ ao opp,
                if bool_decide (ao = ai) then opp
                else match ends !! ao with
                     | None => opp
                     | Some (no, mo) =>
                         if bool_decide (ni = mo ∧ mi = no)
                         then <[(ai, ao) := 1%Z]> opp else opp
                     end) opp
       end) ∅.

Definition build_opp_map (opp : gmap (string * string) Z)
    (a_values : list string) : gmap string string :=
  for_each a_values
    (λ a m,
       let cands :=
         sorted_set (map (λ kv, kv.1.2)
           (filter (λ kv : string * string * Z, kv.1.1 = a ∧ kv.2 = 1%Z)
                   (map_to_list opp))) in
       <[a := match cands with c :: _ => c | [] => "" end]> m) ∅.

(** The per-fuel calibration dictionaries of one arc. *)
Record Cal : Type := mkCal {
  cal_x_by_f : gmap string Q;
  cal_b_by_f : gmap string Q;
  cal_r_by_f : gmap string Q
}.

Record ArcScalars : Type := mkArcScalars {
  offsh_mult : Q;
  pipe_len_std : Q;
  year_step : Q;
  bf_default : Q;
  bl_default : Q;
  bi_default : Q;
  bidir_var_default : Q;
  bidir_fix : Q;
  repurp_var_default : Q
}.

(** The body of [for a in a_values] that computes the arc's own values. *)
Definition arc_own (o : list PRow) (sc : ArcScalars) (work : list AWork)
    (y_values : list Z) (all_fuels : list string) (vola2 : gmap string Q)
    (loss_max : Q) (a : string) (st : ArcSt) : ArcSt :=
  match filter (λ w, aw_a w = a) work with
  | [] => st
  | (w0 :: _) as rows_a =>
      let st := upd_a_s (insert (a, strip (aw_start w0)) 1%Z) st in
      let st := upd_a_e (insert (a, strip (aw_end w0)) 1%Z) st in
      let len_agg := py_sum (map aw_len rows_a) in
      let off_agg_raw := py_sum (map aw_off rows_a) in
      let off_agg := py_min len_agg off_agg_raw in
      let '(st, cal) :=
        for_each rows_a
          (λ row '(st, cal),
             let f := strip (aw_f row) in
             let cap_val := py_max 0 (aw_cap row) in
             let cal_b := or_default (aw_cal_b row) 1 in
             let cal_c := or_default (aw_cal_c row) 1 in
             let cal_l := or_default (aw_cal_l row) 1 in
             let cal_x := or_default (aw_cal_x row) 1 in
             let cal_r := or_default (aw_cal_r row) 1 in
             let cal := mkCal (<[f := cal_x]> (cal_x_by_f cal))
                              (<[f := cal_b]> (cal_b_by_f cal))
                              (<[f := cal_r]> (cal_r_by_f cal)) in
             let bf_pipe_e := or_default (_o_value o "bfpipe" f "" 0) (bf_default sc) in
             let bl_pipe_e := or_default (_o_value o "blpipe" f "" 0) (bl_default sc) in
             let vola2_e := dget 1 vola2 f in
             let c_a_val :=
               bf_pipe_e * vola2_e * (len_agg + offsh_mult sc * off_agg) * cal_c
               / pipe_len_std sc in
             let e_a_val :=
               py_max (1 - loss_max)
                      (1 - bl_pipe_e * len_agg * cal_l / pipe_len_std sc) in
             let st := upd_e_a (insert (a, f) e_a_val) st in
             let st :=
               for_each y_values
                 (λ y st, upd_c_a (insert (a, f, y) c_a_val)
                            (upd_cap_a (insert (a, f, y) cap_val) st)) st in
             (st, cal))
          (st, mkCal ∅ ∅ ∅) in
      let st :=
        upd_is_bid
          (insert a (if Qgtb (py_sum (map aw_bidir rows_a)) 0 then 1%Z else 0%Z)) st in
      let st :=
        for_each all_fuels
          (λ f st,
             let bi_pipe_e := or_default (_o_value o "bipipe" f "" 0) (bi_default sc) in
             let cal_x := dget 1 (cal_x_by_f cal) f in
             let c_ax_val :=
               bi_pipe_e * (len_agg + offsh_mult sc * off_agg) * cal_x
               / pipe_len_std sc / year_step sc in
             let bidir_var_e :=
               or_default (_o_value o "bidir" "VAR" f 0) (bidir_var_default sc) in
             let cal_b := dget 1 (cal_b_by_f cal) f in
             let c_ab_val :=
               bidir_var_e * (len_agg + off_agg) * cal_b
               / pipe_len_std sc / year_step sc in
             for_each y_values
               (λ y st, upd_c_ab (insert (a, f, y) c_ab_val)
                          (upd_c_ax (insert (a, f, y) c_ax_val) st)) st) st in
      let st :=
        for_each all_fuels
          (λ e st,
             let cal_r := dget 1 (cal_r_by_f cal) e in
             for_each all_fuels
               (λ f st,
                  let repurp_var :=
                    or_default (_o_value o "repurparc" e f 0) (repurp_var_default sc) in
                  let repurp_var :=
                    if String.eqb (upper e) (upper f) then 0 else repurp_var in
                  let repurp_fix := _o_value o "repurparc" "FIX" f 0 in
                  let repurp_fix_val := repurp_fix * cal_r / year_step sc in
                  let repurp_var_val :=
                    repurp_var * (len_agg + offsh_mult sc * off_agg) * cal_r
                    / pipe_len_std sc / year_step sc in
                  for_each y_values
                    (λ y st, upd_f_ar (insert (a, e, f, y) repurp_fix_val)
                               (upd_c_ar (insert (a, e, f, y) repurp_var_val) st))
                    st) st) st in
      for_each y_values
        (λ y st, upd_f_ab (insert (a, y) (bidir_fix sc / year_step sc)) st) st
  end.

(** The assignments of the first propagation loop: the opposite arc
    [ao] takes the forward arc's values.  [c_a[(ai, f, y)]] is read only
    when [c_a.get((ai, f, y), 0.0) > 0.0], hence on an existing key. *)
Definition prop_copy (ai ao f : string) (y : Z) (st : ArcSt) : ArcSt :=
  upd_is_bid (insert ao (dget (dget 0%Z (st_is_bid st) ao) (st_is_bid st) ai))
    (upd_e_a (insert (ao, f) (dget (dget 1 (st_e_a st) (ao, f)) (st_e_a st) (ai, f)))
       (upd_f_ab (insert (ao, y) (dget 0 (st_f_ab st) (ai, y)))
          (upd_c_ab (insert (ao, f, y) (dget 0 (st_c_ab st) (ai, f, y)))
             (upd_c_ax (insert (ao, f, y) (dget 0 (st_c_ax st) (ai, f, y)))
                (upd_c_a (insert (ao, f, y) (dget 0 (st_c_a st) (ai, f, y))) st))))).

(** One visit of the first propagation loop, for an opposite pair
    [(ai, ao)], a fuel and a year: the test is on [c_a] alone. *)
Definition prop_step (ai ao f : string) (y : Z) (st : ArcSt) : ArcSt :=
  if Qgtb (dget 0 (st_c_a st) (ai, f, y)) 0
     && Qle_bool (dget 0 (st_c_a st) (ao, f, y)) tol
  then prop_copy ai ao f y st
  else st.

Definition propagate (a_values all_fuels : list string) (y_values : list Z)
    (opp : gmap (string * string) Z) (st : ArcSt) : ArcSt :=
  for_each a_values
    (λ ai, for_each a_values
       (λ ao st,
          if bool_decide (dget 0%Z opp (ai, ao) ≠ 1%Z) then st
          else for_each all_fuels
                 (λ f, for_each y_values (λ y, prop_step ai ao f y)) st)) st.

(** One visit of the second propagation loop (repurposing costs). *)
Definition prop_ar_step (ai ao e f : string) (y : Z) (st : ArcSt) : ArcSt :=
  let src_car := dget 0 (st_c_ar st) (ai, e, f, y) in
  let dst_car := dget 0 (st_c_ar st) (ao, e, f, y) in
  let src_far := dget 0 (st_f_ar st) (ai, e, f, y) in
  let dst_far := dget 0 (st_f_ar st) (ao, e, f, y) in
  if (Qgtb src_car 0 && Qle_bool dst_car tol)
     || (Qgtb src_far 0 && Qle_bool dst_far tol)
  then upd_f_ar (insert (ao, e, f, y) src_far)
         (upd_c_ar (insert (ao, e, f, y) src_car) st)
  else st.

Definition propagate_ar (a_values all_fuels : list string) (y_values : list Z)
    (opp : gmap (string * string) Z) (st : ArcSt) : ArcSt :=
  for_each a_values
    (λ ai, for_each a_values
       (λ ao st,
          if bool_decide (dget 0%Z opp (ai, ao) ≠ 1%Z) then st
          else for_each all_fuels
                 (λ e, for_each all_fuels
                    (λ f, for_each y_values (λ y, prop_ar_step ai ao e f y))) st))
    st.

(** "Ensure full model domain has defaults for all (a,e[,y]) combinations." *)
Definition fill_defaults (a_values all_fuels : list string) (y_values : list Z)
    (st : ArcSt) : ArcSt :=
  for_each a_values
    (λ a st,
       let st := upd_is_bid (setdefault a 0%Z) st in
       let st :=
         for_each all_fuels
           (λ f st,
              let st := upd_e_a (setdefault (a, f) 1) st in
              for_each y_values
                (λ y st,
                   upd_f_ab (setdefault (a, y) 0)
                     (upd_c_ab (setdefault (a, f, y) 0)
                        (upd_c_ax (setdefault (a, f, y) 0)
                           (upd_c_a (setdefault (a, f, y) 0)
                              (upd_cap_a (setdefault (a, f, y) 0) st))))) st) st in
       for_each all_fuels
         (λ e, for_each all_fuels
            (λ f, for_each y_values
               (λ y st, upd_f_ar (setdefault (a, e, f, y) 0)
                          (upd_c_ar (setdefault (a, e, f, y) 0) st)))) st) st.

(** The last loop over the repurposing costs: same-fuel entries are zero. *)
Definition self_zero (a_values all_fuels : list string) (y_values : list Z)
    (st : ArcSt) : ArcSt :=
  for_each a_values
    (λ a, for_each all_fuels
       (λ e, for_each y_values
          (λ y st, upd_f_ar (insert (a, e, e, y) 0)
                     (upd_c_ar (insert (a, e, e, y) 0) st)))) st.

(** Everything [_extract_arc_data] does after the arcs' own values are
    computed: the two propagation passes, the defaults, the same-fuel zeros. *)
Definition arc_finish (a_values all_fuels : list string) (y_values : list Z)
    (opp : gmap (string * string) Z) (st : ArcSt) : ArcSt :=
  self_zero a_values all_fuels y_values
    (fill_defaults a_values all_fuels y_values
       (propagate_ar a_values all_fuels y_values opp
          (propagate a_values all_fuels y_values opp st))).

Definition opp_defaults (a_values : list string)
    (oo : gmap (string * string) Z * gmap string string)
    : gmap (string * string) Z * gmap string string :=
  for_each a_values
    (λ ai oo,
       let opp := for_each a_values (λ ao, setdefault (ai, ao) 0%Z) oo.1 in
       (opp, setdefault ai "" oo.2)) oo.

(** The 16 values of the full return statement. *)
Record ArcOut : Type := mkArcOut {
  ao_a_values : list string;
  ao_opp : gmap (string * string) Z;
  ao_opp_map : gmap string string;
  ao_st : ArcSt;
  ao_arc_nodes : list string;
  ao_arc_fuels : list string
}.

(** The two return statements of [_extract_arc_data]: the early one, for
    an empty arc table, lists 15 empty values; the final one lists 16. *)
Inductive ArcRet : Type :=
  | Ret15
  | Ret16 (out : ArcOut).

Definition all_fuels_of (e_values arc_fuels : list string) : list string :=
  sorted_set (e_values ++ arc_fuels).

Definition arc_scalars (o : list PRow) : ArcScalars :=
  mkArcScalars (py_max 0 (_o_value o "offshmult" "" "" 0 - 1))
    (_o_value o "pipe" "LEN" "STD" 0) (_o_value o "yearstep" "" "" 0)
    (_o_value o "bfpipe" "" "" 0) (_o_value o "blpipe" "" "" 0)
    (_o_value o "bipipe" "" "" 0) (_o_value o "bidir" "VAR" "" 0)
    (_o_value o "bidir" "FIX" "" 0) (_o_value o "repurparc" "" "" 0).

(** The dictionaries when the propagation loops start: every arc has its
    own values and nothing else. *)
Definition arc_before_propagation (df_a : list ARow) (dat_o : list ORow)
    (y_values : list Z) (e_values : list string) (vola2 : gmap string Q)
    (loss_max : Q) : ArcSt :=
  let work := arc_work df_a in
  let o := arc_dat_o dat_o in
  let a_values := sorted_set (map aw_a work) in
  let all_fuels := all_fuels_of e_values (sorted_set (map aw_f work)) in
  for_each a_values
    (arc_own o (arc_scalars o) work y_values all_fuels vola2 loss_max) empty_st.

Definition _extract_arc_data (df_a : list ARow) (dat_o : list ORow)
    (y_values : list Z) (e_values : list string) (vola2 : gmap string Q)
    (loss_max : Q) : res ArcRet :=
  match df_a with
  | [] => Ok Ret15
  | _ =>
      let work := arc_work df_a in
      let o := arc_dat_o dat_o in
      let pipe_len_std := _o_value o "pipe" "LEN" "STD" 0 in
      if Qle_bool pipe_len_std 0 then
        Raise (ValueError
          "other.csv must define Pipe,Len,Std with a positive value for arc formulas.")
      else
      let year_step := _o_value o "yearstep" "" "" 0 in
      if Qle_bool year_step 0 then
        Raise (ValueError
          "other.csv must define YearStep with a positive value for arc investment formulas.")
      else
      let a_values := sorted_set (map aw_a work) in
      let arc_nodes := sorted_set (map aw_start work ++ map aw_end work) in
      let arc_fuels := sorted_set (map aw_f work) in
      let all_fuels := all_fuels_of e_values arc_fuels in
      let opp := build_opp (arc_endpoints work a_values) a_values in
      let opp_map := build_opp_map opp a_values in
      let st :=
        arc_before_propagation df_a dat_o y_values e_values vola2 loss_max in
      let st := arc_finish a_values all_fuels y_values opp st in
      let '(opp, opp_map) := opp_defaults a_values (opp, opp_map) in
      Ok (Ret16 (mkArcOut a_values opp opp_map st arc_nodes arc_fuels))
  end.

(** The full return value, when there is one. *)
Definition ret16 (r : res ArcRet) : option ArcOut :=
  match r with
  | Ok (Ret16 out) => Some out
  | _ => None
  end.

(** ** Input orchestrator *)

(** The loaded tables: what the CSV loaders hand to the extractors.
    The wide tables are taken as the casts of their extractors accept
    them: a year cell holds an integer within the range of [int64] or
    nothing.  On another number the cast raises inside pandas; such a
    table is outside this embedding, whose [load_inputs] fails in the
    arc step only.  The statements about [load_inputs] are made for
    loads that return. *)
Record Inputs : Type := mkInputs {
  dat_o : list ORow;
  dat_t : list TRow;
  dat_nodes : list NRow;
  dat_arcs : list ARow;
  dat_regas : list RRow;
  dat_storage : list SRow;
  dat_consumption : Wide;
  dat_production : Wide
}.

(** The consolidated dictionary returned by [load_inputs], projected on
    the entries used below. *)
Record Loaded : Type := mkLoaded {
  ld_n_values : list string;
  ld_e_values : list string;
  ld_y_values : list Z;
  ld_h_values : list Z;
  ld_a_values : list string;
  ld_opp : gmap (string * string) Z;
  ld_arc : ArcSt;
  ld_dmd : gmap Key4 Q;
  ld_cap_p : gmap Key4 Q;
  ld_c_p : gmap Key3 Q;
  ld_lb_p : gmap Key4 Q;
  ld_c_lr : gmap (string * string) Q;
  ld_ub_r : gmap (string * string) Q;
  ld_cap_ww : gmap Key3 Q;
  ld_h2_ready : gmap (string * string) Q;
  ld_c_z : list CzRow;
  ld_bigM : Q;
  ld_yearstep : Q
}.

(** The year-2030 pass of [load_inputs], over the final year domain. *)
Definition carry_forward_final (final_y_values : list Z) (c_p : gmap Key3 Q)
    : gmap Key3 Q :=
  if bool_decide (3 ≤ length final_y_values)%nat
     && bool_decide (2030%Z ∈ final_y_values) then
    let cp_keys := keys3 c_p in
    let cp_nodes := sorted_set (map (λ k, k.1.1) cp_keys) in
    let cp_fuels := sorted_set (map (λ k, k.1.2) cp_keys) in
    for_each cp_nodes
      (λ n, for_each cp_fuels (λ f, carry_ref (drop 2 final_y_values) n f)) c_p
  else c_p.

(** The default rows added after the node domain is widened by the
    regasification nodes. *)
Definition regas_backfill (n_values e_values : list string)
    (cu : gmap (string * string) Q * gmap (string * string) Q)
    : gmap (string * string) Q * gmap (string * string) Q :=
  for_each n_values
    (λ n, for_each e_values
       (λ e cu, (setdefault (n, e) (regas_default e) cu.1,
                  setdefault (n, e) 0 cu.2))) cu.

(** The regasification step of [load_inputs]: extraction, widening of the
    node domain by the regasification nodes, default rows for that domain. *)
Definition regas_stage (df_r : list RRow) (n_values e_values : list string)
    : gmap (string * string) Q * gmap (string * string) Q * list string :=
  let '(c_lr, ub_r, regas_nodes, regas_fuels) :=
    _extract_regas_data df_r n_values e_values in
  let n_values := sorted_set (n_values ++ regas_nodes) in
  let '(c_lr, ub_r) := regas_backfill n_values e_values (c_lr, ub_r) in
  (c_lr, ub_r, n_values).

Definition load_inputs (inp : Inputs) : res Loaded :=
  let '(y_values, h_values, scaleup) := _extract_time_domains (dat_t inp) in
  let n_values := _extract_node_structures (dat_nodes inp) in
  let '(dmd, y_dmd, h_dmd, f_dmd) :=
    _extract_consumption_data (dat_consumption inp) in
  let '(cap_p, c_p, lb_p, y_prod, h_prod, f_prod) :=
    _extract_production_data (dat_production inp) in
  let c_z := build_c_z (dat_o inp) None None in
  let regas_f_raw := map (λ r, _normalize_fuel_label (r_f r)) (dat_regas inp) in
  let storage_f_raw := map (λ r, _normalize_fuel_label (s_f r)) (dat_storage inp) in
  let e_values :=
    sorted_set (map cz_e c_z ++ f_dmd ++ f_prod ++ regas_f_raw ++ storage_f_raw) in
  let '(c_lr, ub_r, n_values) := regas_stage (dat_regas inp) n_values e_values in
  let final_y_values := sorted_setZ (y_values ++ y_dmd ++ y_prod) in
  let final_h_values := sorted_setZ (h_values ++ h_dmd ++ h_prod) in
  let vola2_map := build_vola2 (dat_o inp) e_values in
  let loss_max_value := build_loss_max (dat_o inp) in
  match _extract_arc_data (dat_arcs inp) (dat_o inp) final_y_values e_values
                          vola2_map loss_max_value with
  | Raise e => Raise e
  | Ok Ret15 =>
      (* sixteen names are unpacked from the returned tuple *)
      Raise (ValueError "not enough values to unpack (expected 16, got 15)")
  | Ok (Ret16 arcs) =>
      let n_values := sorted_set (n_values ++ ao_arc_nodes arcs) in
      let e_values := sorted_set (e_values ++ ao_arc_fuels arcs) in
      let scaleup :=
        for_each final_h_values (λ h, setdefault h (1 : Q)) scaleup in
      let c_p := carry_forward_final final_y_values c_p in
      let '(cap_ww, h2_ready, stor_nodes, stor_fuels) :=
        _extract_storage_data (dat_storage inp) n_values e_values
                              final_y_values final_h_values scaleup in
      let n_values := sorted_set (n_values ++ stor_nodes) in
      Ok (mkLoaded n_values e_values final_y_values final_h_values
                   (ao_a_values arcs) (ao_opp arcs) (ao_st arcs)
                   dmd cap_p c_p lb_p c_lr ub_r cap_ww h2_ready c_z
                   (build_bigM (dat_o inp)) (build_yearstep (dat_o inp)))
  end.

(** The fuel and node domains of [load_inputs] when the default rows of
    c_lr and ub_r are written: the fuels of the penalty table, of
    consumption.csv, production.csv, regasification.csv and storage.csv,
    and the nodes of nodes.csv and regasification.csv.  Afterwards
    arcs.csv widens both domains and storage.csv the node domain. *)
Definition fuels_at_regas (inp : Inputs) : list string :=
  let f_dmd := (_extract_consumption_data (dat_consumption inp)).2 in
  let f_prod := (_extract_production_data (dat_production inp)).2 in
  let c_z := build_c_z (dat_o inp) None None in
  let regas_f_raw := map (λ r, _normalize_fuel_label (r_f r)) (dat_regas inp) in
  let storage_f_raw := map (λ r, _normalize_fuel_label (s_f r)) (dat_storage inp) in
  sorted_set (map cz_e c_z ++ f_dmd ++ f_prod ++ regas_f_raw ++ storage_f_raw).

Definition nodes_at_regas (inp : Inputs) : list string :=
  (regas_stage (dat_regas inp) (_extract_node_structures (dat_nodes inp))
               (fuels_at_regas inp)).2.

(** ** scr/core/model.py: the model compiler *)

Definition _clean_list (values : option (list (option string))) : list string :=
  match values with
  | None => []
  | Some vs =>
      sorted_set
        (filter (λ s, s ≠ "")
           (map (λ value,
                   let s := match value with None => "" | Some x => strip x end in
                   if bool_decide (lower s ∈ ["nan"; "none"; "null"]) then "" else s)
                vs))
  end.

(** Python [xs or ys] on lists. *)
Definition list_or {A} (xs ys : list A) : list A :=
  match xs with [] => ys | _ => xs end.

(** The keyword arguments of [build_base_model_with_cz]. *)
Record Overrides : Type := mkOverrides {
  ov_z_values : option (list (option string));
  ov_e_values : option (list (option string));
  ov_node_values : option (list (option string));
  ov_arc_values : option (list (option string));
  ov_y_values : option (list Z);
  ov_h_values : option (list Z)
}.

Definition no_overrides : Overrides := mkOverrides None None None None None None.

(** Sets and parameters of the built model.  A [pyo.Param] is the
    function its [initialize] rule computes. *)
Record Model : Type := mkModel {
  mZ : list string;
  mE : list string;
  mN : list string;
  mA : list string;
  mY : list Z;
  mH : list Z;
  z_dmd : option string;
  first_y : option Z;
  cap_a : string → string → Z → Q;
  cap_ww : string → string → Z → Q;
  h2_ready : string → string → Q;
  dmd : string → string → Z → Z → Q;
  cap_p : string → string → Z → Z → Q;
  lb_p : string → string → Z → Z → Q;
  c_lr : string → string → Q;
  ub_r : string → string → Q;
  not_h : string → Z
}.

Definition build_base_model_with_cz (loaded : Loaded) (ov : Overrides) : Model :=
  let c_z_df := ld_c_z loaded in
  let z_domain :=
    list_or (_clean_list (ov_z_values ov)) (sorted_set (map cz_z c_z_df)) in
  let e_domain :=
    list_or (_clean_list (ov_e_values ov))
      (list_or (_clean_list (Some (map Some (ld_e_values loaded))))
               (sorted_set (map cz_e c_z_df))) in
  let final_y_values :=
    sorted_setZ (match ov_y_values ov with Some ys => ys | None => ld_y_values loaded end) in
  let final_h_values :=
    sorted_setZ (match ov_h_values ov with Some hs => hs | None => ld_h_values loaded end) in
  let z_dmd :=
    if bool_decide ("ZD2" ∈ z_domain) then Some "ZD2" else head z_domain in
  let y_order := final_y_values in
  mkModel z_domain e_domain
    (list_or (_clean_list (ov_node_values ov))
             (_clean_list (Some (map Some (ld_n_values loaded)))))
    (list_or (_clean_list (ov_arc_values ov))
             (_clean_list (Some (map Some (ld_a_values loaded)))))
    final_y_values final_h_values z_dmd (head y_order)
    (λ a e y, dget 0 (st_cap_a (ld_arc loaded)) (a, e, y))
    (λ n e y, dget 0 (ld_cap_ww loaded) (n, e, y))
    (λ n e, dget 0 (ld_h2_ready loaded) (n, e))
    (λ n e y h, dget 0 (ld_dmd loaded) (n, e, y, h))
    (λ n e y h, dget 0 (ld_cap_p loaded) (n, e, y, h))
    (λ n e y h, dget 0 (ld_lb_p loaded) (n, e, y, h))
    (λ n e, dget (if String.eqb (upper e) "G" then 1 else 9999) (ld_c_lr loaded) (n, e))
    (λ n e, dget 0 (ld_ub_r loaded) (n, e))
    (λ e, (1 - (if String.eqb (upper e) "H" then 1 else 0))%Z).

(** Values of the decision variables that occur in the constraint
    families below. *)
Record Asg : Type := mkAsg {
  K_A : string → string → Z → Q;
  B_AR : string → string → string → Z → Q;
  K_RA : string → string → string → Z → Q;
  K_W : string → string → Z → Q;
  B_WR : string → string → string → Z → Q;
  K_RW : string → string → string → Z → Q;
  Q_S : string → string → Z → Z → Q;
  ZDS : string → string → string → Z → Z → Q
}.

(** What a constraint rule returns: [None] is [pyo.Constraint.Skip]. *)
Definition Rule : Type := option (Asg → Prop).

Definition holds (r : Rule) (v : Asg) : Prop :=
  match r with
  | None => True
  | Some c => c v
  end.

Definition is_first (m : Model) (y : Z) : bool :=
  match first_y m with
  | None => false
  | Some y0 => bool_decide (y = y0)
  end.

Definition k_a_init (m : Model) (a e : string) (y : Z) : Rule :=
  if is_first m y then Some (λ v, K_A v a e y == cap_a m a e y) else None.

Definition k_w_init (m : Model) (n e : string) (y : Z) : Rule :=
  if is_first m y then Some (λ v, K_W v n e y == cap_ww m n e y) else None.

Definition b_ar_fix_first (m : Model) (a e f : string) (y : Z) : Rule :=
  if is_first m y then Some (λ v, B_AR v a e f y == 0) else None.

Definition k_ra_fix_first (m : Model) (a e f : string) (y : Z) : Rule :=
  if is_first m y then Some (λ v, K_RA v a e f y == 0) else None.

Definition b_wr_fix_first (m : Model) (n e f : string) (y : Z) : Rule :=
  if is_first m y then Some (λ v, B_WR v n e f y == 0) else None.

Definition k_rw_fix_first (m : Model) (n e f : string) (y : Z) : Rule :=
  if is_first m y then Some (λ v, K_RW v n e f y == 0) else None.

Definition k_w_fix_h2_ready (m : Model) (n : string) (y : Z) : Rule :=
  if bool_decide ("G" ∈ mE m) && Qle_bool (h2_ready m n "G") 0
  then Some (λ v, K_W v n "G" y == cap_ww m n "G" y)
  else None.

Definition dmd_n3 (m : Model) (n e : string) (y h : Z) : Rule :=
  match z_dmd m with
  | None => None
  | Some z =>
      if bool_decide (not_h m e ≠ 1%Z) || Qle_bool (dmd m n e y h) 0 then None
      else Some (λ v, Q_S v n e y h == dmd m n e y h - ZDS v z n e y h)
  end.

Definition qs_zero_nonh (m : Model) (n e : string) (y h : Z) : Rule :=
  if bool_decide (not_h m e ≠ 1%Z) || Qgtb (dmd m n e y h) 0 then None
  else Some (λ v, Q_S v n e y h == 0).

Definition zd2_zero_nonh (m : Model) (n e : string) (y h : Z) : Rule :=
  match z_dmd m with
  | None => None
  | Some z =>
      if bool_decide (not_h m e ≠ 1%Z) || Qgtb (dmd m n e y h) 0 then None
      else Some (λ v, ZDS v z n e y h == 0)
  end.

(** An assignment satisfies the constraint families above: every rule
    instance over its index sets holds.  Any solution of the built model
    satisfies these, together with the model's other constraints. *)
Record feasible (m : Model) (v : Asg) : Prop := mkFeasible {
  sat_k_a_init : ∀ a e y, a ∈ mA m → e ∈ mE m → y ∈ mY m →
    holds (k_a_init m a e y) v;
  sat_k_w_init : ∀ n e y, n ∈ mN m → e ∈ mE m → y ∈ mY m →
    holds (k_w_init m n e y) v;
  sat_b_ar_fix_first : ∀ a e f y, a ∈ mA m → e ∈ mE m → f ∈ mE m → y ∈ mY m →
    holds (b_ar_fix_first m a e f y) v;
  sat_k_ra_fix_first : ∀ a e f y, a ∈ mA m → e ∈ mE m → f ∈ mE m → y ∈ mY m →
    holds (k_ra_fix_first m a e f y) v;
  sat_b_wr_fix_first : ∀ n e f y, n ∈ mN m → e ∈ mE m → f ∈ mE m → y ∈ mY m →
    holds (b_wr_fix_first m n e f y) v;
  sat_k_rw_fix_first : ∀ n e f y, n ∈ mN m → e ∈ mE m → f ∈ mE m → y ∈ mY m →
    holds (k_rw_fix_first m n e f y) v;
  sat_k_w_fix_h2_ready : ∀ n y, n ∈ mN m → y ∈ mY m →
    holds (k_w_fix_h2_ready m n y) v;
  sat_dmd_n3 : ∀ n e y h, n ∈ mN m → e ∈ mE m → y ∈ mY m → h ∈ mH m →
    holds (dmd_n3 m n e y h) v;
  sat_qs_zero_nonh : ∀ n e y h, n ∈ mN m → e ∈ mE m → y ∈ mY m → h ∈ mH m →
    holds (qs_zero_nonh m n e y h) v;
  sat_zd2_zero_nonh : ∀ n e y h, n ∈ mN m → e ∈ mE m → y ∈ mY m → h ∈ mH m →
    holds (zd2_zero_nonh m n e y h) v
}.

(** [y_pos = {y: idx for idx, y in enumerate(y_order)}], with
    [y_order = list(model.Y)]. *)
Definition y_pos (m : Model) : gmap Z nat :=
  foldl (λ d iy, <[iy.2 := iy.1]> d) ∅ (imap (λ i y, (i, y)) (mY m)).

(** [ypred(y2, y) = int(y_pos[y] - y_pos[y2] == 1)] on Y x Y, and the
    parameter's default 0 elsewhere. *)
Definition ypred (m : Model) (y2 y : Z) : Z :=
  match y_pos m !! y, y_pos m !! y2 with
  | Some i, Some j =>
      if bool_decide (Z.of_nat i - Z.of_nat j = 1)%Z then 1%Z else 0%Z
  | _, _ => 0%Z
  end.

(** The guard of the constraints of the later years: they are skipped
    when [first_y is None or int(y) == int(first_y)]. *)
Definition is_later (m : Model) (y : Z) : bool :=
  match first_y m with
  | None => false
  | Some y0 => bool_decide (y ≠ y0)
  end.

Definition wr_cap (m : Model) (n e : string) (y : Z) : Rule :=
  if is_later m y
  then Some (λ v, K_W v n e y == py_sum (map (λ f, K_RW v n f e y) (mE m)))
  else None.

Definition bil_w1 (m : Model) (n e : string) (y : Z) : Rule :=
  if is_later m y
  then Some (λ v, py_sum (map (λ f, K_RW v n e f y) (mE m))
                  == py_sum (map (λ y2, K_W v n e y2)
                               (filter (λ y2, ypred m y2 y = 1%Z) (mY m))))
  else None.

(** An assignment satisfies the two storage-repurposing balances. *)
Record storage_feasible (m : Model) (v : Asg) : Prop := mkStorageFeasible {
  sat_wr_cap : ∀ n e y, n ∈ mN m → e ∈ mE m → y ∈ mY m →
    holds (wr_cap m n e y) v;
  sat_bil_w1 : ∀ n e y, n ∈ mN m → e ∈ mE m → y ∈ mY m →
    holds (bil_w1 m n e y) v
}.

(** ** scr/core/validate.py: the repurposing checks on a solved model

    The assignment gives the value of every variable, as after a solve;
    [_safe_value] is then the value itself. *)




(** ** Concrete scenarios

    Small inputs on which the definitions above are evaluated below. *)

Definition orow (p : string) (i1 i2 : option string) (v : Q) : ORow :=
  mkORow (Some p) i1 i2 (Some v).

(** A minimal other.csv: PipeLenStd = 100, YearStep = 5. *)
Definition other_min : list ORow :=
  [orow "Pipe" (Some "Len") (Some "Std") 100; orow "YearStep" None None 5].

(** An arcs.csv row with only the length filled in. *)
Definition arow (a s e f : string) (len : Q) : ARow :=
  mkARow (Some a) (Some s) (Some e) (Some f) (Some 10) (Some len)
         None None None None None None None.

(** A loaded scenario with one node, one arc, two fuels and two years. *)
Definition demo_loaded : Loaded :=
  mkLoaded ["N1"] ["G"; "H"] [2025; 2030]%Z [1%Z] ["A1"] ∅
    (upd_cap_a (λ _, {[ ("A1", "G", 2025%Z) := 10; ("A1", "G", 2030%Z) := 10 ]})
               empty_st)
    {[ ("N1", "G", 2025%Z, 1%Z) := 3 ]} ∅ ∅ ∅ ∅ ∅
    {[ ("N1", "G", 2025%Z) := 4; ("N1", "G", 2030%Z) := 4 ]}
    {[ ("N1", "G") := 0 ]}
    [mkCzRow "ZD2" "G" 100; mkCzRow "ZD2" "H" 100] 1000 5.

(** It keeps every stock at its exogenous capacity, repurposes nothing
    and serves all demand without slack. *)
Definition demo_asg : Asg :=
  mkAsg (λ a e y, dget 0 (st_cap_a (ld_arc demo_loaded)) (a, e, y))
        (λ _ _ _ _, 0) (λ _ _ _ _, 0)
        (λ n e y, dget 0 (ld_cap_ww demo_loaded) (n, e, y))
        (λ _ _ _ _, 0) (λ _ _ _ _, 0)
        (λ n e y h, dget 0 (ld_dmd demo_loaded) (n, e, y, h))
        (λ _ _ _ _ _, 0).

(** A production.csv with one hour column and one row per year. *)
Definition prow (y : Z) (mc lb cap : Q) : WRow :=
  mkWRow (Some "N1") (Some "G") (Some y) (Some mc) (Some lb) [Some cap].

Definition five_year_production : Wide :=
  mkWide [1%Z]
    [prow 2025 1 0 10; prow 2028 2 0 10; prow 2030 3 7 5;
     prow 2035 4 0 10; prow 2040 5 0 10].

Definition no_rows : Wide := mkWide [] [].

(** Production rows for 2025/2028/2030/2035/2040 and one arc; no
    timeseries.csv and no consumption.csv. *)
Definition production_only : Inputs :=
  mkInputs other_min [] [] [arow "A1" "N1" "N2" "G" 100] [] [] no_rows
           five_year_production.

(** The same, with a timeseries.csv that lists the five years. *)
Definition production_with_timeseries : Inputs :=
  mkInputs other_min
    (map (λ y, mkTRow (Some y) (Some 1) None) [2025; 2028; 2030; 2035; 2040])
    [] [arow "A1" "N1" "N2" "G" 100] [] [] no_rows five_year_production.

(** One physical pipe described in both directions: the forward record
    [A] carries the length, the reverse record [B] is left at zero.
    other.csv prices flow, expansion and repurposing. *)
Definition other_priced : list ORow :=
  other_min ++
  [orow "BFPipe" None None 1; orow "BIPipe" None None 2;
   orow "RepurpArc" None None 9; orow "RepurpArc" (Some "FIX") (Some "G") 4].

Definition two_way_pipe : Inputs :=
  mkInputs other_priced
    (map (λ y, mkTRow (Some y) (Some 1) None) [2025; 2030])
    [] [arow "A" "N1" "N2" "G" 100; arow "B" "N2" "N1" "G" 0;
        arow "A" "N1" "N2" "H" 100] [] [] no_rows no_rows.

(** Node N1 comes from nodes.csv, node N2 only from arcs.csv; the fuel
    label GAS comes from consumption.csv; there is no regasification row. *)
Definition arc_only_node : Inputs :=
  mkInputs other_min [] [mkNRow (Some "N1") (Some "NO") (Some "NO01") (Some "NO01")]
    [arow "A" "N1" "N2" "G" 100] [] []
    (mkWide [1%Z] [mkWRow (Some "N1") (Some "GAS") (Some 2025%Z) None None [Some 5]])
    no_rows.

(** Regasification rows: one for 2030, then two for 2025 on the same cell. *)
Definition regas_rows : list RRow :=
  [mkRRow (Some "N1") (Some "gas") (Some 2030) (Some 7) (Some 50);
   mkRRow (Some "N1") (Some "gas") (Some 2025) (Some 3) (Some 20);
   mkRRow (Some "N1") (Some "NG") None (Some (-2)) (Some (-4))].

(** Node N1 comes from nodes.csv and the fuel label GAS from
    consumption.csv; the one regasification row, for 2025, is written
    with the same label GAS. *)
Definition regas_raw_label : Inputs :=
  mkInputs other_min [] [mkNRow (Some "N1") (Some "NO") (Some "NO01") (Some "NO01")]
    [arow "A" "N1" "N2" "G" 100]
    [mkRRow (Some "N1") (Some "GAS") (Some 2025) (Some 3) (Some 20)] []
    (mkWide [1%Z] [mkWRow (Some "N1") (Some "GAS") (Some 2025%Z) None None [Some 5]])
    no_rows.

(** Two parallel arcs A1 and A2 from N1 to N2 and one reverse arc B
    whose record is left at zero; only the flow cost is priced. *)
Definition parallel_arcs : list ARow :=
  [arow "A1" "N1" "N2" "G" 100; arow "A2" "N1" "N2" "G" 200;
   arow "B" "N2" "N1" "G" 0].

Definition flow_priced : list ORow := other_min ++ [orow "BFPipe" None None 1].

(** One pipe in both directions, the reverse record left at zero. *)
Definition one_pipe : list ARow :=
  [arow "A" "N1" "N2" "G" 100; arow "B" "N2" "N1" "G" 0].

(** Only the expansion cost is priced: the flow cost is zero everywhere. *)
Definition expansion_priced : list ORow :=
  other_min ++ [orow "BIPipe" None None 2].

(** One pipe whose forward record [A] carries the length and the
    bidirectional flag; other.csv prices flow, expansion, losses and
    reversal, so that the own values of [A] and [B] differ in cost,
    efficiency and flag. *)
Definition flagged_pipe : list ARow :=
  [mkARow (Some "A") (Some "N1") (Some "N2") (Some "G") (Some 10) (Some 100)
          None None None None None None (Some 1);
   arow "B" "N2" "N1" "G" 0].

Definition other_full : list ORow :=
  other_min ++
  [orow "BFPipe" None None 1; orow "BIPipe" None None 2;
   orow "BLPipe" None None (1 # 8); orow "Bidir" (Some "VAR") None 3;
   orow "Bidir" (Some "FIX") None 4].

(** The same pipe with the records swapped: [B] carries the length and
    the flag, and [A], which sorts first, is left at zero. *)
Definition reverse_pipe : list ARow :=
  [arow "A" "N1" "N2" "G" 0;
   mkARow (Some "B") (Some "N2") (Some "N1") (Some "G") (Some 10) (Some 100)
          None None None None None None (Some 1)].

(** Two short records of one pipe, [B] flagged bidirectional; with the
    standard length 2^20 their flow costs are 2^-20 and 2^-19, both
    positive and both below 1e-5. *)
Definition short_pipes : list ARow :=
  [arow "A" "N1" "N2" "G" 1;
   mkARow (Some "B") (Some "N2") (Some "N1") (Some "G") (Some 10) (Some 2)
          None None None None None None (Some 1)].

Definition other_long_std : list ORow :=
  [orow "Pipe" (Some "Len") (Some "Std") 1048576; orow "YearStep" None None 5;
   orow "BFPipe" None None 1].

(** Two parallel arcs A1 and A2 from N1 to N2 and one reverse arc B: A1
    is left at zero, and with the standard length 2^20 the flow costs of
    A2 and B are 2^-20 and 2^-19. *)
Definition forked_pipes : list ARow :=
  [arow "A1" "N1" "N2" "G" 0; arow "A2" "N1" "N2" "G" 1; arow "B" "N2" "N1" "G" 2].

(** The storage of [demo_loaded] kept as it is: in 2030 every fuel's
    stock is the one of 2025, carried over without a change of fuel. *)
Definition demo_asg_storage : Asg :=
  mkAsg (λ a e y, dget 0 (st_cap_a (ld_arc demo_loaded)) (a, e, y))
        (λ _ _ _ _, 0) (λ _ _ _ _, 0)
        (λ n e y, dget 0 (ld_cap_ww demo_loaded) (n, e, y))
        (λ _ _ _ _, 0)
        (λ n e f y,
           if bool_decide (e = f ∧ y = 2030%Z)
           then dget 0 (ld_cap_ww demo_loaded) (n, e, 2025%Z) else 0)
        (λ n e y h, dget 0 (ld_dmd demo_loaded) (n, e, y, h))
        (λ _ _ _ _ _, 0).

(** A timeseries.csv: hour 1 gives a scale factor only in its second
    row, hour 2 gives none that is positive, and the last row has the
    fractional hour 3.5. *)
Definition two_hours : list TRow :=
  [mkTRow (Some 2025) (Some 1) None;
   mkTRow (Some 2025) (Some 1) (Some 24);
   mkTRow (Some 2025) (Some 2) (Some (-1));
   mkTRow (Some 2030) (Some (7 # 2)) (Some 9)].

(** ** Predicates used in the statements *)

(** Capacity and lower bound are written together, cell by cell. *)
Definition same_cells (acc : ProdAcc) : Prop :=
  ∀ k, pa_cap_p acc !! k = None → pa_lb_p acc !! k = None.

(** The year cell of a regasification row, 2025 when it is missing, is
    within the range of [int64] once rounded toward zero. *)
Definition regas_year_ok (r : RRow) : Prop :=
  in_int64 (py_trunc (num_or 2025 (r_y r))).

(** Row [r] of the regasification table is a year-2025 row for the cell
    [(n, e)], as the extractor reads it: the cell is the stripped node
    and the canonical fuel label of the row, and the year of the row,
    2025 when it is missing, is 2025 once rounded toward zero. *)
Definition regas_hits (n e : string) (r : RRow) : Prop :=
  strip (strip (py_str (r_n r))) = n ∧
  strip (_normalize_fuel_label (r_f r)) = e ∧
  py_trunc (num_or 2025 (r_y r)) = 2025%Z ∧ n ≠ "" ∧ e ≠ "".

(** The cost and the bound such a row writes. *)
Definition regas_cost (e : string) (r : RRow) : Q :=
  if String.eqb (_normalize_fuel_label (Some e)) "G"
  then match r_cal_c r with
       | None => 1
       | Some v => if Qle_bool v 0 then 1 else v
       end
  else 9999.

Definition regas_ub (r : RRow) : Q :=
  match r_ub r with
  | None => 0
  | Some v => py_max 0 v
  end.

(** The opposite arc [ao] reads the same values as the forward arc [ai]
    for fuel [f] and year [y]; reads use the defaults of the model
    compiler.  [pe] and [pb] guard the efficiency and the flag. *)
Definition mirrors (pe pb : Prop) (ai ao f : string) (y : Z) (s : ArcSt) : Prop :=
  dget 0 (st_c_a s) (ao, f, y) = dget 0 (st_c_a s) (ai, f, y) ∧
  dget 0 (st_c_ax s) (ao, f, y) = dget 0 (st_c_ax s) (ai, f, y) ∧
  dget 0 (st_c_ab s) (ao, f, y) = dget 0 (st_c_ab s) (ai, f, y) ∧
  dget 0 (st_f_ab s) (ao, y) = dget 0 (st_f_ab s) (ai, y) ∧
  (pe → dget 1 (st_e_a s) (ao, f) = dget 1 (st_e_a s) (ai, f)) ∧
  (pb → dget 0%Z (st_is_bid s) ao = dget 0%Z (st_is_bid s) ai).

(** Two states in which the six propagated maps read the same everywhere. *)
Definition same_reads (s s' : ArcSt) : Prop :=
  (∀ k, dget 0 (st_c_a s') k = dget 0 (st_c_a s) k) ∧
  (∀ k, dget 0 (st_c_ax s') k = dget 0 (st_c_ax s) k) ∧
  (∀ k, dget 0 (st_c_ab s') k = dget 0 (st_c_ab s) k) ∧
  (∀ k, dget 0 (st_f_ab s') k = dget 0 (st_f_ab s) k) ∧
  (∀ k, dget 1 (st_e_a s') k = dget 1 (st_e_a s) k) ∧
  (∀ k, dget 0%Z (st_is_bid s') k = dget 0%Z (st_is_bid s) k).

(** The loop invariant of the first propagation pass for one opposite
    pair: the forward cost stays positive, the forward efficiency and
    flag stay present, and the opposite arc either still has its low
    cost or already mirrors the forward arc. *)
Definition pair_inv (pe pb : Prop) (ai ao f : string) (y : Z) (s : ArcSt) : Prop :=
  0 < dget 0 (st_c_a s) (ai, f, y) ∧
  (pe → is_Some (st_e_a s !! (ai, f))) ∧
  (pb → is_Some (st_is_bid s !! ai)) ∧
  (dget 0 (st_c_a s) (ao, f, y) <= tol ∨ mirrors pe pb ai ao f y s).

Definition pair_done (pe pb : Prop) (ai ao f : string) (y : Z) (s : ArcSt) : Prop :=
  0 < dget 0 (st_c_a s) (ai, f, y) ∧
  (pe → is_Some (st_e_a s !! (ai, f))) ∧
  (pb → is_Some (st_is_bid s !! ai)) ∧
  mirrors pe pb ai ao f y s.

(** The state [s'] reads like [s] on every key of the arcs [ai] and
    [ao], and keeps the entries [s] has for them. *)
Definition same_reads_on (ai ao : string) (s s' : ArcSt) : Prop :=
  (∀ a f y, a = ai ∨ a = ao →
     dget 0 (st_c_a s') (a, f, y) = dget 0 (st_c_a s) (a, f, y)) ∧
  (∀ a f y, a = ai ∨ a = ao →
     dget 0 (st_c_ax s') (a, f, y) = dget 0 (st_c_ax s) (a, f, y)) ∧
  (∀ a f y, a = ai ∨ a = ao →
     dget 0 (st_c_ab s') (a, f, y) = dget 0 (st_c_ab s) (a, f, y)) ∧
  (∀ a y, a = ai ∨ a = ao →
     dget 0 (st_f_ab s') (a, y) = dget 0 (st_f_ab s) (a, y)) ∧
  (∀ a f, a = ai ∨ a = ao →
     dget 1 (st_e_a s') (a, f) = dget 1 (st_e_a s) (a, f)) ∧
  (∀ a, a = ai ∨ a = ao →
     dget 0%Z (st_is_bid s') a = dget 0%Z (st_is_bid s) a) ∧
  (∀ a f, a = ai ∨ a = ao →
     is_Some (st_e_a s !! (a, f)) → is_Some (st_e_a s' !! (a, f))) ∧
  (∀ a, a = ai ∨ a = ao →
     is_Some (st_is_bid s !! a) → is_Some (st_is_bid s' !! a)).

(** Where an arc has a flow cost it has an efficiency and a flag. *)
Definition own_wf (s : ArcSt) : Prop :=
  ∀ a f y, is_Some (st_c_a s !! (a, f, y)) →
    is_Some (st_e_a s !! (a, f)) ∧ is_Some (st_is_bid s !! a).

(** The same, while the rows of arc [a0] are being read: its flag is
    written after its rows. *)
Definition own_wf_but (a0 : string) (s : ArcSt) : Prop :=
  ∀ a f y, is_Some (st_c_a s !! (a, f, y)) →
    is_Some (st_e_a s !! (a, f)) ∧ (a = a0 ∨ is_Some (st_is_bid s !! a)).

(** The flow cost, efficiency and flag maps of [s'] are those of [s]. *)
Definition keeps_flow (s s' : ArcSt) : Prop :=
  st_c_a s' = st_c_a s ∧ st_e_a s' = st_e_a s ∧ st_is_bid s' = st_is_bid s.

(** The six values that the first propagation loop copies, as they are
    read for arc [a], fuel [f] and year [y]: c_a, c_ax, c_ab, f_ab, e_a
    and is_bid, with the defaults of the readers. *)
Definition flow_reads (s : ArcSt) (a f : string) (y : Z) : Q * Q * Q * Q * Q * Z :=
  (dget 0 (st_c_a s) (a, f, y), dget 0 (st_c_ax s) (a, f, y),
   dget 0 (st_c_ab s) (a, f, y), dget 0 (st_f_ab s) (a, y),
   dget 1 (st_e_a s) (a, f), dget 0%Z (st_is_bid s) a).

(** The test of the first propagation loop for the pair [(ai, ao)]:
    [c_a.get((ai, f, y), 0.0) > 0.0 and c_a.get((ao, f, y), 0.0) <= 1e-5]. *)
Definition copy_test (s : ArcSt) (ai ao f : string) (y : Z) : Prop :=
  0 < dget 0 (st_c_a s) (ai, f, y) ∧ dget 0 (st_c_a s) (ao, f, y) <= tol.

(** The first propagation pass seen from the pair [(ai, ao)], with [st0]
    the tables at the start: before the pair is visited the invariant of
    the pass holds, afterwards [ao] mirrors [ai]; throughout, [ai] reads
    as it did at the start. *)
Definition kept_inv (st0 : ArcSt) (ai ao f : string) (y : Z) (s : ArcSt) : Prop :=
  pair_inv True True ai ao f y s ∧ flow_reads s ai f y = flow_reads st0 ai f y.

Definition kept_done (st0 : ArcSt) (ai ao f : string) (y : Z) (s : ArcSt) : Prop :=
  pair_done True True ai ao f y s ∧ flow_reads s ai f y = flow_reads st0 ai f y.

(** The key under which a row of a wide table is filed, when the row
    has a node, a fuel and a year. *)
Definition wide_key (row : WRow) : option Key3 :=
  match w_y row with
  | None => None
  | Some y =>
      if bool_decide (strip (py_str (w_n row)) = "" ∨ strip (py_str (w_f row)) = "")
      then None
      else Some (strip (py_str (w_n row)), strip (py_str (w_f row)), y)
  end.

(** The first record of arc [a] in the cleaned arc table. *)
Definition first_row (work : list AWork) (a : string) : option AWork :=
  head (filter (λ w, aw_a w = a) work).

(** * Properties *)

(** ** Auxiliary facts *)

Lemma Qgtb_true (a b : Q) : Qgtb a b = true ↔ b < a.
Proof.
  unfold Qgtb. rewrite negb_true_iff, <- not_true_iff_false, Qle_bool_iff.
  split; [apply Qnot_le_lt | apply Qlt_not_le].
Qed.

Lemma Qgtb_false (a b : Q) : Qgtb a b = false ↔ a <= b.
Proof.
  unfold Qgtb. rewrite negb_false_iff, Qle_bool_iff. done.
Qed.

Lemma py_min_le_r (a b : Q) : py_min a b <= b.
Proof.
  unfold py_min. destruct (Qgtb a b) eqn:E.
  - apply Qle_refl.
  - by apply Qgtb_false.
Qed.

Section for_each_facts.
Context {A S : Type}.
Implicit Types (xs : list A) (body : A → S → S) (s : S).

Lemma for_each_nil body s : for_each [] body s = s.
Proof. done. Qed.

Lemma for_each_cons x xs body s :
  for_each (x :: xs) body s = for_each xs body (body x s).
Proof. done. Qed.

Lemma for_each_app xs ys body s :
  for_each (xs ++ ys) body s = for_each ys body (for_each xs body s).
Proof. unfold for_each. by rewrite foldl_app. Qed.

(** A loop invariant: what every iteration preserves holds at the end. *)
Lemma for_each_inv (P : S → Prop) xs body s :
  P s → (∀ x s', x ∈ xs → P s' → P (body x s')) → P (for_each xs body s).
Proof.
  revert s. induction xs as [|x xs IH]; intros s Hs Hstep; [done|].
  rewrite for_each_cons. apply IH.
  - apply Hstep; [left | done].
  - intros y s' Hy. apply Hstep. by right.
Qed.

(** An iteration that turns the invariant [I] into [P], which all the
    iterations then keep. *)
Lemma for_each_hit (I P : S → Prop) xs body s x0 :
  x0 ∈ xs →
  I s →
  (∀ x s', x ∈ xs → I s' → I (body x s')) →
  (∀ s', I s' → P (body x0 s')) →
  (∀ x s', x ∈ xs → P s' → P (body x s')) →
  P (for_each xs body s).
Proof.
  intros Hin Hs HI Hhit Hkeep.
  apply list_elem_of_split in Hin as (l1 & l2 & ->).
  rewrite for_each_app, for_each_cons.
  apply for_each_inv.
  - apply Hhit. apply for_each_inv; [done|].
    intros y s' Hy. apply HI. set_solver.
  - intros y s' Hy. apply Hkeep. set_solver.
Qed.
End for_each_facts.

Lemma elem_of_map {A B : Type} (g : A → B) (l : list A) (y : B) :
  y ∈ map g l ↔ ∃ x, y = g x ∧ x ∈ l.
Proof.
  rewrite list_elem_of_In, in_map_iff. split.
  - intros (x & <- & Hx). exists x. by rewrite list_elem_of_In.
  - intros (x & -> & Hx). exists x. by rewrite <- list_elem_of_In.
Qed.

Lemma elem_of_sorted_set (x : string) (l : list string) : x ∈ sorted_set l ↔ x ∈ l.
Proof.
  unfold sorted_set. rewrite merge_sort_Permutation. apply elem_of_remove_dups.
Qed.

Lemma elem_of_sorted_setZ (x : Z) (l : list Z) : x ∈ sorted_setZ l ↔ x ∈ l.
Proof.
  unfold sorted_setZ. rewrite merge_sort_Permutation. apply elem_of_remove_dups.
Qed.

Lemma NoDup_sorted_setZ (l : list Z) : NoDup (sorted_setZ l).
Proof.
  unfold sorted_setZ. rewrite merge_sort_Permutation. apply NoDup_remove_dups.
Qed.

Lemma NoDup_sorted_set (l : list string) : NoDup (sorted_set l).
Proof.
  unfold sorted_set. rewrite merge_sort_Permutation. apply NoDup_remove_dups.
Qed.

(** A cast of a cell in range keeps its value. *)
Lemma wrap_int64_in_range (z : Z) : in_int64 z → wrap_int64 z = z.
Proof.
  unfold in_int64, wrap_int64. intros Hz.
  rewrite Z.mod_small by lia. lia.
Qed.

Lemma astype_int_in_range (v : Q) : in_int64 (py_trunc v) → astype_int v = py_trunc v.
Proof. apply wrap_int64_in_range. Qed.

(** The head of [sorted(set(xs))] is its alphabetically first element. *)
Lemma sorted_set_head_min (l : list string) (z0 : string) (rest : list string) :
  sorted_set l = z0 :: rest → ∀ z, z ∈ sorted_set l → String.le z0 z.
Proof.
  intros Heq z Hz.
  pose proof (StronglySorted_merge_sort String.le (remove_dups l)) as Hs.
  unfold sorted_set in *. rewrite Heq in Hs, Hz.
  apply StronglySorted_inv in Hs as [_ Hall].
  apply elem_of_cons in Hz as [->|Hz]; [done|].
  rewrite Forall_forall in Hall. by apply Hall.
Qed.

Section dict_facts.
Context {K : Type} `{Countable K} {V : Type}.
Implicit Types (m : gmap K V) (k : K) (v d : V).

Lemma dget_insert_eq d m k v : dget d (<[k := v]> m) k = v.
Proof. unfold dget. by rewrite lookup_insert_eq. Qed.

Lemma dget_insert_ne d m k k' v : k ≠ k' → dget d (<[k := v]> m) k' = dget d m k'.
Proof. intros. unfold dget. by rewrite lookup_insert_ne. Qed.

Lemma lookup_setdefault_ne m k k' v : k ≠ k' → setdefault k v m !! k' = m !! k'.
Proof.
  intros. unfold setdefault. destruct (m !! k); [done|]. by rewrite lookup_insert_ne.
Qed.

Lemma lookup_setdefault_eq m k v :
  setdefault k v m !! k = Some (default v (m !! k)).
Proof.
  unfold setdefault. destruct (m !! k) eqn:E; simpl; [done|].
  by rewrite lookup_insert_eq.
Qed.

Lemma lookup_setdefault_Some m k k' v x :
  m !! k' = Some x → setdefault k v m !! k' = Some x.
Proof.
  intros Hx. destruct (decide (k = k')) as [->|Hne].
  - by rewrite lookup_setdefault_eq, Hx.
  - by rewrite lookup_setdefault_ne.
Qed.

(** Filling in the default the reader would use anyway changes no read. *)
Lemma dget_setdefault d m k k' : dget d (setdefault k d m) k' = dget d m k'.
Proof.
  unfold dget. destruct (decide (k = k')) as [->|Hne].
  - rewrite lookup_setdefault_eq. by destruct (m !! k').
  - by rewrite lookup_setdefault_ne.
Qed.
End dict_facts.

(** ** Penalty fallback chain (param_table.py) *)

(** The three links of the chain as [penalty_value] reads them. *)
Lemma penalty_value_unfold (lookup : gmap (string * string) Q) (z e : string) :
  penalty_value lookup z e =
    let l1 := dget 0 lookup (norm (Some z), norm (Some e)) in
    let l2 := dget 0 lookup (norm (Some z), "") in
    let l3 := dget 0 lookup ("", "") in
    if Qle_bool l1 0 then (if Qle_bool l2 0 then l3 else l2) else l1.
Proof.
  unfold penalty_value. simpl.
  destruct (Qle_bool (dget 0 lookup (norm (Some z), norm (Some e))) 0) eqn:E1; [done|].
  by rewrite E1.
Qed.

(** C8, as stated, fails: with a negative global default row and nothing
    else, no link of the chain is strictly positive, yet the result is
    that negative value and not 0.0. *)
Lemma penalty_value_negative_default :
  let lookup : gmap (string * string) Q := {[ ("", "") := -5 ]} in
  ¬ 0 < dget 0 lookup ("ZD2", "G") ∧
  ¬ 0 < dget 0 lookup ("ZD2", "") ∧
  ¬ 0 < dget 0 lookup ("", "") ∧
  penalty_value lookup "ZD2" "G" = -5 ∧
  ¬ penalty_value lookup "ZD2" "G" == 0.
Proof.
  vm_compute. repeat split; intros; discriminate.
Qed.

(** C8 (amended): [penalty_value] returns the first strictly positive of
    lookup(z,e) and lookup(z,''); when neither is strictly positive it
    returns lookup('','') as it stands, which is 0.0 when that row is
    missing.  Missing rows read as 0.0 and [z], [e] are stripped first. *)
Theorem penalty_value_chain (lookup : gmap (string * string) Q) (z e : string) :
  let l1 := dget 0 lookup (norm (Some z), norm (Some e)) in
  let l2 := dget 0 lookup (norm (Some z), "") in
  let l3 := dget 0 lookup ("", "") in
  (0 < l1 → penalty_value lookup z e = l1) ∧
  (¬ 0 < l1 → 0 < l2 → penalty_value lookup z e = l2) ∧
  (¬ 0 < l1 → ¬ 0 < l2 → penalty_value lookup z e = l3) ∧
  (¬ 0 < l1 → ¬ 0 < l2 → lookup !! ("", "") = None →
   penalty_value lookup z e = 0).
Proof.
  intros l1 l2 l3. rewrite penalty_value_unfold. fold l1 l2 l3. simpl.
  assert (H1 : ∀ x, 0 < x → Qle_bool x 0 = false).
  { intros x Hx. apply not_true_iff_false. rewrite Qle_bool_iff.
    by apply Qlt_not_le. }
  assert (H2 : ∀ x, ¬ 0 < x → Qle_bool x 0 = true).
  { intros x Hx. apply Qle_bool_iff. by apply Qnot_lt_le. }
  repeat split.
  - intros Hl1. by rewrite (H1 _ Hl1).
  - intros Hl1 Hl2. by rewrite (H2 _ Hl1), (H1 _ Hl2).
  - intros Hl1 Hl2. by rewrite (H2 _ Hl1), (H2 _ Hl2).
  - intros Hl1 Hl2 Hnone. rewrite (H2 _ Hl1), (H2 _ Hl2).
    unfold l3, dget. by rewrite Hnone.
Qed.

Lemma penalty_value_chain_witness :
  penalty_value {[ ("ZD2", "") := 7 ]} " ZD2 " "G" = 7.
Proof.
  pose proof (penalty_value_chain {[ ("ZD2", "") := 7 ]} " ZD2 " "G") as H.
  simpl in H. destruct H as (_ & H & _).
  apply H; vm_compute; [intros; discriminate | reflexivity].
Defined.

(** ** First-period and storage fixings, demand slack (model.py) *)

Lemma first_y_build (loaded : Loaded) (ov : Overrides) :
  first_y (build_base_model_with_cz loaded ov)
  = head (mY (build_base_model_with_cz loaded ov)).
Proof. done. Qed.

Lemma is_first_head (m : Model) (y0 : Z) :
  first_y m = Some y0 → is_first m y0 = true.
Proof. intros E. unfold is_first. rewrite E. by apply bool_decide_eq_true. Qed.

(** C6: in every assignment that satisfies the constraints of a built
    model, the arc stock of the first year equals the exogenous capacity,
    and the repurposing decision and the repurposed capacity of the
    first year are zero. *)
Theorem first_year_fixity (loaded : Loaded) (ov : Overrides) (v : Asg) (y0 : Z) :
  let m := build_base_model_with_cz loaded ov in
  feasible m v →
  head (mY m) = Some y0 →
  (∀ a e, a ∈ mA m → e ∈ mE m → K_A v a e y0 == cap_a m a e y0) ∧
  (∀ a e f, a ∈ mA m → e ∈ mE m → f ∈ mE m →
     B_AR v a e f y0 == 0 ∧ K_RA v a e f y0 == 0).
Proof.
  intros m Hfeas Hhead.
  assert (Hy0 : y0 ∈ mY m).
  { destruct (mY m) as [|y ys]; simplify_eq/=. left. }
  assert (Hfirst : is_first m y0 = true).
  { apply is_first_head. by rewrite <- Hhead. }
  split.
  - intros a e Ha He.
    pose proof (sat_k_a_init m v Hfeas a e y0 Ha He Hy0) as Hc.
    unfold k_a_init in Hc. by rewrite Hfirst in Hc.
  - intros a e f Ha He Hf. split.
    + pose proof (sat_b_ar_fix_first m v Hfeas a e f y0 Ha He Hf Hy0) as Hc.
      unfold b_ar_fix_first in Hc. by rewrite Hfirst in Hc.
    + pose proof (sat_k_ra_fix_first m v Hfeas a e f y0 Ha He Hf Hy0) as Hc.
      unfold k_ra_fix_first in Hc. by rewrite Hfirst in Hc.
Qed.

(** C9: gas storage at a node that is not H2-ready is pinned to its
    working-gas capacity in every year of the horizon. *)
Theorem gas_storage_pinned (loaded : Loaded) (ov : Overrides) (v : Asg)
    (n : string) (y : Z) :
  let m := build_base_model_with_cz loaded ov in
  feasible m v →
  "G" ∈ mE m → n ∈ mN m → y ∈ mY m →
  h2_ready m n "G" <= 0 →
  K_W v n "G" y == cap_ww m n "G" y.
Proof.
  intros m Hfeas HG Hn Hy Hh2.
  pose proof (sat_k_w_fix_h2_ready m v Hfeas n y Hn Hy) as Hc.
  unfold k_w_fix_h2_ready in Hc.
  rewrite bool_decide_eq_true_2 in Hc by done.
  apply Qle_bool_iff in Hh2. by rewrite Hh2 in Hc.
Qed.

Ltac mem_cases H :=
  vm_compute in H;
  repeat (apply elem_of_cons in H as [->|H]);
  try (by apply elem_of_nil in H).

Lemma demo_feasible :
  feasible (build_base_model_with_cz demo_loaded no_overrides) demo_asg.
Proof.
  split.
  - intros a e y Ha He Hy. mem_cases Ha; mem_cases He; mem_cases Hy; by vm_compute.
  - intros a e y Ha He Hy. mem_cases Ha; mem_cases He; mem_cases Hy; by vm_compute.
  - intros a e f y Ha He Hf Hy.
    mem_cases Ha; mem_cases He; mem_cases Hf; mem_cases Hy; by vm_compute.
  - intros a e f y Ha He Hf Hy.
    mem_cases Ha; mem_cases He; mem_cases Hf; mem_cases Hy; by vm_compute.
  - intros a e f y Ha He Hf Hy.
    mem_cases Ha; mem_cases He; mem_cases Hf; mem_cases Hy; by vm_compute.
  - intros a e f y Ha He Hf Hy.
    mem_cases Ha; mem_cases He; mem_cases Hf; mem_cases Hy; by vm_compute.
  - intros n y Hn Hy. mem_cases Hn; mem_cases Hy; by vm_compute.
  - intros n e y h Hn He Hy Hh.
    mem_cases Hn; mem_cases He; mem_cases Hy; mem_cases Hh; by vm_compute.
  - intros n e y h Hn He Hy Hh.
    mem_cases Hn; mem_cases He; mem_cases Hy; mem_cases Hh; by vm_compute.
  - intros n e y h Hn He Hy Hh.
    mem_cases Hn; mem_cases He; mem_cases Hy; mem_cases Hh; by vm_compute.
Defined.

Lemma first_year_fixity_witness :
  K_A demo_asg "A1" "G" 2025
  == cap_a (build_base_model_with_cz demo_loaded no_overrides) "A1" "G" 2025.
Proof.
  apply (first_year_fixity demo_loaded no_overrides demo_asg 2025%Z demo_feasible).
  - reflexivity.
  - by vm_compute; left.
  - by vm_compute; left.
Defined.

Lemma gas_storage_pinned_witness :
  K_W demo_asg "N1" "G" 2030
  == cap_ww (build_base_model_with_cz demo_loaded no_overrides) "N1" "G" 2030.
Proof.
  apply (gas_storage_pinned demo_loaded no_overrides demo_asg "N1" 2030%Z demo_feasible).
  - vm_compute. left.
  - vm_compute. left.
  - vm_compute. right. left.
  - by vm_compute.
Defined.

Lemma _clean_list_sorted (values : option (list (option string))) :
  ∃ l, _clean_list values = sorted_set l.
Proof.
  destruct values as [vs|]; simpl.
  - eauto.
  - by exists [].
Qed.

Lemma mZ_sorted (loaded : Loaded) (ov : Overrides) :
  ∃ l, mZ (build_base_model_with_cz loaded ov) = sorted_set l.
Proof.
  simpl. destruct (_clean_list_sorted (ov_z_values ov)) as [l Hl].
  destruct (_clean_list (ov_z_values ov)) eqn:E; simpl; eauto.
Qed.

(** C10: the slack of the node-level non-hydrogen demand constraint
    belongs to penalty class ZD2 when ZD2 is in Z, and otherwise to the
    alphabetically first element of Z; when Z is empty the demand
    balance and the slack fixing are skipped for every cell, and a
    positive-demand cell is left without any constraint tying the served
    quantity to demand. *)
Theorem demand_slack_class (loaded : Loaded) (ov : Overrides) :
  let m := build_base_model_with_cz loaded ov in
  ("ZD2" ∈ mZ m → z_dmd m = Some "ZD2") ∧
  ("ZD2" ∉ mZ m → ∀ z0 rest, mZ m = z0 :: rest →
     z_dmd m = Some z0 ∧ ∀ z, z ∈ mZ m → String.le z0 z) ∧
  (∀ z n e y h, z_dmd m = Some z → not_h m e = 1%Z → 0 < dmd m n e y h →
     dmd_n3 m n e y h
     = Some (λ v, Q_S v n e y h == dmd m n e y h - ZDS v z n e y h)) ∧
  (mZ m = [] → ∀ n e y h,
     dmd_n3 m n e y h = None ∧ zd2_zero_nonh m n e y h = None ∧
     (not_h m e = 1%Z → 0 < dmd m n e y h → qs_zero_nonh m n e y h = None)).
Proof.
  intros m.
  assert (Hz : z_dmd m = if bool_decide ("ZD2" ∈ mZ m) then Some "ZD2"
                         else head (mZ m)) by done.
  repeat split.
  - intros Hin. by rewrite Hz, bool_decide_eq_true_2.
  - rewrite Hz, bool_decide_eq_false_2 by done. by rewrite H0.
  - destruct (mZ_sorted loaded ov) as [l Hl]. fold m in Hl.
    intros z Hin. rewrite Hl in H0, Hin. by eapply sorted_set_head_min.
  - intros z n e y h Hzd Hnh Hpos. unfold dmd_n3. rewrite Hzd.
    rewrite bool_decide_eq_false_2 by (by intros ?).
    assert (Qle_bool (dmd m n e y h) 0 = false) as ->; [|done].
    apply not_true_iff_false. rewrite Qle_bool_iff. by apply Qlt_not_le.
  - unfold dmd_n3. rewrite Hz, H.
    by rewrite bool_decide_eq_false_2 by apply not_elem_of_nil.
  - unfold zd2_zero_nonh. rewrite Hz, H.
    by rewrite bool_decide_eq_false_2 by apply not_elem_of_nil.
  - intros Hnh Hpos. unfold qs_zero_nonh.
    rewrite bool_decide_eq_false_2 by (by intros ?).
    apply Qgtb_true in Hpos. by rewrite Hpos.
Qed.

Lemma demand_slack_class_witness :
  dmd_n3 (build_base_model_with_cz demo_loaded no_overrides) "N1" "G" 2025 1
  = Some (λ v, Q_S v "N1" "G" 2025 1
               == dmd (build_base_model_with_cz demo_loaded no_overrides)
                      "N1" "G" 2025 1
                  - ZDS v "ZD2" "N1" "G" 2025 1).
Proof.
  pose proof (demand_slack_class demo_loaded no_overrides) as H.
  simpl in H. destruct H as (Hz & _ & H & _).
  apply (H "ZD2" "N1" "G" 2025%Z 1%Z).
  - apply Hz. vm_compute. left.
  - reflexivity.
  - reflexivity.
Defined.

(** ** Production bounds (data_loading.py) *)

Lemma clip_lb_lookup (cap_p lb_p : gmap Key4 Q) (k : Key4) :
  clip_lb cap_p lb_p !! k
  = match cap_p !! k with
    | Some c => Some (py_min (dget 0 lb_p k) c)
    | None => lb_p !! k
    end.
Proof.
  unfold clip_lb. revert k.
  apply (map_fold_weak_ind (λ r (m : gmap Key4 Q), ∀ k,
    r !! k = match m !! k with
             | Some c => Some (py_min (dget 0 lb_p k) c)
             | None => lb_p !! k
             end)).
  - intros k. by rewrite lookup_empty.
  - intros i x m r Hi IH k. destruct (decide (i = k)) as [->|Hne].
    + rewrite !lookup_insert_eq. unfold dget. by rewrite IH, Hi.
    + rewrite !lookup_insert_ne by done. apply IH.
Qed.

Lemma prod_row_same_cells (hc : list Z) (acc : ProdAcc) (row : WRow) :
  same_cells acc → same_cells (prod_row hc acc row).
Proof.
  intros Hacc. unfold prod_row.
  destruct (w_y row) as [y|]; [|done].
  case_bool_decide; [done|].
  generalize (hour_index hc). intros l.
  match goal with |- same_cells (foldl _ ?a l) => assert (Ha : same_cells a) by done;
    revert Ha; generalize a end.
  induction l as [|[i h] l IH]; intros a Ha; [done|].
  simpl. apply IH. intros k. simpl.
  destruct (decide ((strip (py_str (w_n row)), strip (py_str (w_f row)), y, h) = k))
    as [->|Hne].
  - by rewrite lookup_insert_eq.
  - rewrite !lookup_insert_ne by done. apply Ha.
Qed.

Lemma prod_rows_same_cells (hc : list Z) (rows : list WRow) (acc : ProdAcc) :
  same_cells acc → same_cells (foldl (prod_row hc) acc rows).
Proof.
  revert acc. induction rows as [|r rows IH]; intros acc Hacc; [done|].
  simpl. apply IH. by apply prod_row_same_cells.
Qed.

(** The invariant on the extractor's own output. *)
Lemma extract_lb_le_cap (df_p : Wide) (k : Key4) :
  let '(cap_p, _, lb_p, _, _, _) := _extract_production_data df_p in
  dget 0 lb_p k <= dget 0 cap_p k.
Proof.
  unfold _extract_production_data.
  destruct (w_rows df_p) as [|r rows] eqn:Erows.
  { unfold dget. rewrite !lookup_empty. apply Qle_refl. }
  rewrite <- Erows. clear Erows.
  pose proof (prod_rows_same_cells (hour_cols df_p) (w_rows df_p)
                (mkProdAcc ∅ ∅ ∅ [] [] [])) as Hsame.
  specialize (Hsame ltac:(done)).
  set (acc := foldl _ _ _) in *.
  unfold dget at 1. rewrite clip_lb_lookup.
  unfold dget. destruct (pa_cap_p acc !! k) as [c|] eqn:Ec; simpl.
  - apply py_min_le_r.
  - rewrite (Hsame k Ec). apply Qle_refl.
Qed.

(** What [load_inputs] returns for the production maps. *)
Lemma load_inputs_production (inp : Inputs) (loaded : Loaded) :
  load_inputs inp = Ok loaded →
  let '(cap_p, c_p, lb_p, _, _, _) := _extract_production_data (dat_production inp) in
  ld_cap_p loaded = cap_p ∧ ld_lb_p loaded = lb_p ∧
  ld_c_p loaded = carry_forward_final (ld_y_values loaded) c_p.
Proof.
  unfold load_inputs.
  destruct (_extract_time_domains _) as [[y_values h_values] scaleup].
  destruct (_extract_consumption_data _) as [[[dmd y_dmd] h_dmd] f_dmd].
  destruct (_extract_production_data _) as [[[[[cap_p c_p] lb_p] y_prod] h_prod] f_prod].
  destruct (regas_stage _ _ _) as [[c_lr ub_r] n_values].
  destruct (_extract_arc_data _ _ _ _ _ _) as [[|arcs]|err]; try discriminate.
  destruct (_extract_storage_data _ _ _ _ _ _) as [[[cap_ww h2] stor_nodes] stor_fuels].
  intros [= <-]. done.
Qed.

(** C5: for every production cell, the lower bound handed to the model
    does not exceed the capacity; cells absent from both maps read 0 on
    both sides. *)
Theorem lb_p_le_cap_p (inp : Inputs) (loaded : Loaded) (ov : Overrides)
    (n e : string) (y h : Z) :
  load_inputs inp = Ok loaded →
  let m := build_base_model_with_cz loaded ov in
  lb_p m n e y h <= cap_p m n e y h.
Proof.
  intros Hload. simpl.
  pose proof (load_inputs_production inp loaded Hload) as Hp.
  pose proof (extract_lb_le_cap (dat_production inp) (n, e, y, h)) as Hle.
  destruct (_extract_production_data _) as [[[[[cap_p c_p] lb_p] y_prod] h_prod] f_prod].
  destruct Hp as (-> & -> & _). done.
Qed.

Lemma production_with_timeseries_loads :
  is_ok (load_inputs production_with_timeseries) = true.
Proof. vm_compute. reflexivity. Qed.

Lemma lb_p_le_cap_p_witness :
  match load_inputs production_with_timeseries with
  | Ok loaded =>
      lb_p (build_base_model_with_cz loaded no_overrides) "N1" "G" 2030 1
      <= cap_p (build_base_model_with_cz loaded no_overrides) "N1" "G" 2030 1
  | Raise _ => False
  end.
Proof.
  pose proof production_with_timeseries_loads as Hok.
  destruct (load_inputs production_with_timeseries) as [loaded|err] eqn:E.
  - exact (lb_p_le_cap_p production_with_timeseries loaded no_overrides
             "N1" "G" 2030%Z 1%Z E).
  - discriminate Hok.
Defined.

(** ** Year-2030 carry-forward of the production cost *)

Lemma carry_loop_hit (later : list Z) (n f : string) (v : Q) (c : gmap Key3 Q) (y : Z) :
  y ∈ later → foldl (λ c y, <[(n, f, y) := v]> c) c later !! (n, f, y) = Some v.
Proof.
  revert c. induction later as [|y' later IH]; intros c Hy; [by apply elem_of_nil in Hy|].
  simpl. destruct (decide (y ∈ later)) as [Hin|Hnin]; [by apply IH|].
  apply elem_of_cons in Hy as [->|Hy]; [|done].
  clear IH. revert c. induction later as [|y2 later IH]; intros c; simpl.
  - by rewrite lookup_insert_eq.
  - apply not_elem_of_cons in Hnin as [Hne Hnin].
    rewrite insert_insert_ne by congruence. by apply IH.
Qed.

Lemma carry_loop_miss (later : list Z) (n f : string) (v : Q) (c : gmap Key3 Q)
    (k : Key3) :
  (∀ y, y ∈ later → k ≠ (n, f, y)) →
  foldl (λ c y, <[(n, f, y) := v]> c) c later !! k = c !! k.
Proof.
  revert c. induction later as [|y' later IH]; intros c Hk; [done|].
  simpl. rewrite IH by (intros y Hy; apply Hk; by right).
  rewrite lookup_insert_ne; [done|]. intros Heq. by eapply Hk; [left|].
Qed.

(** Cells of another node or fuel are not touched. *)
Lemma carry_ref_other (later : list Z) (n f n' f' : string) (y : Z)
    (c : gmap Key3 Q) :
  (n', f') ≠ (n, f) → carry_ref later n' f' c !! (n, f, y) = c !! (n, f, y).
Proof.
  intros Hne. unfold carry_ref. destruct (c !! (n', f', 2030%Z)); [|done].
  apply carry_loop_miss. intros y' _ [=]. congruence.
Qed.

Lemma carry_ref_same (later : list Z) (n f : string) (v : Q) (c : gmap Key3 Q) :
  c !! (n, f, 2030%Z) = Some v →
  carry_ref later n f c !! (n, f, 2030%Z) = Some v ∧
  ∀ y, y ∈ later → carry_ref later n f c !! (n, f, y) = Some v.
Proof.
  intros Href. unfold carry_ref. rewrite Href. split.
  - destruct (decide (2030%Z ∈ later)) as [Hin|Hnin]; [by apply carry_loop_hit|].
    rewrite carry_loop_miss; [done|]. intros y Hy [=]. congruence.
  - intros y Hy. by apply carry_loop_hit.
Qed.

(** The pass of [load_inputs] over the final year domain: with at least
    three years, 2030 among them, every year after the second takes the
    2030 value of each configured node and fuel. *)
Lemma carry_forward_final_spec (ys : list Z) (c_p : gmap Key3 Q)
    (n f : string) (v : Q) :
  (3 ≤ length ys)%nat → 2030%Z ∈ ys →
  c_p !! (n, f, 2030%Z) = Some v →
  carry_forward_final ys c_p !! (n, f, 2030%Z) = Some v ∧
  ∀ y, y ∈ drop 2 ys → carry_forward_final ys c_p !! (n, f, y) = Some v.
Proof.
  intros Hlen H2030 Href. unfold carry_forward_final.
  rewrite !bool_decide_eq_true_2 by done. simpl.
  set (later := drop 2 ys).
  set (I := λ c : gmap Key3 Q, c !! (n, f, 2030%Z) = Some v).
  set (P := λ c : gmap Key3 Q, I c ∧ ∀ y, y ∈ later → c !! (n, f, y) = Some v).
  assert (Hkey : (n, f, 2030%Z) ∈ keys3 c_p).
  { unfold keys3. apply list_elem_of_fmap. exists (n, f, 2030%Z, v).
    split; [done|]. by apply elem_of_map_to_list. }
  assert (HstepI : ∀ n' f' c, I c → I (carry_ref later n' f' c)).
  { intros n' f' c Hc. unfold I. destruct (decide ((n', f') = (n, f))) as [[= -> ->]|Hne].
    - by destruct (carry_ref_same later n f v c Hc).
    - by rewrite carry_ref_other. }
  assert (HstepP : ∀ n' f' c, P c → P (carry_ref later n' f' c)).
  { intros n' f' c [Hc Hl]. destruct (decide ((n', f') = (n, f))) as [[= -> ->]|Hne].
    - split; by destruct (carry_ref_same later n f v c Hc).
    - split; [by apply HstepI|]. intros y Hy. rewrite carry_ref_other by done. auto. }
  change (P (for_each (sorted_set (map (λ k : Key3, k.1.1) (keys3 c_p)))
    (λ n0, for_each (sorted_set (map (λ k : Key3, k.1.2) (keys3 c_p)))
       (λ f0, carry_ref later n0 f0)) c_p)).
  apply (for_each_hit I P) with (x0 := n).
  - apply elem_of_sorted_set, elem_of_map. by exists (n, f, 2030%Z).
  - done.
  - intros n' c _ Hc. apply for_each_inv; [done|]. intros f' c' _. apply HstepI.
  - intros c Hc. apply (for_each_hit I P) with (x0 := f).
    + apply elem_of_sorted_set, elem_of_map. by exists (n, f, 2030%Z).
    + done.
    + intros f' c' _. apply HstepI.
    + intros c' Hc'. split; by destruct (carry_ref_same later n f v c' Hc').
    + intros f' c' _. apply HstepP.
  - intros n' c _ Hc. apply for_each_inv; [done|]. intros f' c' _. apply HstepP.
Qed.

Lemma carry_forward_load_inputs (inp : Inputs) (loaded : Loaded)
    (n f : string) (v : Q) :
  load_inputs inp = Ok loaded →
  (3 ≤ length (ld_y_values loaded))%nat → 2030%Z ∈ ld_y_values loaded →
  (let '(_, c_p, _, _, _, _) := _extract_production_data (dat_production inp) in
   c_p !! (n, f, 2030%Z) = Some v) →
  ld_c_p loaded !! (n, f, 2030%Z) = Some v ∧
  ∀ y, y ∈ drop 2 (ld_y_values loaded) → ld_c_p loaded !! (n, f, y) = Some v.
Proof.
  intros Hload Hlen H2030 Href.
  pose proof (load_inputs_production inp loaded Hload) as Hp.
  destruct (_extract_production_data _) as [[[[[cap_p c_p] lb_p] y_prod] h_prod] f_prod].
  destruct Hp as (_ & _ & ->). by apply carry_forward_final_spec.
Qed.

(** When timeseries.csv lists the five years, 2035 and 2040 take the
    2030 cost. *)
Lemma carry_forward_with_timeseries :
  match load_inputs production_with_timeseries with
  | Ok loaded =>
      ld_y_values loaded = [2025; 2028; 2030; 2035; 2040]%Z ∧
      ld_c_p loaded !! ("N1", "G", 2030%Z) = Some 3 ∧
      ld_c_p loaded !! ("N1", "G", 2035%Z) = Some 3 ∧
      ld_c_p loaded !! ("N1", "G", 2040%Z) = Some 3
  | Raise _ => False
  end.
Proof. by vm_compute. Qed.

(** C3 on the code: with production rows for 2025/2028/2030/2035/2040 as
    the only source of years, the extractor reports no production year,
    the final year domain is empty, and the costs of 2035 and 2040 keep
    their own values instead of the 2030 one. *)
Theorem carry_forward_production_only :
  (let '(_, c_p, _, y_prod, _, _) := _extract_production_data five_year_production in
   y_prod = [] ∧
   c_p !! ("N1", "G", 2030%Z) = Some 3 ∧
   c_p !! ("N1", "G", 2035%Z) = Some 4 ∧
   c_p !! ("N1", "G", 2040%Z) = Some 5) ∧
  match load_inputs production_only with
  | Ok loaded =>
      ld_y_values loaded = [] ∧
      ld_c_p loaded !! ("N1", "G", 2030%Z) = Some 3 ∧
      ld_c_p loaded !! ("N1", "G", 2035%Z) = Some 4 ∧
      ld_c_p loaded !! ("N1", "G", 2040%Z) = Some 5
  | Raise _ => False
  end.
Proof. by vm_compute. Qed.

(** ** Arc extraction: same-fuel repurposing and required scalars *)

Lemma self_zero_lookup (a_values all_fuels : list string) (y_values : list Z)
    (st : ArcSt) (a e : string) (y : Z) :
  a ∈ a_values → e ∈ all_fuels → y ∈ y_values →
  st_c_ar (self_zero a_values all_fuels y_values st) !! (a, e, e, y) = Some 0 ∧
  st_f_ar (self_zero a_values all_fuels y_values st) !! (a, e, e, y) = Some 0.
Proof.
  intros Ha He Hy. unfold self_zero.
  set (P := λ s : ArcSt, st_c_ar s !! (a, e, e, y) = Some 0
                         ∧ st_f_ar s !! (a, e, e, y) = Some 0).
  assert (Hkeep : ∀ a' e' y' s, P s →
    P (upd_f_ar (insert (a', e', e', y') 0) (upd_c_ar (insert (a', e', e', y') 0) s))).
  { intros a' e' y' s [Hc Hf]. unfold P. simpl. rewrite !lookup_insert.
    by repeat case_decide. }
  assert (Hhit : ∀ s,
    P (upd_f_ar (insert (a, e, e, y) 0) (upd_c_ar (insert (a, e, e, y) 0) s))).
  { intros s. unfold P. simpl. by rewrite !lookup_insert_eq. }
  change (P (for_each a_values (λ a0, for_each all_fuels (λ e0, for_each y_values
    (λ y0 s, upd_f_ar (insert (a0, e0, e0, y0) 0)
               (upd_c_ar (insert (a0, e0, e0, y0) 0) s)))) st)).
  apply (for_each_hit (λ _, True) P) with (x0 := a); try done.
  - intros s _. apply (for_each_hit (λ _, True) P) with (x0 := e); try done.
    + intros s' _. apply (for_each_hit (λ _, True) P) with (x0 := y); try done.
      intros y' s'' _. apply Hkeep.
    + intros e' s' _ Hs'. apply for_each_inv; [done|]. intros y' s'' _. apply Hkeep.
  - intros a' s _ Hs. apply for_each_inv; [done|]. intros e' s' _ Hs'.
    apply for_each_inv; [done|]. intros y' s'' _. apply Hkeep.
Qed.

(** What a full return of [_extract_arc_data] contains. *)
Lemma _extract_arc_data_Ret16 (df_a : list ARow) (dat_o : list ORow)
    (y_values : list Z) (e_values : list string) (vola2 : gmap string Q)
    (loss_max : Q) (out : ArcOut) :
  _extract_arc_data df_a dat_o y_values e_values vola2 loss_max = Ok (Ret16 out) →
  ∃ opp0,
    ao_st out
    = arc_finish (ao_a_values out) (all_fuels_of e_values (ao_arc_fuels out))
        y_values opp0
        (arc_before_propagation df_a dat_o y_values e_values vola2 loss_max) ∧
    ∃ opp_map0, (ao_opp out, ao_opp_map out)
                = opp_defaults (ao_a_values out) (opp0, opp_map0).
Proof.
  unfold _extract_arc_data. destruct df_a as [|r df_a]; [discriminate|].
  destruct (Qle_bool _ 0); [discriminate|].
  destruct (Qle_bool _ 0); [discriminate|].
  destruct (opp_defaults _ _) as [opp opp_map] eqn:Eopp.
  intros [= <-]. simpl. eexists. split; [done|]. eexists. by rewrite Eopp.
Qed.

Lemma extract_self_zero (df_a : list ARow) (dat_o : list ORow)
    (y_values : list Z) (e_values : list string) (vola2 : gmap string Q)
    (loss_max : Q) (out : ArcOut) (a e : string) (y : Z) :
  _extract_arc_data df_a dat_o y_values e_values vola2 loss_max = Ok (Ret16 out) →
  a ∈ ao_a_values out → e ∈ all_fuels_of e_values (ao_arc_fuels out) →
  y ∈ y_values →
  st_c_ar (ao_st out) !! (a, e, e, y) = Some 0 ∧
  st_f_ar (ao_st out) !! (a, e, e, y) = Some 0.
Proof.
  intros Hex Ha He Hy.
  destruct (_extract_arc_data_Ret16 _ _ _ _ _ _ _ Hex) as (opp0 & -> & _).
  unfold arc_finish. by apply self_zero_lookup.
Qed.

(** What [load_inputs] returns for the arc domains and maps. *)
Lemma load_inputs_arcs (inp : Inputs) (loaded : Loaded) :
  load_inputs inp = Ok loaded →
  ∃ e_values vola2 loss_max out,
    _extract_arc_data (dat_arcs inp) (dat_o inp) (ld_y_values loaded) e_values
                      vola2 loss_max = Ok (Ret16 out) ∧
    ld_a_values loaded = ao_a_values out ∧
    ld_e_values loaded = all_fuels_of e_values (ao_arc_fuels out) ∧
    ld_opp loaded = ao_opp out ∧
    ld_arc loaded = ao_st out.
Proof.
  unfold load_inputs.
  destruct (_extract_time_domains _) as [[y_values h_values] scaleup].
  destruct (_extract_consumption_data _) as [[[dmd y_dmd] h_dmd] f_dmd].
  destruct (_extract_production_data _) as [[[[[cap_p c_p] lb_p] y_prod] h_prod] f_prod].
  destruct (regas_stage _ _ _) as [[c_lr ub_r] n_values].
  destruct (_extract_arc_data _ _ _ _ _ _) as [[|arcs]|err] eqn:Earc; try discriminate.
  destruct (_extract_storage_data _ _ _ _ _ _) as [[[cap_ww h2] stor_nodes] stor_fuels].
  intros [= <-]. simpl. eauto 10.
Qed.

(** C2: after loading, the variable and the fixed cost of repurposing a
    fuel to itself are 0 for every arc, fuel and year of the final domains. *)
Theorem self_repurposing_zero (inp : Inputs) (loaded : Loaded)
    (a e : string) (y : Z) :
  load_inputs inp = Ok loaded →
  a ∈ ld_a_values loaded → e ∈ ld_e_values loaded → y ∈ ld_y_values loaded →
  st_c_ar (ld_arc loaded) !! (a, e, e, y) = Some 0 ∧
  st_f_ar (ld_arc loaded) !! (a, e, e, y) = Some 0.
Proof.
  intros Hload Ha He Hy.
  destruct (load_inputs_arcs inp loaded Hload)
    as (e_values & vola2 & lm & out & Hex & Ea & Ee & _ & Est).
  rewrite Est. rewrite Ea in Ha. rewrite Ee in He.
  by eapply extract_self_zero.
Qed.

Lemma ok_unwrap {A : Type} (d : A) (r : res A) :
  is_ok r = true → r = Ok (unwrap d r).
Proof. by destruct r. Qed.

Lemma two_way_pipe_loads : is_ok (load_inputs two_way_pipe) = true.
Proof. vm_compute. reflexivity. Qed.

Lemma self_repurposing_zero_witness :
  st_c_ar (ld_arc (unwrap demo_loaded (load_inputs two_way_pipe)))
    !! ("A", "G", "G", 2030%Z) = Some 0 ∧
  st_f_ar (ld_arc (unwrap demo_loaded (load_inputs two_way_pipe)))
    !! ("A", "G", "G", 2030%Z) = Some 0.
Proof.
  apply (self_repurposing_zero two_way_pipe
           (unwrap demo_loaded (load_inputs two_way_pipe)) "A" "G" 2030%Z).
  - apply ok_unwrap, two_way_pipe_loads.
  - vm_compute. left.
  - vm_compute. left.
  - vm_compute. right. left.
Defined.





(** ** Regasification defaults and the 2025 override *)

Lemma lookup_setdefault {K : Type} `{Countable K} {V : Type}
    (m : gmap K V) (k k' : K) (v : V) :
  setdefault k v m !! k'
  = if decide (k = k') then Some (default v (m !! k')) else m !! k'.
Proof.
  case_decide as Hk.
  - subst. apply lookup_setdefault_eq.
  - by apply lookup_setdefault_ne.
Qed.

Lemma regas_year_in_range (r : RRow) :
  regas_year_ok r → regas_year r = py_trunc (num_or 2025 (r_y r)).
Proof. apply astype_int_in_range. Qed.

Lemma regas_row_hit (acc : gmap (string * string) Q * gmap (string * string) Q)
    (r : RRow) (n e : string) :
  regas_hits n e r →
  (regas_row acc r).1 !! (n, e) = Some (regas_cost e r) ∧
  (regas_row acc r).2 !! (n, e) = Some (regas_ub r).
Proof.
  intros (Hn & He & Hy & Hnn & Hen).
  assert (Hyear : regas_year r = 2025%Z).
  { rewrite regas_year_in_range; [done|].
    unfold regas_year_ok, in_int64. rewrite Hy. lia. }
  unfold regas_row, regas_work. rewrite Hn, He, Hyear.
  rewrite bool_decide_eq_false_2 by (intros [?|?]; done).
  rewrite bool_decide_eq_false_2 by (by intros ?).
  simpl. by rewrite !lookup_insert_eq.
Qed.

Lemma regas_row_miss (acc : gmap (string * string) Q * gmap (string * string) Q)
    (r : RRow) (n e : string) :
  regas_year_ok r → ¬ regas_hits n e r →
  (regas_row acc r).1 !! (n, e) = acc.1 !! (n, e) ∧
  (regas_row acc r).2 !! (n, e) = acc.2 !! (n, e).
Proof.
  intros Hok Hmiss. unfold regas_row, regas_work.
  rewrite (regas_year_in_range r Hok).
  case_bool_decide as Hblank; [done|].
  case_bool_decide as Hyear; [done|].
  assert (Hy : py_trunc (num_or 2025 (r_y r)) = 2025%Z).
  { by destruct (decide (py_trunc (num_or 2025 (r_y r)) = 2025%Z)). }
  simpl. rewrite !lookup_insert_ne; [done| |].
  - intros [= Hn He]. apply Hmiss. unfold regas_hits.
    split_and!; try done; intros ->; apply Hblank; [left|right]; done.
  - intros [= Hn He]. apply Hmiss. unfold regas_hits.
    split_and!; try done; intros ->; apply Hblank; [left|right]; done.
Qed.

Lemma regas_rows_miss (df_r : list RRow) (n e : string)
    (acc : gmap (string * string) Q * gmap (string * string) Q) :
  Forall regas_year_ok df_r → Forall (λ r, ¬ regas_hits n e r) df_r →
  (foldl regas_row acc df_r).1 !! (n, e) = acc.1 !! (n, e) ∧
  (foldl regas_row acc df_r).2 !! (n, e) = acc.2 !! (n, e).
Proof.
  revert acc. induction df_r as [|r df_r IH]; intros acc Hok Hall; [done|].
  apply Forall_cons in Hok as [Hr' Hok].
  apply Forall_cons in Hall as [Hr Hall]. simpl.
  destruct (IH (regas_row acc r) Hok Hall) as [-> ->]. by apply regas_row_miss.
Qed.

(** The last year-2025 row of a cell decides its values. *)
Lemma regas_rows_last_hit (l1 l2 : list RRow) (r : RRow) (n e : string)
    (acc : gmap (string * string) Q * gmap (string * string) Q) :
  regas_hits n e r → Forall regas_year_ok l2 →
  Forall (λ r, ¬ regas_hits n e r) l2 →
  (foldl regas_row acc (l1 ++ r :: l2)).1 !! (n, e) = Some (regas_cost e r) ∧
  (foldl regas_row acc (l1 ++ r :: l2)).2 !! (n, e) = Some (regas_ub r).
Proof.
  intros Hr Hok Hl2. rewrite foldl_app. simpl.
  destruct (regas_rows_miss l2 n e (regas_row (foldl regas_row acc l1) r) Hok Hl2)
    as [-> ->].
  by apply regas_row_hit.
Qed.

(** A row of another year changes nothing. *)
Lemma regas_row_other_year
    (acc : gmap (string * string) Q * gmap (string * string) Q) (r : RRow) :
  regas_year r ≠ 2025%Z → regas_row acc r = acc.
Proof.
  intros Hy. unfold regas_row, regas_work.
  case_bool_decide; [done|]. by rewrite bool_decide_eq_true_2.
Qed.

Lemma regas_rows_only_2025 (df_r : list RRow)
    (acc : gmap (string * string) Q * gmap (string * string) Q) :
  foldl regas_row acc df_r
  = foldl regas_row acc (filter (λ r, regas_year r = 2025%Z) df_r).
Proof.
  revert acc. induction df_r as [|r df_r IH]; intros acc; [done|].
  rewrite filter_cons. case_decide as Hy; simpl.
  - apply IH.
  - rewrite regas_row_other_year by done. apply IH.
Qed.

(** The default rows: a cell of the domain holds its default. *)
Lemma regas_defaults_lookup (n_values e_values : list string) (n e : string) :
  n ∈ n_values → e ∈ e_values →
  (regas_defaults n_values e_values).1 !! (n, e) = Some (regas_default e) ∧
  (regas_defaults n_values e_values).2 !! (n, e) = Some 0.
Proof.
  intros Hn He. unfold regas_defaults.
  set (P := λ acc : gmap (string * string) Q * gmap (string * string) Q,
         acc.1 !! (n, e) = Some (regas_default e) ∧ acc.2 !! (n, e) = Some 0).
  assert (Hkeep : ∀ n' e' acc, P acc →
    P (<[(n', e') := regas_default e']> acc.1, <[(n', e') := 0]> acc.2)).
  { intros n' e' acc [H1 H2]. unfold P. simpl. rewrite !lookup_insert.
    case_decide as Hk; [by simplify_eq|done]. }
  apply (for_each_hit (λ _, True) P) with (x0 := n); try done.
  - intros acc _. apply (for_each_hit (λ _, True) P) with (x0 := e); try done.
    + intros acc' _. unfold P. simpl. by rewrite !lookup_insert_eq.
    + intros e' acc' _. apply Hkeep.
  - intros n' acc _ Hacc. apply for_each_inv; [done|]. intros e' acc' _. apply Hkeep.
Qed.

(** Outside the domain a cell holds nothing or, again, its default. *)
Lemma regas_defaults_any (n_values e_values : list string) (n e : string) :
  default (regas_default e) ((regas_defaults n_values e_values).1 !! (n, e))
  = regas_default e ∧
  default 0 ((regas_defaults n_values e_values).2 !! (n, e)) = 0.
Proof.
  unfold regas_defaults.
  set (P := λ acc : gmap (string * string) Q * gmap (string * string) Q,
         default (regas_default e) (acc.1 !! (n, e)) = regas_default e
         ∧ default 0 (acc.2 !! (n, e)) = 0).
  apply (for_each_inv P); [done|].
  intros n' acc _ Hacc. apply for_each_inv; [done|].
  intros e' acc' _ [H1 H2]. unfold P. simpl. rewrite !lookup_insert.
  case_decide as Hk; [by simplify_eq|done].
Qed.

Lemma regas_backfill_lookup (n_values e_values : list string) (n e : string)
    (cu : gmap (string * string) Q * gmap (string * string) Q) :
  n ∈ n_values → e ∈ e_values →
  (regas_backfill n_values e_values cu).1 !! (n, e)
  = Some (default (regas_default e) (cu.1 !! (n, e))) ∧
  (regas_backfill n_values e_values cu).2 !! (n, e)
  = Some (default 0 (cu.2 !! (n, e))).
Proof.
  intros Hn He. unfold regas_backfill.
  set (I := λ acc : gmap (string * string) Q * gmap (string * string) Q,
         default (regas_default e) (acc.1 !! (n, e))
         = default (regas_default e) (cu.1 !! (n, e))
         ∧ default 0 (acc.2 !! (n, e)) = default 0 (cu.2 !! (n, e))).
  set (P := λ acc : gmap (string * string) Q * gmap (string * string) Q,
         acc.1 !! (n, e) = Some (default (regas_default e) (cu.1 !! (n, e)))
         ∧ acc.2 !! (n, e) = Some (default 0 (cu.2 !! (n, e)))).
  assert (HI : ∀ n' e' acc, I acc →
    I (setdefault (n', e') (regas_default e') acc.1, setdefault (n', e') 0 acc.2)).
  { intros n' e' acc [H1 H2]. unfold I. simpl. rewrite !lookup_setdefault.
    case_decide as Hk; [|done]. simplify_eq. simpl. by rewrite H1, H2. }
  assert (HP : ∀ n' e' acc, P acc →
    P (setdefault (n', e') (regas_default e') acc.1, setdefault (n', e') 0 acc.2)).
  { intros n' e' acc [H1 H2]. unfold P. simpl. rewrite !lookup_setdefault.
    case_decide as Hk; [|done]. simplify_eq. by rewrite H1, H2. }
  apply (for_each_hit I P) with (x0 := n); try done.
  - intros n' acc _ Hacc. apply for_each_inv; [done|]. intros e' acc' _. apply HI.
  - intros acc Hacc. apply (for_each_hit I P) with (x0 := e); try done.
    + intros e' acc' _. apply HI.
    + intros acc' [H1 H2]. unfold P. simpl. rewrite !lookup_setdefault_eq.
      by rewrite <- H1, <- H2.
    + intros e' acc' _. apply HP.
  - intros n' acc _ Hacc. apply for_each_inv; [done|]. intros e' acc' _. apply HP.
Qed.

Lemma _extract_regas_data_maps (df_r : list RRow) (n_values e_values : list string) :
  ((_extract_regas_data df_r n_values e_values).1.1.1,
   (_extract_regas_data df_r n_values e_values).1.1.2)
  = foldl regas_row (regas_defaults n_values e_values) df_r.
Proof.
  unfold _extract_regas_data.
  destruct (regas_defaults n_values e_values) as [c u].
  destruct df_r as [|r df_r]; [done|].
  by destruct (foldl regas_row (c, u) (r :: df_r)).
Qed.

Lemma regas_stage_maps (df_r : list RRow) (n_values e_values : list string) :
  ((regas_stage df_r n_values e_values).1.1, (regas_stage df_r n_values e_values).1.2)
  = regas_backfill (regas_stage df_r n_values e_values).2 e_values
      (foldl regas_row (regas_defaults n_values e_values) df_r).
Proof.
  rewrite <- _extract_regas_data_maps. unfold regas_stage.
  destruct (_extract_regas_data df_r n_values e_values) as [[[c u] rn] rf]. simpl.
  destruct (regas_backfill (sorted_set (n_values ++ rn)) e_values (c, u)) eqn:E.
  simpl. by rewrite E.
Qed.

Lemma regas_stage_nodes (df_r : list RRow) (n_values e_values : list string)
    (n : string) :
  n ∈ n_values → n ∈ (regas_stage df_r n_values e_values).2.
Proof.
  intros Hn. unfold regas_stage.
  destruct (_extract_regas_data df_r n_values e_values) as [[[c u] rn] rf].
  destruct (regas_backfill _ e_values (c, u)). simpl.
  apply elem_of_sorted_set. set_solver.
Qed.

(** C4 on the code: the default of a cell depends on when its node and
    fuel entered the domains.  In [arc_only_node] the final domains are
    N = {N1, N2} and E = {G, GAS}, there is no regasification row, and
    GAS canonicalises to gas; N1 was known when the default rows were
    written, N2 came later with arcs.csv.  The cell (N1, GAS) holds the
    default 1 of the loader, the cell (N2, GAS) has no entry and reads
    the fallback of the model compiler, 9999, which tests the label
    itself against G.  In [regas_raw_label] the year-2025 row written
    with the label GAS is filed under (N1, G); the cell (N1, GAS) keeps
    the defaults.  The bounds are 0 wherever no row is filed, and on the
    minimal scenario the extractor gives c_lr(N1,G) = 1,
    c_lr(N1,H) = 9999 and ub_r(N1,.) = 0. *)
Theorem regas_default_by_raw_label :
  (let loaded := unwrap demo_loaded (load_inputs arc_only_node) in
   let m := build_base_model_with_cz loaded no_overrides in
   is_ok (load_inputs arc_only_node) = true ∧
   dat_regas arc_only_node = [] ∧
   mN m = ["N1"; "N2"] ∧ mE m = ["G"; "GAS"] ∧
   _normalize_fuel_label (Some "GAS") = "G" ∧
   ld_c_lr loaded !! ("N1", "GAS") = Some 1 ∧
   ld_c_lr loaded !! ("N2", "GAS") = None ∧
   c_lr m "N1" "GAS" = 1 ∧ c_lr m "N2" "GAS" = 9999 ∧
   c_lr m "N1" "G" = 1 ∧ c_lr m "N2" "G" = 1 ∧
   ub_r m "N1" "GAS" = 0 ∧ ub_r m "N2" "GAS" = 0 ∧
   ub_r m "N1" "G" = 0 ∧ ub_r m "N2" "G" = 0) ∧
  (let loaded := unwrap demo_loaded (load_inputs regas_raw_label) in
   let m := build_base_model_with_cz loaded no_overrides in
   is_ok (load_inputs regas_raw_label) = true ∧
   mN m = ["N1"; "N2"] ∧ mE m = ["G"; "GAS"] ∧
   c_lr m "N1" "G" = 3 ∧ ub_r m "N1" "G" = 20 ∧
   c_lr m "N1" "GAS" = 1 ∧ ub_r m "N1" "GAS" = 0) ∧
  (let r := _extract_regas_data [] ["N1"] ["G"; "H"] in
   r.1.1.1 !! ("N1", "G") = Some 1 ∧ r.1.1.1 !! ("N1", "H") = Some 9999 ∧
   r.1.1.2 !! ("N1", "G") = Some 0 ∧ r.1.1.2 !! ("N1", "H") = Some 0).
Proof. by vm_compute. Qed.

(** The rows of [regas_rows] at work: the 2030 row is ignored, the 2025
    row sets cost 3 and bound 20, and a later row without a year counts
    as 2025 and resets them to the clamped values 1 and 0. *)
Example regas_override_example :
  (regas_stage (take 2 regas_rows) ["N1"] ["G"]).1.1 !! ("N1", "G") = Some 3 ∧
  (regas_stage (take 2 regas_rows) ["N1"] ["G"]).1.2 !! ("N1", "G") = Some 20 ∧
  (regas_stage regas_rows ["N1"] ["G"]).1.1 !! ("N1", "G") = Some 1 ∧
  (regas_stage regas_rows ["N1"] ["G"]).1.2 !! ("N1", "G") = Some 0.
Proof. by vm_compute. Qed.

(** *** The cells of the loaded model *)

Lemma regas_defaults_outside (n_values e_values : list string) (n e : string) :
  n ∉ n_values ∨ e ∉ e_values →
  (regas_defaults n_values e_values).1 !! (n, e) = None ∧
  (regas_defaults n_values e_values).2 !! (n, e) = None.
Proof.
  intros Hout. unfold regas_defaults.
  set (P := λ acc : gmap (string * string) Q * gmap (string * string) Q,
         acc.1 !! (n, e) = None ∧ acc.2 !! (n, e) = None).
  apply (for_each_inv P); [done|].
  intros n' acc Hn' Hacc. apply (for_each_inv P); [done|].
  intros e' acc' He' [H1 H2]. unfold P. simpl.
  rewrite !lookup_insert_ne; [done| |]; intros [= -> ->]; by destruct Hout.
Qed.

Lemma regas_backfill_outside (n_values e_values : list string) (n e : string)
    (cu : gmap (string * string) Q * gmap (string * string) Q) :
  n ∉ n_values ∨ e ∉ e_values →
  (regas_backfill n_values e_values cu).1 !! (n, e) = cu.1 !! (n, e) ∧
  (regas_backfill n_values e_values cu).2 !! (n, e) = cu.2 !! (n, e).
Proof.
  intros Hout. unfold regas_backfill.
  set (P := λ acc : gmap (string * string) Q * gmap (string * string) Q,
         acc.1 !! (n, e) = cu.1 !! (n, e) ∧ acc.2 !! (n, e) = cu.2 !! (n, e)).
  apply (for_each_inv P); [done|].
  intros n' acc Hn' Hacc. apply (for_each_inv P); [done|].
  intros e' acc' He' [H1 H2]. unfold P. simpl.
  rewrite !lookup_setdefault_ne; [done| |]; intros [= -> ->]; by destruct Hout.
Qed.

Lemma regas_backfill_keeps (n_values e_values : list string) (n e : string)
    (cu : gmap (string * string) Q * gmap (string * string) Q) (c u : Q) :
  cu.1 !! (n, e) = Some c → cu.2 !! (n, e) = Some u →
  (regas_backfill n_values e_values cu).1 !! (n, e) = Some c ∧
  (regas_backfill n_values e_values cu).2 !! (n, e) = Some u.
Proof.
  intros Hc Hu. unfold regas_backfill.
  set (P := λ acc : gmap (string * string) Q * gmap (string * string) Q,
         acc.1 !! (n, e) = Some c ∧ acc.2 !! (n, e) = Some u).
  apply (for_each_inv P); [done|].
  intros n' acc Hn' Hacc. apply (for_each_inv P); [done|].
  intros e' acc' He' [H1 H2]. unfold P. simpl.
  split; by apply lookup_setdefault_Some.
Qed.

(** The maps [load_inputs] returns are those of its regasification
    step, and the two domains of that step are part of the final ones. *)
Lemma load_inputs_regas (inp : Inputs) (loaded : Loaded) :
  load_inputs inp = Ok loaded →
  let rs := regas_stage (dat_regas inp) (_extract_node_structures (dat_nodes inp))
              (fuels_at_regas inp) in
  ld_c_lr loaded = rs.1.1 ∧ ld_ub_r loaded = rs.1.2 ∧
  (∀ n, n ∈ nodes_at_regas inp → n ∈ ld_n_values loaded) ∧
  (∀ e, e ∈ fuels_at_regas inp → e ∈ ld_e_values loaded).
Proof.
  unfold nodes_at_regas, fuels_at_regas, load_inputs.
  destruct (_extract_time_domains _) as [[y_values h_values] scaleup].
  destruct (_extract_consumption_data _) as [[[dmd y_dmd] h_dmd] f_dmd].
  destruct (_extract_production_data _) as [[[[[cap_p c_p] lb_p] y_prod] h_prod] f_prod].
  cbn [snd].
  set (e0 := sorted_set (_ ++ _ ++ _ ++ _ ++ _)).
  destruct (regas_stage _ _ e0) as [[c_lr ub_r] n_values] eqn:Er.
  destruct (_extract_arc_data _ _ _ _ _ _) as [[|arcs]|err] eqn:Earc; try discriminate.
  destruct (_extract_storage_data _ _ _ _ _ _)
    as [[[cap_ww h2] stor_nodes] stor_fuels] eqn:Es.
  intros [= <-]. cbv zeta. simpl. split_and!; try done.
  - intros n Hn. rewrite !elem_of_sorted_set, !elem_of_app, elem_of_sorted_set.
    rewrite elem_of_app. auto.
  - intros e He. rewrite elem_of_sorted_set, elem_of_app. auto.
Qed.

(** X27: the regasification cost and bound of the built model, cell by
    cell, for year cells within the range of [int64].  A cell with a
    year-2025 row takes the values of the last such row: cal_c, or 1
    when it is missing or not positive, and 9999 for a fuel that is not
    gas; ub, not below 0.  A cell without one has the bound 0; its cost
    is the default of its canonical label (1 for gas, 9999 otherwise)
    when the cell was in the domains as the default rows were written,
    and otherwise the fallback of the model compiler, which is 1 only for
    the label G itself.  A row of another year is no row of any cell.
    Such a cell of the domains at that point is a cell of the final node
    and fuel domains. *)
Theorem regas_cells_of_model (inp : Inputs) (loaded : Loaded) (ov : Overrides)
    (n e : string) :
  load_inputs inp = Ok loaded →
  Forall regas_year_ok (dat_regas inp) →
  let m := build_base_model_with_cz loaded ov in
  let covered := n ∈ nodes_at_regas inp ∧ e ∈ fuels_at_regas inp in
  (∀ l1 r l2, dat_regas inp = l1 ++ r :: l2 → regas_hits n e r →
     Forall (λ r', ¬ regas_hits n e r') l2 →
     c_lr m n e = regas_cost e r ∧ ub_r m n e = regas_ub r) ∧
  (Forall (λ r, ¬ regas_hits n e r) (dat_regas inp) →
     ub_r m n e = 0 ∧
     (covered → c_lr m n e = regas_default e) ∧
     (¬ covered → c_lr m n e = if String.eqb (upper e) "G" then 1 else 9999)) ∧
  (covered → n ∈ ld_n_values loaded ∧ e ∈ ld_e_values loaded).
Proof.
  intros Hload Hok m covered.
  destruct (load_inputs_regas inp loaded Hload) as (Hc & Hu & HN & HE).
  split_and!; [| |intros [Hn He]; auto].
  all: set (n0 := _extract_node_structures (dat_nodes inp)) in *.
  all: set (e0 := fuels_at_regas inp) in *.
  all: pose proof (regas_stage_maps (dat_regas inp) n0 e0) as Hmaps.
  all: fold (nodes_at_regas inp) in Hmaps.
  all: set (rows := foldl regas_row (regas_defaults n0 e0) (dat_regas inp)) in *.
  all: assert (Hcu : (ld_c_lr loaded, ld_ub_r loaded)
                = regas_backfill (nodes_at_regas inp) e0 rows)
         by (by rewrite Hc, Hu).
  all: assert (Hcl : ld_c_lr loaded
                = (regas_backfill (nodes_at_regas inp) e0 rows).1)
         by (by rewrite <- Hcu).
  all: assert (Hul : ld_ub_r loaded
                = (regas_backfill (nodes_at_regas inp) e0 rows).2)
         by (by rewrite <- Hcu).
  all: unfold m, build_base_model_with_cz; cbn [c_lr ub_r]; unfold dget;
       rewrite Hcl, Hul.
  (* a cell with a row *)
  - intros l1 r l2 Heq Hr Hl2.
    assert (Hok2 : Forall regas_year_ok l2).
    { rewrite Heq in Hok. apply Forall_app in Hok as [_ Hok].
      by apply Forall_cons in Hok as [_ Hok]. }
    destruct (regas_rows_last_hit l1 l2 r n e (regas_defaults n0 e0) Hr Hok2 Hl2)
      as [Ec Eu].
    rewrite <- Heq in Ec, Eu. fold rows in Ec, Eu.
    destruct (regas_backfill_keeps (nodes_at_regas inp) e0 n e rows _ _ Ec Eu)
      as [-> ->]. done.
  - intros Hmiss.
    destruct (regas_rows_miss (dat_regas inp) n e (regas_defaults n0 e0) Hok Hmiss)
      as [Ec Eu]. fold rows in Ec, Eu.
    destruct (decide (n ∈ nodes_at_regas inp ∧ e ∈ e0)) as [[Hn He]|Hout].
    + destruct (regas_backfill_lookup (nodes_at_regas inp) e0 n e rows Hn He)
        as [-> ->].
      destruct (regas_defaults_any n0 e0 n e) as [Dc Du].
      rewrite Ec, Eu, Dc, Du. simpl. split_and!; [done|done|].
      intros Hnot. by destruct Hnot.
    + assert (Hout' : n ∉ nodes_at_regas inp ∨ e ∉ e0).
      { destruct (decide (n ∈ nodes_at_regas inp)); [|by left].
        right. intros He. by apply Hout. }
      destruct (regas_backfill_outside (nodes_at_regas inp) e0 n e rows Hout')
        as [-> ->].
      assert (Hout0 : n ∉ n0 ∨ e ∉ e0).
      { destruct Hout' as [Hn|He]; [left|by right].
        intros Hn0. apply Hn. by apply regas_stage_nodes. }
      destruct (regas_defaults_outside n0 e0 n e Hout0) as [Dc Du].
      rewrite Ec, Eu, Dc, Du. simpl. split_and!; [done| |done].
      intros Hcov. by destruct Hout.
Qed.

Lemma regas_raw_label_loads : is_ok (load_inputs regas_raw_label) = true.
Proof. vm_compute. reflexivity. Qed.

(** On [regas_raw_label]: the row, written GAS, is a year-2025 row of
    the cell (N1, G); the cell (N1, GAS) has no row and was in the domains
    when the defaults were written; the cell (N2, GAS) was not. *)
Lemma regas_cells_of_model_witness :
  let m := build_base_model_with_cz
             (unwrap demo_loaded (load_inputs regas_raw_label)) no_overrides in
  (c_lr m "N1" "G" = 3 ∧ ub_r m "N1" "G" = 20) ∧
  (ub_r m "N1" "GAS" = 0 ∧ c_lr m "N1" "GAS" = 1) ∧
  (ub_r m "N2" "GAS" = 0 ∧ c_lr m "N2" "GAS" = 9999).
Proof.
  pose proof (ok_unwrap demo_loaded _ regas_raw_label_loads) as Hload.
  assert (Hok : Forall regas_year_ok (dat_regas regas_raw_label)).
  { apply Forall_cons_2; [|apply Forall_nil_2].
    vm_compute. split; [discriminate|reflexivity]. }
  assert (Hmiss : ∀ n, Forall (λ r, ¬ regas_hits n "GAS" r) (dat_regas regas_raw_label)).
  { intros n. repeat constructor. intros (_ & He & _). vm_compute in He. discriminate. }
  split; [|split].
  - destruct (regas_cells_of_model regas_raw_label _ no_overrides "N1" "G" Hload Hok)
      as [Hhit _].
    apply (Hhit [] _ [] eq_refl); [|apply Forall_nil_2].
    vm_compute. repeat split; discriminate.
  - destruct (regas_cells_of_model regas_raw_label _ no_overrides "N1" "GAS" Hload Hok)
      as (_ & Hdef & _).
    destruct (Hdef (Hmiss "N1")) as (Hu & Hc & _). split; [done|].
    rewrite Hc; [by vm_compute|]. split; vm_compute.
    + left.
    + right. left.
  - destruct (regas_cells_of_model regas_raw_label _ no_overrides "N2" "GAS" Hload Hok)
      as (_ & Hdef & _).
    destruct (Hdef (Hmiss "N2")) as (Hu & _ & Hc). split; [done|].
    rewrite Hc; [by vm_compute|]. intros [Hn _]. vm_compute in Hn.
    apply list_elem_of_singleton in Hn. discriminate.
Defined.

(** ** Opposite-arc propagation *)

Lemma dget_insert {K : Type} `{Countable K} {V : Type} (d : V) (m : gmap K V)
    (k k' : K) (v : V) :
  dget d (<[k := v]> m) k' = if decide (k = k') then v else dget d m k'.
Proof.
  case_decide as Hk.
  - subst. apply dget_insert_eq.
  - by apply dget_insert_ne.
Qed.

Lemma dget_present {K : Type} `{Countable K} {V : Type} (d d' : V) (m : gmap K V)
    (k : K) :
  is_Some (m !! k) → dget d m k = dget d' m k.
Proof. intros [v Hv]. unfold dget. by rewrite Hv. Qed.

Lemma is_Some_insert {K : Type} `{Countable K} {V : Type} (m : gmap K V)
    (k k' : K) (v : V) :
  is_Some (m !! k') → is_Some (<[k := v]> m !! k').
Proof. intros Hs. rewrite lookup_insert. by case_decide. Qed.

Section propagation.
Context (a_values all_fuels : list string) (y_values : list Z).
Context (opp : gmap (string * string) Z).
Context (pe pb : Prop) (ai ao f : string) (y : Z).
Hypothesis pair_distinct : ai ≠ ao.
Hypothesis only_forward : ∀ x, x ∈ a_values → dget 0%Z opp (x, ao) = 1%Z → x = ai.
Hypothesis only_opposite : ∀ x, x ∈ a_values → dget 0%Z opp (x, ai) = 1%Z → x = ao.

Ltac ins :=
  rewrite ?dget_insert, ?lookup_insert;
  repeat match goal with
         | |- context [decide ?P] => destruct (decide P)
         end;
  simplify_eq; try done.

(** A copy onto a third arc leaves the pair alone. *)
Lemma prop_copy_elsewhere (x x' f' : string) (y' : Z) (s : ArcSt) :
  x' ≠ ai → x' ≠ ao → same_reads_on ai ao s (prop_copy x x' f' y' s).
Proof.
  intros Hi Ho. unfold same_reads_on. simpl.
  repeat split; intros; ins; intuition congruence.
Qed.

Lemma same_reads_on_inv (s s' : ArcSt) :
  same_reads_on ai ao s s' →
  (pair_inv pe pb ai ao f y s → pair_inv pe pb ai ao f y s') ∧
  (pair_done pe pb ai ao f y s → pair_done pe pb ai ao f y s').
Proof.
  intros (Ha & Hx & Hb & Hf & He & Hi & Hpe & Hpi).
  unfold pair_inv, pair_done, mirrors.
  rewrite !(Ha ai), !(Ha ao), !(Hx ai), !(Hx ao), !(Hb ai), !(Hb ao),
    !(Hf ai), !(Hf ao), !(He ai), !(He ao), !(Hi ai), !(Hi ao) by auto.
  split.
  - intros (Hpos & HE & HB & [Hlow|Hm]); split_and!; auto.
  - intros (Hpos & HE & HB & H1 & H2 & H3 & H4 & H5 & H6); split_and!; auto.
Qed.

(** A copy from the forward arc onto the opposite arc for the fuel and
    year under study makes the opposite arc mirror the forward arc. *)
Lemma prop_copy_forward_sets (s : ArcSt) :
  (pe → is_Some (st_e_a s !! (ai, f))) →
  (pb → is_Some (st_is_bid s !! ai)) →
  mirrors pe pb ai ao f y (prop_copy ai ao f y s).
Proof.
  intros HE HB. unfold mirrors. simpl. split_and!.
  - by ins.
  - by ins.
  - by ins.
  - by ins.
  - intros Hpe. ins. by apply dget_present, HE.
  - intros Hpb. ins. by apply dget_present, HB.
Qed.

(** Any other copy in the same direction keeps the mirror. *)
Lemma prop_copy_forward_keeps (f' : string) (y' : Z) (s : ArcSt) :
  (pe → is_Some (st_e_a s !! (ai, f))) →
  (pb → is_Some (st_is_bid s !! ai)) →
  mirrors pe pb ai ao f y s →
  mirrors pe pb ai ao f y (prop_copy ai ao f' y' s).
Proof.
  intros HE HB (H1 & H2 & H3 & H4 & H5 & H6). unfold mirrors. simpl. split_and!.
  - by ins.
  - by ins.
  - by ins.
  - by ins.
  - intros Hpe. ins; [by apply dget_present, HE | by apply H5].
  - intros Hpb. ins. by apply dget_present, HB.
Qed.

(** A copy in the opposite direction keeps the mirror as well. *)
Lemma prop_copy_backward_keeps (f' : string) (y' : Z) (s : ArcSt) :
  mirrors pe pb ai ao f y s →
  mirrors pe pb ai ao f y (prop_copy ao ai f' y' s).
Proof.
  intros (H1 & H2 & H3 & H4 & H5 & H6). unfold mirrors. simpl. split_and!.
  - by ins.
  - by ins.
  - by ins.
  - by ins.
  - intros Hpe. specialize (H5 Hpe). ins.
    unfold dget in *. by destruct (st_e_a s !! (ao, f)).
  - intros Hpb. specialize (H6 Hpb). ins.
    unfold dget in *. by destruct (st_is_bid s !! ao).
Qed.

(** Every visit of the pass keeps the invariant, and keeps the mirror
    once it is there. *)
Lemma prop_step_pair (x x' f' : string) (y' : Z) (s : ArcSt) :
  x ∈ a_values → dget 0%Z opp (x, x') = 1%Z →
  (pair_inv pe pb ai ao f y s → pair_inv pe pb ai ao f y (prop_step x x' f' y' s)) ∧
  (pair_done pe pb ai ao f y s → pair_done pe pb ai ao f y (prop_step x x' f' y' s)).
Proof.
  intros Hx Hopp. unfold prop_step.
  destruct (Qgtb _ 0 && Qle_bool _ tol) eqn:Hcond; [|done].
  apply andb_true_iff in Hcond as [Hsrc Hdst]. apply Qgtb_true in Hsrc.
  destruct (decide (x' = ao)) as [->|Hno].
  { assert (x = ai) as -> by by apply only_forward.
    assert (Hpos : ∀ s0 : ArcSt, 0 < dget 0 (st_c_a s0) (ai, f, y) →
      0 < dget 0 (st_c_a (prop_copy ai ao f' y' s0)) (ai, f, y)).
    { intros s0 H0. simpl. by ins. }
    split.
    - intros (H0 & HE & HB & Hrest). split_and!.
      + by apply Hpos.
      + intros Hpe. simpl. by apply is_Some_insert, HE.
      + intros Hpb. simpl. by apply is_Some_insert, HB.
      + destruct Hrest as [Hlow|Hm].
        * destruct (decide ((f', y') = (f, y))) as [[= -> ->]|Hne].
          -- right. by apply prop_copy_forward_sets.
          -- left. simpl. by ins.
        * right. by apply prop_copy_forward_keeps.
    - intros (H0 & HE & HB & Hm). split_and!.
      + by apply Hpos.
      + intros Hpe. simpl. by apply is_Some_insert, HE.
      + intros Hpb. simpl. by apply is_Some_insert, HB.
      + by apply prop_copy_forward_keeps. }
  destruct (decide (x' = ai)) as [->|Hni].
  { assert (x = ao) as -> by by apply only_opposite.
    assert (Hpos : 0 < dget 0 (st_c_a s) (ai, f, y) →
      0 < dget 0 (st_c_a (prop_copy ao ai f' y' s)) (ai, f, y)).
    { intros H0. simpl. by ins. }
    split.
    - intros (H0 & HE & HB & Hrest). split_and!.
      + by apply Hpos.
      + intros Hpe. simpl. by apply is_Some_insert, HE.
      + intros Hpb. simpl. by apply is_Some_insert, HB.
      + destruct Hrest as [Hlow|Hm].
        * left. simpl. by ins.
        * right. by apply prop_copy_backward_keeps.
    - intros (H0 & HE & HB & Hm). split_and!.
      + by apply Hpos.
      + intros Hpe. simpl. by apply is_Some_insert, HE.
      + intros Hpb. simpl. by apply is_Some_insert, HB.
      + by apply prop_copy_backward_keeps. }
  apply same_reads_on_inv. by apply prop_copy_elsewhere.
Qed.

(** The visit of the pair itself, for the fuel and year under study,
    turns the invariant into the mirror. *)
Lemma prop_step_hit (s : ArcSt) :
  pair_inv pe pb ai ao f y s → pair_done pe pb ai ao f y (prop_step ai ao f y s).
Proof.
  intros (H0 & HE & HB & Hrest). unfold prop_step.
  destruct (Qgtb _ 0 && Qle_bool _ tol) eqn:Hcond.
  - split_and!.
    + simpl. by ins.
    + intros Hpe. simpl. by apply is_Some_insert, HE.
    + intros Hpb. simpl. by apply is_Some_insert, HB.
    + by apply prop_copy_forward_sets.
  - destruct Hrest as [Hlow|Hm]; [|done].
    apply Qgtb_true in H0. apply Qle_bool_iff in Hlow.
    by rewrite H0, Hlow in Hcond.
Qed.

End propagation.

(** *** The arcs' own values *)

Lemma keeps_flow_for_each {A : Type} (xs : list A) (body : A → ArcSt → ArcSt)
    (s : ArcSt) :
  (∀ x s', keeps_flow s' (body x s')) → keeps_flow s (for_each xs body s).
Proof.
  intros Hbody. apply (for_each_inv (keeps_flow s)); [done|].
  intros x s' _ (H1 & H2 & H3). destruct (Hbody x s') as (G1 & G2 & G3).
  unfold keeps_flow. by rewrite G1, G2, G3.
Qed.

Lemma own_wf_keeps_flow (s s' : ArcSt) : keeps_flow s s' → own_wf s → own_wf s'.
Proof. intros (H1 & H2 & H3) Hs. unfold own_wf. by rewrite H1, H2, H3. Qed.

Lemma arc_own_wf (o : list PRow) (sc : ArcScalars) (work : list AWork)
    (y_values : list Z) (all_fuels : list string) (vola2 : gmap string Q)
    (loss_max : Q) (a : string) (st : ArcSt) :
  own_wf st → own_wf (arc_own o sc work y_values all_fuels vola2 loss_max a st).
Proof.
  intros Hst. unfold arc_own.
  destruct (filter (λ w, aw_a w = a) work) as [|w0 rows] eqn:Erows; [done|].
  match goal with
  | |- context [for_each (w0 :: rows) ?body ?init] =>
      assert (Hrows : own_wf_but a (for_each (w0 :: rows) body init).1);
      [|destruct (for_each (w0 :: rows) body init) as [st1 cal1]]
  end.
  { apply (for_each_inv (λ p : ArcSt * Cal, own_wf_but a p.1)).
    - simpl. intros a' f' y' Hc. destruct (Hst a' f' y' Hc). auto.
    - intros row [st0 cal0] _ Hp. simpl in *.
      set (f0 := strip (aw_f row)).
      match goal with
      | |- own_wf_but a (for_each y_values ?body ?init) =>
          enough (own_wf_but a (for_each y_values body init)
                  ∧ is_Some (st_e_a (for_each y_values body init) !! (a, f0)))
            as [Hgoal _]; [done|];
          apply (for_each_inv (λ s, own_wf_but a s ∧ is_Some (st_e_a s !! (a, f0))))
      end.
      + split; [|simpl; by rewrite lookup_insert_eq].
        intros a' f' y' Hc. simpl in *. destruct (Hp a' f' y' Hc) as [He Hb].
        split; [by apply is_Some_insert|done].
      + intros y0 s _ [Hs He]. split; [|done].
        intros a' f' y' Hc. simpl in *. rewrite lookup_insert in Hc.
        case_decide as Hk; [|by apply Hs in Hc].
        simplify_eq. auto. }
  simpl in Hrows.
  eapply own_wf_keeps_flow.
  { apply keeps_flow_for_each. intros y0 s. done. }
  eapply own_wf_keeps_flow.
  { apply keeps_flow_for_each. intros e s.
    apply keeps_flow_for_each. intros f0 s0.
    apply keeps_flow_for_each. intros y0 s1. done. }
  eapply own_wf_keeps_flow.
  { apply keeps_flow_for_each. intros f0 s.
    apply keeps_flow_for_each. intros y0 s0. done. }
  intros a' f' y' Hc. simpl in *. destruct (Hrows a' f' y' Hc) as [He Hb].
  split; [done|]. rewrite lookup_insert. case_decide; [done|].
  by destruct Hb.
Qed.

Lemma arc_before_propagation_wf (df_a : list ARow) (dat_o : list ORow)
    (y_values : list Z) (e_values : list string) (vola2 : gmap string Q)
    (loss_max : Q) :
  own_wf (arc_before_propagation df_a dat_o y_values e_values vola2 loss_max).
Proof.
  unfold arc_before_propagation. apply (for_each_inv own_wf).
  - intros a f y Hc. simpl in Hc. rewrite lookup_empty in Hc. by destruct Hc.
  - intros a s _ Hs. by apply arc_own_wf.
Qed.

(** *** The passes after the first propagation loop *)

Lemma same_reads_refl (s : ArcSt) : same_reads s s.
Proof. by repeat split. Qed.

Lemma same_reads_for_each {A : Type} (xs : list A) (body : A → ArcSt → ArcSt)
    (s : ArcSt) :
  (∀ x s', same_reads s' (body x s')) → same_reads s (for_each xs body s).
Proof.
  intros Hbody. apply (for_each_inv (same_reads s)); [apply same_reads_refl|].
  intros x s' _ (H1 & H2 & H3 & H4 & H5 & H6).
  destruct (Hbody x s') as (G1 & G2 & G3 & G4 & G5 & G6).
  unfold same_reads. split_and!; intros k.
  - by rewrite G1, H1.
  - by rewrite G2, H2.
  - by rewrite G3, H3.
  - by rewrite G4, H4.
  - by rewrite G5, H5.
  - by rewrite G6, H6.
Qed.

Lemma same_reads_trans (s1 s2 s3 : ArcSt) :
  same_reads s1 s2 → same_reads s2 s3 → same_reads s1 s3.
Proof.
  intros (H1 & H2 & H3 & H4 & H5 & H6) (G1 & G2 & G3 & G4 & G5 & G6).
  unfold same_reads. split_and!; intros k.
  - by rewrite G1, H1.
  - by rewrite G2, H2.
  - by rewrite G3, H3.
  - by rewrite G4, H4.
  - by rewrite G5, H5.
  - by rewrite G6, H6.
Qed.

Lemma propagate_ar_same_reads (a_values all_fuels : list string)
    (y_values : list Z) (opp : gmap (string * string) Z) (s : ArcSt) :
  same_reads s (propagate_ar a_values all_fuels y_values opp s).
Proof.
  unfold propagate_ar.
  apply same_reads_for_each. intros ai s1.
  apply same_reads_for_each. intros ao s2.
  case_bool_decide; [apply same_reads_refl|].
  apply same_reads_for_each. intros e s3.
  apply same_reads_for_each. intros f s4.
  apply same_reads_for_each. intros y s5.
  unfold prop_ar_step. destruct (_ || _); by repeat split.
Qed.

Lemma fill_defaults_same_reads (a_values all_fuels : list string)
    (y_values : list Z) (s : ArcSt) :
  same_reads s (fill_defaults a_values all_fuels y_values s).
Proof.
  unfold fill_defaults.
  apply same_reads_for_each. intros a s1. cbv zeta.
  eapply same_reads_trans; cycle 1.
  { apply same_reads_for_each. intros e s2.
    apply same_reads_for_each. intros f s3.
    apply same_reads_for_each. intros y s4. by repeat split. }
  eapply same_reads_trans; cycle 1.
  { apply same_reads_for_each. intros f s2. cbv zeta.
    eapply same_reads_trans; cycle 1.
    { apply same_reads_for_each. intros y s3.
      unfold same_reads. simpl. split_and!; intros; try done; apply dget_setdefault. }
    unfold same_reads. simpl. split_and!; intros; try done. apply dget_setdefault. }
  unfold same_reads. simpl. split_and!; intros; try done. apply dget_setdefault.
Qed.

Lemma self_zero_same_reads (a_values all_fuels : list string)
    (y_values : list Z) (s : ArcSt) :
  same_reads s (self_zero a_values all_fuels y_values s).
Proof.
  unfold self_zero.
  apply same_reads_for_each. intros a s1.
  apply same_reads_for_each. intros e s2.
  apply same_reads_for_each. intros y s3. by repeat split.
Qed.

(** What the model reads after all passes is what it would read after
    the first propagation loop. *)
Lemma arc_finish_same_reads (a_values all_fuels : list string)
    (y_values : list Z) (opp : gmap (string * string) Z) (s : ArcSt) :
  same_reads (propagate a_values all_fuels y_values opp s)
             (arc_finish a_values all_fuels y_values opp s).
Proof.
  unfold arc_finish.
  eapply same_reads_trans; [apply propagate_ar_same_reads|].
  eapply same_reads_trans; [apply fill_defaults_same_reads|].
  apply self_zero_same_reads.
Qed.

Lemma opp_defaults_reads (a_values : list string)
    (oo : gmap (string * string) Z * gmap string string) (k : string * string) :
  dget 0%Z (opp_defaults a_values oo).1 k = dget 0%Z oo.1 k.
Proof.
  unfold opp_defaults.
  apply (for_each_inv (λ p : gmap (string * string) Z * gmap string string,
                         dget 0%Z p.1 k = dget 0%Z oo.1 k)); [done|].
  intros ai p _ Hp. simpl.
  apply (for_each_inv (λ m : gmap (string * string) Z,
                         dget 0%Z m k = dget 0%Z oo.1 k)); [done|].
  intros ao m _ Hm. by rewrite dget_setdefault.
Qed.

Lemma dget_pos_is_Some {K : Type} `{Countable K} (m : gmap K Q) (k : K) :
  0 < dget 0 m k → is_Some (m !! k).
Proof.
  unfold dget. destruct (m !! k) eqn:E; [by eauto|].
  simpl. intros Hlt. by apply Qlt_irrefl in Hlt.
Qed.

(** *** The forward arc keeps its values *)

Lemma for_each_ext {A S : Type} (xs : list A) (body body' : A → S → S) (s : S) :
  (∀ x s', x ∈ xs → body x s' = body' x s') →
  for_each xs body s = for_each xs body' s.
Proof.
  revert s. induction xs as [|x xs IH]; intros s Hext; [done|].
  rewrite !for_each_cons, Hext by left. apply IH.
  intros x' s' Hx'. apply Hext. by right.
Qed.

(** The passes read [opp] through [opp.get(..., 0)] only. *)
Lemma arc_finish_opp_ext (a_values all_fuels : list string) (y_values : list Z)
    (opp opp' : gmap (string * string) Z) (s : ArcSt) :
  (∀ k, dget 0%Z opp k = dget 0%Z opp' k) →
  arc_finish a_values all_fuels y_values opp s
  = arc_finish a_values all_fuels y_values opp' s.
Proof.
  intros Hopp. unfold arc_finish. do 2 f_equal.
  assert (Hp : ∀ s', propagate a_values all_fuels y_values opp s'
                     = propagate a_values all_fuels y_values opp' s').
  { intros s'. unfold propagate. apply for_each_ext. intros ai s1 _.
    apply for_each_ext. intros ao s2 _. by rewrite Hopp. }
  rewrite Hp. unfold propagate_ar. apply for_each_ext. intros ai s1 _.
  apply for_each_ext. intros ao s2 _. by rewrite Hopp.
Qed.

Lemma prop_step_test (ai ao f : string) (y : Z) (s : ArcSt) :
  Qgtb (dget 0 (st_c_a s) (ai, f, y)) 0
  && Qle_bool (dget 0 (st_c_a s) (ao, f, y)) tol = true
  ↔ copy_test s ai ao f y.
Proof.
  unfold copy_test. by rewrite andb_true_iff, Qgtb_true, Qle_bool_iff.
Qed.

Lemma flow_reads_eq (s s' : ArcSt) (a a' f : string) (y : Z) :
  flow_reads s a f y = flow_reads s' a' f y ↔
  dget 0 (st_c_a s) (a, f, y) = dget 0 (st_c_a s') (a', f, y) ∧
  dget 0 (st_c_ax s) (a, f, y) = dget 0 (st_c_ax s') (a', f, y) ∧
  dget 0 (st_c_ab s) (a, f, y) = dget 0 (st_c_ab s') (a', f, y) ∧
  dget 0 (st_f_ab s) (a, y) = dget 0 (st_f_ab s') (a', y) ∧
  dget 1 (st_e_a s) (a, f) = dget 1 (st_e_a s') (a', f) ∧
  dget 0%Z (st_is_bid s) a = dget 0%Z (st_is_bid s') a'.
Proof.
  unfold flow_reads. split.
  - intros [= -> -> -> -> -> ->]. done.
  - intros (-> & -> & -> & -> & -> & ->). done.
Qed.

Lemma mirrors_flow_reads (ai ao f : string) (y : Z) (s : ArcSt) :
  mirrors True True ai ao f y s ↔ flow_reads s ao f y = flow_reads s ai f y.
Proof.
  rewrite flow_reads_eq. unfold mirrors. split.
  - intros (H1 & H2 & H3 & H4 & H5 & H6). split_and!; auto.
  - intros (H1 & H2 & H3 & H4 & H5 & H6). split_and!; auto.
Qed.

Lemma same_reads_flow_reads (s s' : ArcSt) (a f : string) (y : Z) :
  same_reads s s' → flow_reads s' a f y = flow_reads s a f y.
Proof.
  intros (H1 & H2 & H3 & H4 & H5 & H6). unfold flow_reads.
  by rewrite H1, H2, H3, H4, H5, H6.
Qed.

Lemma same_reads_on_refl (ai ao : string) (s : ArcSt) : same_reads_on ai ao s s.
Proof. unfold same_reads_on. split_and!; auto. Qed.

Lemma same_reads_on_trans (ai ao : string) (s1 s2 s3 : ArcSt) :
  same_reads_on ai ao s1 s2 → same_reads_on ai ao s2 s3 → same_reads_on ai ao s1 s3.
Proof.
  intros (H1 & H2 & H3 & H4 & H5 & H6 & H7 & H8)
         (G1 & G2 & G3 & G4 & G5 & G6 & G7 & G8).
  unfold same_reads_on. split_and!; intros.
  - by rewrite G1, H1.
  - by rewrite G2, H2.
  - by rewrite G3, H3.
  - by rewrite G4, H4.
  - by rewrite G5, H5.
  - by rewrite G6, H6.
  - auto.
  - auto.
Qed.

Lemma same_reads_on_flow_reads (ai ao : string) (s s' : ArcSt) (f : string) (y : Z) :
  same_reads_on ai ao s s' → flow_reads s' ai f y = flow_reads s ai f y.
Proof.
  intros (H1 & H2 & H3 & H4 & H5 & H6 & _). unfold flow_reads.
  by rewrite H1, H2, H3, H4, H5, H6 by auto.
Qed.

(** A copy onto another arc leaves the reads of [ai]. *)
Lemma flow_reads_copy_other (ai x x' f f' : string) (y y' : Z) (s : ArcSt) :
  x' ≠ ai → flow_reads (prop_copy x x' f' y' s) ai f y = flow_reads s ai f y.
Proof.
  intros Hne. unfold flow_reads, prop_copy. simpl.
  by rewrite !dget_insert_ne by congruence.
Qed.

(** A copy from [ao] back onto [ai] leaves the reads of [ai] for the
    fuel and year on which [ao] already mirrors [ai]. *)
Lemma flow_reads_copy_back (ai ao f f' : string) (y y' : Z) (s : ArcSt) :
  mirrors True True ai ao f y s →
  flow_reads (prop_copy ao ai f' y' s) ai f y = flow_reads s ai f y.
Proof.
  intros (H1 & H2 & H3 & H4 & H5 & H6). specialize (H5 I). specialize (H6 I).
  apply flow_reads_eq. unfold prop_copy. simpl. rewrite !dget_insert.
  split_and!.
  - case_decide as Hk; [|done]. by simplify_eq.
  - case_decide as Hk; [|done]. by simplify_eq.
  - case_decide as Hk; [|done]. by simplify_eq.
  - case_decide as Hk; [|done]. by simplify_eq.
  - case_decide as Hk; [|done]. simplify_eq.
    rewrite <- H5. unfold dget. by destruct (st_e_a s !! (ao, f)).
  - rewrite decide_True by done.
    rewrite <- H6. unfold dget. by destruct (st_is_bid s !! ao).
Qed.

Section forward_kept.
Context (a_values all_fuels : list string) (y_values : list Z).
Context (opp : gmap (string * string) Z).
Context (ai ao f : string) (y : Z) (st0 : ArcSt).
Hypothesis pair_distinct : ai ≠ ao.
Hypothesis only_forward : ∀ x, x ∈ a_values → dget 0%Z opp (x, ao) = 1%Z → x = ai.
Hypothesis only_opposite : ∀ x, x ∈ a_values → dget 0%Z opp (x, ai) = 1%Z → x = ao.

(** Any visit leaves the reads of [ai], provided a copy back onto [ai]
    finds [ao] mirroring it. *)
Lemma prop_step_flow_reads (x x' f' : string) (y' : Z) (s : ArcSt) :
  x ∈ a_values → dget 0%Z opp (x, x') = 1%Z →
  (x' = ai → mirrors True True ai ao f y s) →
  flow_reads (prop_step x x' f' y' s) ai f y = flow_reads s ai f y.
Proof.
  intros Hx Hopp Hm. unfold prop_step. destruct (_ && _); [|done].
  destruct (decide (x' = ai)) as [->|Hne].
  - assert (x = ao) as -> by by apply only_opposite.
    by apply flow_reads_copy_back, Hm.
  - by apply flow_reads_copy_other.
Qed.

Lemma ai_not_self_opposite : ai ∈ a_values → dget 0%Z opp (ai, ai) ≠ 1%Z.
Proof. intros Hai Hopp. by apply pair_distinct, only_opposite. Qed.

(** A visit with [ai] as the source keeps the invariant. *)
Lemma kept_inv_step (x' f' : string) (y' : Z) (s : ArcSt) :
  ai ∈ a_values → dget 0%Z opp (ai, x') = 1%Z →
  kept_inv st0 ai ao f y s → kept_inv st0 ai ao f y (prop_step ai x' f' y' s).
Proof.
  intros Hai Hopp [Hinv Hk]. split.
  - by apply (prop_step_pair a_values opp True True ai ao f y).
  - rewrite <- Hk. apply prop_step_flow_reads; [done|done|].
    intros ->. by destruct (ai_not_self_opposite Hai).
Qed.

(** After the pair has been visited, every visit keeps both facts. *)
Lemma kept_done_step (x x' f' : string) (y' : Z) (s : ArcSt) :
  x ∈ a_values → dget 0%Z opp (x, x') = 1%Z →
  kept_done st0 ai ao f y s → kept_done st0 ai ao f y (prop_step x x' f' y' s).
Proof.
  intros Hx Hopp [Hdone Hk]. split.
  - by apply (prop_step_pair a_values opp True True ai ao f y).
  - rewrite <- Hk. apply prop_step_flow_reads; [done|done|].
    intros _. by destruct Hdone as (_ & _ & _ & Hm).
Qed.

Lemma kept_hit (s : ArcSt) :
  ai ∈ a_values → dget 0%Z opp (ai, ao) = 1%Z →
  kept_inv st0 ai ao f y s → kept_done st0 ai ao f y (prop_step ai ao f y s).
Proof.
  intros Hai Hopp [Hinv Hk]. split.
  - by apply prop_step_hit.
  - rewrite <- Hk. apply prop_step_flow_reads; [done|done|].
    intros Heq. by destruct pair_distinct.
Qed.

(** The body of the two outer loops, for one pair of arcs. *)
Lemma visit_inv (P : ArcSt → Prop) (x x' : string) (s : ArcSt) :
  (∀ f' y' s', f' ∈ all_fuels → y' ∈ y_values → dget 0%Z opp (x, x') = 1%Z →
               P s' → P (prop_step x x' f' y' s')) →
  P s →
  P (if bool_decide (dget 0%Z opp (x, x') ≠ 1%Z) then s
     else for_each all_fuels
            (λ f0, for_each y_values (λ y0, prop_step x x' f0 y0)) s).
Proof.
  intros Hstep Hs. case_bool_decide as Ho; [done|].
  assert (Hopp : dget 0%Z opp (x, x') = 1%Z).
  { by destruct (decide (dget 0%Z opp (x, x') = 1%Z)). }
  apply for_each_inv; [done|]. intros f0 s1 Hf0 Hs1.
  apply for_each_inv; [done|]. intros y0 s2 Hy0. by apply Hstep.
Qed.

(** The outer iterations before the one of [ai]: the pair reads as at
    the start.  Either [ao] is not among them, or no copy from [ao]
    onto [ai] passes the test at the start. *)
Lemma before_ai_same_reads (l1 : list string) :
  (∀ x, x ∈ l1 → x ∈ a_values) → ai ∉ l1 →
  (ao ∉ l1 ∨ ∀ f' y', f' ∈ all_fuels → y' ∈ y_values → ¬ copy_test st0 ao ai f' y') →
  same_reads_on ai ao st0
    (for_each l1
       (λ x, for_each a_values
          (λ x' st,
             if bool_decide (dget 0%Z opp (x, x') ≠ 1%Z) then st
             else for_each all_fuels
                    (λ f0, for_each y_values (λ y0, prop_step x x' f0 y0)) st))
       st0).
Proof.
  intros Hsub Hai Hback.
  apply (for_each_inv (same_reads_on ai ao st0)); [apply same_reads_on_refl|].
  intros x s Hx Hs.
  apply (for_each_inv (same_reads_on ai ao st0)); [done|].
  intros x' s' _ Hs'. apply (visit_inv (same_reads_on ai ao st0)); [|done].
  intros f' y' s2 Hf' Hy' Hopp Hs2. unfold prop_step.
  destruct (_ && _) eqn:Hcond; [|done].
  apply prop_step_test in Hcond.
  destruct (decide (x' = ao)) as [->|Hno].
  { assert (x = ai) as -> by (apply only_forward; auto). done. }
  destruct (decide (x' = ai)) as [->|Hni].
  { assert (x = ao) as -> by (apply only_opposite; auto).
    destruct Hback as [Hnot|Hback]; [done|].
    destruct (Hback f' y' Hf' Hy').
    destruct Hs2 as (Hca & _). unfold copy_test in *.
    by rewrite <- !Hca by auto. }
  eapply same_reads_on_trans; [done|]. by apply prop_copy_elsewhere.
Qed.

(** The first propagation pass: [ao] ends with the values [ai] had at
    the start, and [ai] keeps them. *)
Lemma propagate_inherits (l1 l2 : list string) :
  a_values = l1 ++ ai :: l2 → ai ∉ l1 →
  (ao ∉ l1 ∨ ∀ f' y', f' ∈ all_fuels → y' ∈ y_values → ¬ copy_test st0 ao ai f' y') →
  ao ∈ a_values → f ∈ all_fuels → y ∈ y_values →
  dget 0%Z opp (ai, ao) = 1%Z →
  pair_inv True True ai ao f y st0 →
  kept_done st0 ai ao f y (propagate a_values all_fuels y_values opp st0).
Proof.
  intros Heq Hnot Hback Hao Hf Hy Hopp Hinv.
  set (I := kept_inv st0 ai ao f y). set (P := kept_done st0 ai ao f y).
  assert (Hai : ai ∈ a_values) by (rewrite Heq; apply elem_of_app; right; left).
  unfold propagate. rewrite Heq at 1. rewrite for_each_app, for_each_cons.
  match goal with
  | |- context [for_each l1 ?body st0] => set (s1 := for_each l1 body st0)
  end.
  assert (Hs1 : kept_inv st0 ai ao f y s1).
  { assert (Hsame : same_reads_on ai ao st0 s1).
    { apply before_ai_same_reads; [|done|done].
      intros x Hx. rewrite Heq. apply elem_of_app. by left. }
    split.
    - by apply (same_reads_on_inv True True ai ao f y st0 s1).
    - by eapply same_reads_on_flow_reads. }
  clearbody s1.
  (* the outer iterations after the one of [ai] *)
  apply (for_each_inv P).
  - (* the outer iteration of [ai] *)
    apply (for_each_hit I P) with (x0 := ao); try done.
    + intros x' s' _ Hs'. apply (visit_inv I); [|done].
      intros f' y' s2 _ _ Hopp' Hs2. by apply kept_inv_step.
    + intros s' Hs'. rewrite bool_decide_eq_false_2 by (by intros ?).
      apply (for_each_hit I P) with (x0 := f); try done.
      * intros f0 s2 _ Hs2. apply for_each_inv; [done|].
        intros y0 s3 _ Hs3. by apply kept_inv_step.
      * intros s2 Hs2. apply (for_each_hit I P) with (x0 := y); try done.
        -- intros y0 s3 _ Hs3. by apply kept_inv_step.
        -- intros s3 Hs3. by apply kept_hit.
        -- intros y0 s3 _ Hs3. by apply kept_done_step.
      * intros f0 s2 _ Hs2. apply for_each_inv; [done|].
        intros y0 s3 _ Hs3. by apply kept_done_step.
    + intros x' s' _ Hs'. apply (visit_inv P); [|done].
      intros f' y' s2 _ _ Hopp' Hs2. by apply kept_done_step.
  - intros x s Hx Hs. apply for_each_inv; [done|].
    intros x' s' _ Hs'. apply (visit_inv P); [|done].
    intros f' y' s2 _ _ Hopp' Hs2. apply kept_done_step; [|done|done].
    rewrite Heq. apply elem_of_app. right. by right.
Qed.

End forward_kept.

Lemma build_opp_sound (ends : gmap string (string * string)) (xs : list string)
    (ai ao : string) (v : Z) :
  build_opp ends xs !! (ai, ao) = Some v →
  v = 1%Z ∧ ai ∈ xs ∧ ao ∈ xs ∧ ai ≠ ao ∧
  ∃ n m, ends !! ai = Some (n, m) ∧ ends !! ao = Some (m, n).
Proof.
  set (P := λ opp : gmap (string * string) Z,
         ∀ v, opp !! (ai, ao) = Some v →
              v = 1%Z ∧ ai ∈ xs ∧ ao ∈ xs ∧ ai ≠ ao ∧
              ∃ n m, ends !! ai = Some (n, m) ∧ ends !! ao = Some (m, n)).
  revert v. change (P (build_opp ends xs)). unfold build_opp.
  apply (for_each_inv P).
  { intros v. by rewrite lookup_empty. }
  intros x opp Hx Hopp.
  destruct (ends !! x) as [[ni mi]|] eqn:Ex; [|done].
  apply (for_each_inv P); [done|].
  intros x' opp' Hx' Hopp'. case_bool_decide as Hsame; [done|].
  destruct (ends !! x') as [[no mo]|] eqn:Ex'; [|done].
  case_bool_decide as Hrev; [|done]. destruct Hrev as [-> ->].
  intros v. rewrite lookup_insert. case_decide as Hk; [|by apply Hopp'].
  simplify_eq. intros [= <-]. split_and!; try done. eauto.
Qed.

Lemma _extract_arc_data_full (df_a : list ARow) (dat_o : list ORow)
    (y_values : list Z) (e_values : list string) (vola2 : gmap string Q)
    (loss_max : Q) (out : ArcOut) :
  _extract_arc_data df_a dat_o y_values e_values vola2 loss_max = Ok (Ret16 out) →
  let work := arc_work df_a in
  let a_values := sorted_set (map aw_a work) in
  let opp0 := build_opp (arc_endpoints work a_values) a_values in
  ao_a_values out = a_values ∧
  ao_arc_nodes out = sorted_set (map aw_start work ++ map aw_end work) ∧
  ao_arc_fuels out = sorted_set (map aw_f work) ∧
  ao_opp out = (opp_defaults a_values (opp0, build_opp_map opp0 a_values)).1 ∧
  ao_st out
  = arc_finish a_values (all_fuels_of e_values (sorted_set (map aw_f work)))
      y_values opp0
      (arc_before_propagation df_a dat_o y_values e_values vola2 loss_max).
Proof.
  unfold _extract_arc_data. destruct df_a as [|r df_a]; [discriminate|].
  destruct (Qle_bool _ 0); [discriminate|].
  destruct (Qle_bool _ 0); [discriminate|].
  destruct (opp_defaults _ _) as [opp opp_map] eqn:Eopp.
  intros [= <-]. cbv zeta.
  cbn [ao_a_values ao_arc_nodes ao_arc_fuels ao_opp ao_st]. done.
Qed.

(** In [sorted(set(xs))], what comes before an element is smaller. *)
Lemma sorted_set_split (l : list string) (x : string) :
  x ∈ sorted_set l →
  ∃ l1 l2, sorted_set l = l1 ++ x :: l2 ∧ (x ∉ l1) ∧ ∀ z, z ∈ l1 → String.le z x.
Proof.
  intros Hx. pose proof (NoDup_sorted_set l) as Hnd.
  pose proof (StronglySorted_merge_sort String.le (remove_dups l)) as Hs.
  fold (sorted_set l) in Hs.
  apply list_elem_of_split in Hx as (l1 & l2 & Heq). rewrite Heq in Hnd, Hs.
  exists l1, l2. split_and!; [done| |].
  - apply NoDup_app in Hnd as (_ & Hnot & _). intros Hin.
    apply (Hnot x Hin). left.
  - intros z Hz. apply (StronglySorted_app_1_elem_of _ _ _ z x Hs Hz). left.
Qed.

Lemma ret16_Some (r : res ArcRet) (out : ArcOut) :
  ret16 r = Some out → r = Ok (Ret16 out).
Proof. destruct r as [[|o]|e]; simpl; congruence. Qed.

(** The tables of the extractor are the passes run on the arcs' own
    values; [opp] relates distinct arcs only. *)
Lemma _extract_arc_data_passes (df_a : list ARow) (dat_o : list ORow)
    (y_values : list Z) (e_values : list string) (vola2 : gmap string Q)
    (loss_max : Q) (out : ArcOut) :
  _extract_arc_data df_a dat_o y_values e_values vola2 loss_max = Ok (Ret16 out) →
  (∃ l, ao_a_values out = sorted_set l) ∧
  (∀ a, dget 0%Z (ao_opp out) (a, a) ≠ 1%Z) ∧
  ao_st out
  = arc_finish (ao_a_values out) (all_fuels_of e_values (ao_arc_fuels out))
      y_values (ao_opp out)
      (arc_before_propagation df_a dat_o y_values e_values vola2 loss_max).
Proof.
  intros Hex.
  destruct (_extract_arc_data_full _ _ _ _ _ _ _ Hex) as (Ha & _ & Hf & Ho & Hst).
  set (work := arc_work df_a) in *.
  set (a_values := sorted_set (map aw_a work)) in *.
  set (opp0 := build_opp (arc_endpoints work a_values) a_values) in *.
  assert (Hread : ∀ k, dget 0%Z (ao_opp out) k = dget 0%Z opp0 k).
  { intros k. rewrite Ho. apply opp_defaults_reads. }
  split_and!.
  - by exists (map aw_a work).
  - intros a. rewrite Hread. unfold dget.
    destruct (opp0 !! (a, a)) as [v|] eqn:E; [|done].
    by apply build_opp_sound in E as (_ & _ & _ & Hne & _).
  - rewrite Hst, Ha, Hf. symmetry. by apply arc_finish_opp_ext.
Qed.

(** C1 (amended): the tables [_extract_arc_data] returns are its passes
    run on the arcs' own values.  The passes compare and copy the stored
    values and compute nothing, so the property is stated for the tables
    [before] as they stand when the passes start, whatever values they
    hold.  Let [ai] and [ao] be opposite arcs with no parallel arc in
    either direction, and let c_a(ai,f,y) > 0 and c_a(ao,f,y) <= 1e-5 in
    [before].  If the forward record is not itself overwritten first
    ([ai] sorts before [ao], or no fuel and year passes the test from
    [ao] to [ai]), then after extraction c_a, c_ax, c_ab at (ao,f,y),
    f_ab(ao,y), e_a(ao,f) and is_bid(ao) are the values [ai] had in
    [before], and [ai] still has them: the copy of the other five is
    decided by the test on c_a alone. *)
Theorem opposite_arc_inherits (df_a : list ARow) (dat_o : list ORow)
    (y_values : list Z) (e_values : list string) (vola2 : gmap string Q)
    (loss_max : Q) (out : ArcOut) :
  _extract_arc_data df_a dat_o y_values e_values vola2 loss_max = Ok (Ret16 out) →
  let a_values := ao_a_values out in
  let all_fuels := all_fuels_of e_values (ao_arc_fuels out) in
  let passes := arc_finish a_values all_fuels y_values (ao_opp out) in
  let own := arc_before_propagation df_a dat_o y_values e_values vola2 loss_max in
  (ao_st out = passes own ∧ own_wf own) ∧
  ∀ (before : ArcSt) (ai ao f : string) (y : Z),
    own_wf before →
    ai ∈ a_values → ao ∈ a_values → f ∈ all_fuels → y ∈ y_values →
    dget 0%Z (ao_opp out) (ai, ao) = 1%Z →
    (∀ x, x ∈ a_values → dget 0%Z (ao_opp out) (x, ao) = 1%Z → x = ai) →
    (∀ x, x ∈ a_values → dget 0%Z (ao_opp out) (x, ai) = 1%Z → x = ao) →
    copy_test before ai ao f y →
    (String.le ai ao ∨
     ∀ f' y', f' ∈ all_fuels → y' ∈ y_values → ¬ copy_test before ao ai f' y') →
    flow_reads (passes before) ao f y = flow_reads before ai f y ∧
    flow_reads (passes before) ai f y = flow_reads before ai f y.
Proof.
  intros Hex a_values all_fuels passes own.
  destruct (_extract_arc_data_passes _ _ _ _ _ _ _ Hex) as ([l Hl] & Hirr & Hst).
  split; [split; [done|apply arc_before_propagation_wf]|].
  intros before ai ao f y Hwf Hai Hao Hf Hy Hopp Hfwd Hbwd [Hpos Hlow] Horder.
  assert (Hne : ai ≠ ao).
  { intros ->. by apply (Hirr ao). }
  assert (Hsplit : ∃ l1 l2, a_values = l1 ++ ai :: l2 ∧ (ai ∉ l1) ∧
            (ao ∉ l1 ∨ ∀ f' y', f' ∈ all_fuels → y' ∈ y_values →
                                ¬ copy_test before ao ai f' y')).
  { unfold a_values in *. rewrite Hl in Hai |- *.
    destruct (sorted_set_split l ai Hai) as (l1 & l2 & Heq & Hnot & Hle).
    exists l1, l2. split_and!; [done|done|].
    destruct Horder as [Hle'|Hback]; [left|by right].
    intros Hin. apply Hne. apply (anti_symm String.le); [done|]. by apply Hle. }
  destruct Hsplit as (l1 & l2 & Heq & Hnot & Hback).
  assert (Hinv : pair_inv True True ai ao f y before).
  { destruct (Hwf ai f y (dget_pos_is_Some _ _ Hpos)) as [He Hb].
    split_and!; auto. }
  destruct (propagate_inherits a_values all_fuels y_values (ao_opp out) ai ao f y
              before Hne Hfwd Hbwd l1 l2 Heq Hnot Hback Hao Hf Hy Hopp Hinv)
    as [(_ & _ & _ & Hm) Hkept].
  apply mirrors_flow_reads in Hm.
  pose proof (arc_finish_same_reads a_values all_fuels y_values (ao_opp out) before)
    as Hsame.
  unfold passes.
  rewrite !(same_reads_flow_reads _ _ _ _ _ Hsame). split; [|done].
  by rewrite Hm.
Qed.

(** C1, as stated, fails in four ways.  With two parallel arcs A1 and
    A2 opposite to B, B takes the cost of A1, the first in sorted order,
    and not that of A2.  With the flow cost at zero everywhere, B's zero
    expansion cost is not replaced by the positive one of A.  With both
    records of a pipe priced below 1e-5, the pass first copies A onto B:
    B has a positive cost and A a cost below 1e-5, yet A does not take
    the values of B, and B loses its own cost and flag.  With a second
    arc A2 opposite to B and priced below B, B is overwritten by A2
    before it is copied onto A1, which is left at zero and has B as its
    only opposite arc: A1 ends with the cost of A2. *)
Lemma opposite_arc_not_inherited :
  (let before := arc_before_propagation parallel_arcs flow_priced [2025%Z] ["G"] ∅ 0 in
   match ret16 (_extract_arc_data parallel_arcs flow_priced [2025%Z] ["G"] ∅ 0) with
   | Some out =>
       dget 0%Z (ao_opp out) ("A2", "B") = 1%Z ∧
       0 < dget 0 (st_c_a before) ("A2", "G", 2025%Z) ∧
       dget 0 (st_c_a before) ("B", "G", 2025%Z) <= tol ∧
       ¬ dget 0 (st_c_a (ao_st out)) ("B", "G", 2025%Z)
         == dget 0 (st_c_a before) ("A2", "G", 2025%Z) ∧
       ¬ dget 0 (st_c_a (ao_st out)) ("B", "G", 2025%Z)
         == dget 0 (st_c_a (ao_st out)) ("A2", "G", 2025%Z)
   | None => False
   end) ∧
  (let before := arc_before_propagation one_pipe expansion_priced [2025%Z] ["G"] ∅ 0 in
   match ret16 (_extract_arc_data one_pipe expansion_priced [2025%Z] ["G"] ∅ 0) with
   | Some out =>
       dget 0%Z (ao_opp out) ("A", "B") = 1%Z ∧
       0 < dget 0 (st_c_ax before) ("A", "G", 2025%Z) ∧
       dget 0 (st_c_ax before) ("B", "G", 2025%Z) == 0 ∧
       ¬ dget 0 (st_c_ax (ao_st out)) ("B", "G", 2025%Z)
         == dget 0 (st_c_ax before) ("A", "G", 2025%Z)
   | None => False
   end) ∧
  (let before := arc_before_propagation short_pipes other_long_std [2025%Z] ["G"] ∅ 0 in
   match ret16 (_extract_arc_data short_pipes other_long_std [2025%Z] ["G"] ∅ 0) with
   | Some out =>
       ao_a_values out = ["A"; "B"] ∧
       dget 0%Z (ao_opp out) ("B", "A") = 1%Z ∧
       0 < dget 0 (st_c_a before) ("B", "G", 2025%Z) ∧
       dget 0 (st_c_a before) ("A", "G", 2025%Z) <= tol ∧
       ¬ dget 0 (st_c_a (ao_st out)) ("A", "G", 2025%Z)
         == dget 0 (st_c_a before) ("B", "G", 2025%Z) ∧
       dget 0%Z (st_is_bid before) "B" = 1%Z ∧
       dget 0%Z (st_is_bid (ao_st out)) "A" = 0%Z ∧
       dget 0 (st_c_a (ao_st out)) ("B", "G", 2025%Z)
       = dget 0 (st_c_a before) ("A", "G", 2025%Z) ∧
       dget 0%Z (st_is_bid (ao_st out)) "B" = 0%Z
   | None => False
   end) ∧
  (let before := arc_before_propagation forked_pipes other_long_std [2025%Z] ["G"] ∅ 0 in
   match ret16 (_extract_arc_data forked_pipes other_long_std [2025%Z] ["G"] ∅ 0) with
   | Some out =>
       ao_a_values out = ["A1"; "A2"; "B"] ∧
       dget 0%Z (ao_opp out) ("B", "A1") = 1%Z ∧
       dget 0%Z (ao_opp out) ("A1", "A1") = 0%Z ∧
       dget 0%Z (ao_opp out) ("A2", "A1") = 0%Z ∧
       dget 0%Z (ao_opp out) ("A2", "B") = 1%Z ∧
       0 < dget 0 (st_c_a before) ("B", "G", 2025%Z) ∧
       dget 0 (st_c_a before) ("A1", "G", 2025%Z) == 0 ∧
       ¬ dget 0 (st_c_a (ao_st out)) ("A1", "G", 2025%Z)
         == dget 0 (st_c_a before) ("B", "G", 2025%Z) ∧
       dget 0 (st_c_a (ao_st out)) ("A1", "G", 2025%Z)
       = dget 0 (st_c_a before) ("A2", "G", 2025%Z)
   | None => False
   end).
Proof.
  vm_compute. repeat split; intros; discriminate.
Qed.

Lemma flagged_pipe_extracts :
  from_option (λ _, true) false
    (ret16 (_extract_arc_data flagged_pipe other_full [2025; 2030]%Z ["G"] ∅ (1 # 2)))
  = true.
Proof. vm_compute. reflexivity. Qed.

Lemma reverse_pipe_extracts :
  from_option (λ _, true) false
    (ret16 (_extract_arc_data reverse_pipe other_full [2025; 2030]%Z ["G"] ∅ (1 # 2)))
  = true.
Proof. vm_compute. reflexivity. Qed.

(** On [flagged_pipe] the reverse record B takes the values of A, which
    sorts first; on [reverse_pipe] the record A takes the values of B,
    which sorts last but is not overwritten, A having no positive cost.
    In both, the own values of the two records differ. *)
Lemma opposite_arc_inherits_witness :
  let extract df_a :=
    _extract_arc_data df_a other_full [2025; 2030]%Z ["G"] ∅ (1 # 2) in
  let own df_a :=
    arc_before_propagation df_a other_full [2025; 2030]%Z ["G"] ∅ (1 # 2) in
  match ret16 (extract flagged_pipe), ret16 (extract reverse_pipe) with
  | Some out, Some out' =>
      (flow_reads (own flagged_pipe) "B" "G" 2030%Z
       ≠ flow_reads (own flagged_pipe) "A" "G" 2030%Z ∧
       flow_reads (ao_st out) "B" "G" 2030%Z
       = flow_reads (own flagged_pipe) "A" "G" 2030%Z) ∧
      (flow_reads (own reverse_pipe) "A" "G" 2030%Z
       ≠ flow_reads (own reverse_pipe) "B" "G" 2030%Z ∧
       flow_reads (ao_st out') "A" "G" 2030%Z
       = flow_reads (own reverse_pipe) "B" "G" 2030%Z)
  | _, _ => False
  end.
Proof.
  cbv beta zeta.
  pose proof flagged_pipe_extracts as Hsome.
  destruct (ret16 (_extract_arc_data flagged_pipe _ _ _ _ _)) as [out|] eqn:E;
    [|discriminate Hsome].
  clear Hsome. pose proof reverse_pipe_extracts as Hsome.
  destruct (ret16 (_extract_arc_data reverse_pipe _ _ _ _ _)) as [out'|] eqn:E';
    [|discriminate Hsome].
  clear Hsome. split; (split; [vm_compute; discriminate|]).
  - assert (Ha : ao_a_values out
                 = default [] (ao_a_values <$> ret16
                     (_extract_arc_data flagged_pipe other_full [2025; 2030]%Z
                        ["G"] ∅ (1 # 2)))).
    { by rewrite E. }
    assert (Ho : ∀ k, dget 0%Z (ao_opp out) k
                      = dget 0%Z (default ∅ (ao_opp <$> ret16
                          (_extract_arc_data flagged_pipe other_full [2025; 2030]%Z
                             ["G"] ∅ (1 # 2)))) k).
    { intros k. by rewrite E. }
    destruct (opposite_arc_inherits flagged_pipe other_full [2025; 2030]%Z ["G"] ∅ (1 # 2)
                out (ret16_Some _ _ E)) as [[Hst Hwf] Hpass].
    rewrite Hst.
    apply (Hpass _ "A" "B" "G" 2030%Z Hwf).
    + rewrite Ha. vm_compute. left.
    + rewrite Ha. vm_compute. right. left.
    + apply elem_of_sorted_set. left.
    + right. left.
    + rewrite Ho. by vm_compute.
    + intros x Hx. rewrite Ha in Hx. rewrite Ho. vm_compute in Hx.
      apply elem_of_cons in Hx as [->|Hx]; [intros _; reflexivity|].
      apply elem_of_cons in Hx as [->|Hx]; [vm_compute; discriminate|].
      apply elem_of_nil in Hx. destruct Hx.
    + intros x Hx. rewrite Ha in Hx. rewrite Ho. vm_compute in Hx.
      apply elem_of_cons in Hx as [->|Hx]; [vm_compute; discriminate|].
      apply elem_of_cons in Hx as [->|Hx]; [intros _; reflexivity|].
      apply elem_of_nil in Hx. destruct Hx.
    + split; [by vm_compute|vm_compute; discriminate].
    + left. by vm_compute.
  - assert (Ha : ao_a_values out'
                 = default [] (ao_a_values <$> ret16
                     (_extract_arc_data reverse_pipe other_full [2025; 2030]%Z
                        ["G"] ∅ (1 # 2)))).
    { by rewrite E'. }
    assert (Ho : ∀ k, dget 0%Z (ao_opp out') k
                      = dget 0%Z (default ∅ (ao_opp <$> ret16
                          (_extract_arc_data reverse_pipe other_full
                             [2025; 2030]%Z ["G"] ∅ (1 # 2)))) k).
    { intros k. by rewrite E'. }
    destruct (opposite_arc_inherits reverse_pipe other_full [2025; 2030]%Z ["G"]
                ∅ (1 # 2) out' (ret16_Some _ _ E')) as [[Hst Hwf] Hpass].
    rewrite Hst.
    apply (Hpass _ "B" "A" "G" 2030%Z Hwf).
    + rewrite Ha. vm_compute. right. left.
    + rewrite Ha. vm_compute. left.
    + apply elem_of_sorted_set. left.
    + right. left.
    + rewrite Ho. by vm_compute.
    + intros x Hx. rewrite Ha in Hx. rewrite Ho. vm_compute in Hx.
      apply elem_of_cons in Hx as [->|Hx]; [vm_compute; discriminate|].
      apply elem_of_cons in Hx as [->|Hx]; [intros _; reflexivity|].
      apply elem_of_nil in Hx. destruct Hx.
    + intros x Hx. rewrite Ha in Hx. rewrite Ho. vm_compute in Hx.
      apply elem_of_cons in Hx as [->|Hx]; [intros _; reflexivity|].
      apply elem_of_cons in Hx as [->|Hx]; [vm_compute; discriminate|].
      apply elem_of_nil in Hx. destruct Hx.
    + split; [by vm_compute|vm_compute; discriminate].
    + right. intros f' y' Hf' Hy' [Hpos _].
      assert (Hfu : ao_arc_fuels out'
                    = default [] (ao_arc_fuels <$> ret16
                        (_extract_arc_data reverse_pipe other_full
                           [2025; 2030]%Z ["G"] ∅ (1 # 2)))).
      { by rewrite E'. }
      rewrite Hfu in Hf'. vm_compute in Hf'.
      apply list_elem_of_singleton in Hf' as ->. revert Hpos.
      apply elem_of_cons in Hy' as [->|Hy'].
      { vm_compute. discriminate. }
      apply list_elem_of_singleton in Hy' as ->. vm_compute. discriminate.
Defined.

(** ** Text normalisation (utils.py, param_table.py, data_loading.py) *)

Lemma is_space_upper (c : ascii) : is_space (upper_ascii c) = is_space c.
Proof. destruct c as [[] [] [] [] [] [] [] []]; reflexivity. Qed.

Lemma is_space_lower (c : ascii) : is_space (lower_ascii c) = is_space c.
Proof. destruct c as [[] [] [] [] [] [] [] []]; reflexivity. Qed.

Lemma upper_ascii_idem (c : ascii) : upper_ascii (upper_ascii c) = upper_ascii c.
Proof. destruct c as [[] [] [] [] [] [] [] []]; reflexivity. Qed.

Lemma lower_ascii_idem (c : ascii) : lower_ascii (lower_ascii c) = lower_ascii c.
Proof. destruct c as [[] [] [] [] [] [] [] []]; reflexivity. Qed.

Lemma map_string_idem (g : ascii → ascii) (s : string) :
  (∀ c, g (g c) = g c) → map_string g (map_string g s) = map_string g s.
Proof. intros Hg. induction s as [|c s IH]; simpl; [done|]. by rewrite Hg, IH. Qed.

Lemma lstrip_map_string (g : ascii → ascii) (s : string) :
  (∀ c, is_space (g c) = is_space c) →
  lstrip (map_string g s) = map_string g (lstrip s).
Proof.
  intros Hg. induction s as [|c s IH]; simpl; [done|].
  rewrite Hg. by destruct (is_space c).
Qed.

Lemma rstrip_map_string (g : ascii → ascii) (s : string) :
  (∀ c, is_space (g c) = is_space c) →
  rstrip (map_string g s) = map_string g (rstrip s).
Proof.
  intros Hg. induction s as [|c s IH]; simpl; [done|].
  rewrite IH, Hg. destruct (rstrip s); simpl; [|done].
  by destruct (is_space c).
Qed.

Lemma strip_map_string (g : ascii → ascii) (s : string) :
  (∀ c, is_space (g c) = is_space c) →
  strip (map_string g s) = map_string g (strip s).
Proof.
  intros Hg. unfold strip.
  by rewrite rstrip_map_string, lstrip_map_string.
Qed.

Lemma lstrip_idem (s : string) : lstrip (lstrip s) = lstrip s.
Proof.
  induction s as [|c s IH]; simpl; [done|].
  destruct (is_space c) eqn:E; [done|]. simpl. by rewrite E.
Qed.

Lemma rstrip_idem (s : string) : rstrip (rstrip s) = rstrip s.
Proof.
  induction s as [|c s IH]; simpl; [done|].
  destruct (rstrip s) as [|c' r] eqn:E.
  - destruct (is_space c) eqn:Ec; simpl; [done|]. by rewrite Ec.
  - change (rstrip (String c (String c' r)))
      with (match rstrip (String c' r) with
            | EmptyString => if is_space c then EmptyString else String c EmptyString
            | r0 => String c r0
            end).
    by rewrite IH.
Qed.

Lemma rstrip_lstrip (s : string) : rstrip (lstrip s) = lstrip (rstrip s).
Proof.
  induction s as [|c s IH]; simpl; [done|].
  destruct (is_space c) eqn:Ec.
  - rewrite IH. destruct (rstrip s) as [|c' r]; simpl; by rewrite ?Ec.
  - simpl. destruct (rstrip s) as [|c' r]; simpl; by rewrite ?Ec.
Qed.

Lemma strip_idem (s : string) : strip (strip s) = strip s.
Proof.
  unfold strip. by rewrite rstrip_lstrip, rstrip_idem, lstrip_idem.
Qed.

Lemma strip_upper (s : string) : strip (upper s) = upper (strip s).
Proof. apply strip_map_string, is_space_upper. Qed.

Lemma strip_lower (s : string) : strip (lower s) = lower (strip s).
Proof. apply strip_map_string, is_space_lower. Qed.

Lemma upper_idem (s : string) : upper (upper s) = upper s.
Proof. apply map_string_idem, upper_ascii_idem. Qed.

Lemma lower_idem (s : string) : lower (lower s) = lower s.
Proof. apply map_string_idem, lower_ascii_idem. Qed.

Lemma norm_Some (s : string) : norm (Some s) = strip s.
Proof.
  unfold norm, _clean_str. cbv zeta.
  destruct (String.eqb (strip s) "") eqn:E; [|done].
  apply String.eqb_eq in E. by rewrite E.
Qed.

Lemma norm_idem (x : option string) : norm (Some (norm x)) = norm x.
Proof.
  rewrite norm_Some. destruct x as [s|]; [|done].
  by rewrite norm_Some, strip_idem.
Qed.

Lemma lower_norm_idem (x : option string) :
  lower (norm (Some (lower (norm x)))) = lower (norm x).
Proof.
  rewrite norm_Some, strip_lower, lower_idem.
  destruct x as [s|]; [|done]. by rewrite norm_Some, strip_idem.
Qed.

(** X1: a canonical fuel label is a fixed point of the normalisation:
    normalising a label that is already normalised changes nothing, so
    the label sets that the extractors build and normalise again (the
    regasification and storage fuels, the arc fuels) are stable. *)
Theorem _normalize_fuel_label_idem (raw : option string) :
  _normalize_fuel_label (Some (_normalize_fuel_label raw))
  = _normalize_fuel_label raw.
Proof.
  assert (Hfix : ∀ s, upper (strip (upper (strip s))) = upper (strip s)).
  { intros s. by rewrite strip_upper, upper_idem, strip_idem. }
  set (s := upper (strip (py_str raw))).
  assert (Hs : upper (strip s) = s) by apply Hfix.
  assert (Hin : _normalize_fuel_label raw
                = if bool_decide (s ∈ ["GAS"; "NATURAL_GAS"; "NATURALGAS"; "NG"])
                  then "G"
                  else if bool_decide (s ∈ ["HYDROGEN"; "H2"]) then "H"
                  else if bool_decide (s ∈ ["COAL"]) then "C" else s)
    by reflexivity.
  rewrite Hin.
  destruct (bool_decide (s ∈ ["GAS"; "NATURAL_GAS"; "NATURALGAS"; "NG"])) eqn:E1;
    [reflexivity|].
  destruct (bool_decide (s ∈ ["HYDROGEN"; "H2"])) eqn:E2; [reflexivity|].
  destruct (bool_decide (s ∈ ["COAL"])) eqn:E3; [reflexivity|].
  unfold _normalize_fuel_label. cbv zeta. simpl py_str.
  by rewrite Hs, E1, E2, E3.
Qed.

(** X2: every element of a cleaned list is stripped, non-empty and not
    one of the tokens nan / none / null in any letter case. *)
Theorem _clean_list_elements (values : option (list (option string))) (s : string) :
  s ∈ _clean_list values →
  s ≠ "" ∧ strip s = s ∧ lower s ∉ ["nan"; "none"; "null"].
Proof.
  destruct values as [vs|]; simpl; [|by intros ?%elem_of_nil].
  rewrite elem_of_sorted_set, list_elem_of_filter.
  intros [Hne Hin]. apply elem_of_map in Hin as (value & Hs & _).
  split; [done|].
  destruct (bool_decide (lower match value with
                               | Some x => strip x
                               | None => ""
                               end ∈ ["nan"; "none"; "null"])) eqn:E;
    [done|].
  apply bool_decide_eq_false in E. subst s.
  split; [|done].
  destruct value as [x|]; [apply strip_idem|done].
Qed.

Lemma _clean_list_elements_witness :
  "N1" ≠ "" ∧ strip "N1" = "N1" ∧ lower "N1" ∉ ["nan"; "none"; "null"].
Proof.
  apply (_clean_list_elements (Some [Some " N1 "; Some "NaN"; None])).
  vm_compute. left.
Defined.

(** ** Parameter builders (param_table.py) *)

Lemma foldl_inv {A S : Type} (P : S → Prop) (g : S → A → S) (l : list A) (s : S) :
  P s → (∀ s x, x ∈ l → P s → P (g s x)) → P (foldl g s l).
Proof.
  revert s. induction l as [|x l IH]; intros s Hs Hstep; simpl; [done|].
  apply IH.
  - apply Hstep; [left|done].
  - intros s' y Hy. apply Hstep. by right.
Qed.

(** A dictionary filled row by row keeps, for every key, the value of
    the last row with that key. *)
Lemma foldl_insert_last {A K V : Type} `{Countable K} (key : A → K) (val : A → V)
    (l : list A) (m : gmap K V) (k : K) :
  foldl (λ acc r, <[key r := val r]> acc) m l !! k
  = match last (filter (λ r, key r = k) l) with
    | Some r => Some (val r)
    | None => m !! k
    end.
Proof.
  induction l as [|x l IH] using rev_ind; [done|].
  rewrite foldl_app, filter_app. simpl.
  destruct (decide (key x = k)) as [<-|Hne].
  - rewrite lookup_insert_eq, filter_cons_True by done.
    by rewrite filter_nil, last_snoc.
  - rewrite lookup_insert_ne, filter_cons_False by done.
    by rewrite filter_nil, app_nil_r.
Qed.

Lemma _prepare_dat_o_idem (dat_o : list ORow) :
  _prepare_dat_o (map as_raw (_prepare_dat_o dat_o)) = _prepare_dat_o dat_o.
Proof.
  unfold _prepare_dat_o. rewrite !map_map. apply map_ext. intros r. simpl.
  by rewrite lower_norm_idem, !norm_idem.
Qed.

Lemma build_penalty_lookup_prepared (dat_o : list ORow) :
  build_penalty_lookup (map as_raw (_prepare_dat_o dat_o))
  = build_penalty_lookup dat_o.
Proof. unfold build_penalty_lookup. by rewrite _prepare_dat_o_idem. Qed.

(** X3: the penalty lookup holds, for every key (z, e), the value of
    the last penalty row of the cleaned table with these indices, and
    has no entry for a key that no penalty row carries: where rows
    repeat a key, the last one wins. *)
Theorem build_penalty_lookup_last_row (dat_o : list ORow) (z e : string) :
  build_penalty_lookup dat_o !! (z, e)
  = p_value <$>
      last (filter (λ r, (p_indx1 r, p_indx2 r) = (z, e))
              (filter (λ r, is_penalty_row r = true) (_prepare_dat_o dat_o))).
Proof.
  unfold build_penalty_lookup. cbv zeta.
  rewrite (foldl_insert_last (λ r, (p_indx1 r, p_indx2 r)) p_value).
  by destruct (last _).
Qed.

(** X4: every row of the penalty table [c_z] has a non-empty class, and
    its price is the fall-back chain of [penalty_value] over the lookup
    of the raw table: cleaning the table a second time, as [build_c_z]
    does when it calls [build_penalty_lookup] on its cleaned copy,
    changes nothing.  With no domain given, the class is the first index
    of some penalty row. *)
Theorem build_c_z_rows (dat_o : list ORow) (z_values e_values : option (list string))
    (row : CzRow) :
  row ∈ build_c_z dat_o z_values e_values →
  cz_z row ≠ "" ∧
  cz_val row = penalty_value (build_penalty_lookup dat_o) (cz_z row) (cz_e row) ∧
  (z_values = None →
   ∃ r, r ∈ _prepare_dat_o dat_o ∧ is_penalty_row r = true ∧ p_indx1 r = cz_z row).
Proof.
  unfold build_c_z. cbv zeta. rewrite build_penalty_lookup_prepared.
  intros Hrow. apply list_elem_of_bind in Hrow as (z & Hrow & Hz).
  apply list_elem_of_bind in Hrow as (e & Hrow & He).
  apply list_elem_of_singleton in Hrow as ->. simpl.
  split_and!; [|done|].
  - destruct z_values as [zs|];
      apply elem_of_sorted_set, list_elem_of_filter in Hz as [Hne _]; done.
  - intros ->. apply elem_of_sorted_set, list_elem_of_filter in Hz as [_ Hz].
    apply elem_of_map in Hz as (r & -> & Hr).
    apply list_elem_of_filter in Hr as [Hp Hr]. eauto.
Qed.

Lemma build_c_z_rows_witness :
  "ZD2" ≠ "" ∧
  7 = penalty_value
        (build_penalty_lookup [orow "Penalty" (Some "ZD2") None 7]) "ZD2" "" ∧
  (@None (list string) = None →
   ∃ r, r ∈ _prepare_dat_o [orow "Penalty" (Some "ZD2") None 7] ∧
        is_penalty_row r = true ∧ p_indx1 r = "ZD2").
Proof.
  apply (build_c_z_rows [orow "Penalty" (Some "ZD2") None 7] None None
           (mkCzRow "ZD2" "" 7)).
  vm_compute. left.
Defined.

Lemma first_positive_spec (vals : list Q) :
  (first_positive vals = 0 ∧ ∀ v, v ∈ vals → v <= 0) ∨
  (0 < first_positive vals ∧
   ∃ l1 l2, vals = l1 ++ first_positive vals :: l2 ∧ ∀ v, v ∈ l1 → v <= 0).
Proof.
  induction vals as [|v vals IH]; simpl.
  - left. split; [done|]. by intros v ?%elem_of_nil.
  - destruct (Qgtb v 0) eqn:E.
    + right. apply Qgtb_true in E. split; [done|].
      exists [], vals. split; [done|]. by intros w ?%elem_of_nil.
    + apply Qgtb_false in E. destruct IH as [[H0 Hall]|[Hpos (l1 & l2 & Heq & Hall)]].
      * left. split; [done|]. intros w [->|Hw]%elem_of_cons; auto.
      * right. split; [done|]. exists (v :: l1), l2. split.
        -- simpl. by rewrite <- Heq.
        -- intros w [->|Hw]%elem_of_cons; auto.
Qed.

(** X5: a scalar parameter is never negative: it is 0.0 exactly when no
    row of that name has a strictly positive value, and otherwise it is
    the value of the first such row, all rows of that name before it
    being non-positive. *)
Theorem build_scalar_param_first_positive (dat_o : list ORow) (param_name : string) :
  let rows := filter (λ r, p_param r = lower (norm (Some param_name)))
                     (_prepare_dat_o dat_o) in
  let v := build_scalar_param dat_o param_name in
  (v = 0 ∧ ∀ r, r ∈ rows → p_value r <= 0) ∨
  (0 < v ∧ ∃ l1 r l2, rows = l1 ++ r :: l2 ∧ p_value r = v ∧
                       ∀ r', r' ∈ l1 → p_value r' <= 0).
Proof.
  intros rows v. unfold v, build_scalar_param. cbv zeta. fold rows.
  destruct (first_positive_spec (map p_value rows))
    as [[H0 Hall]|[Hpos (l1 & l2 & Heq & Hall)]].
  - left. split; [done|]. intros r Hr. apply Hall, elem_of_map. eauto.
  - right. split; [done|].
    apply map_eq_app in Heq as (k1 & k2 & Hrows & Hk1 & Hk2).
    apply map_eq_cons in Hk2 as (r & k3 & -> & Hr & Hk3).
    exists k1, r, k3. split_and!; [done|done|].
    intros r' Hr'. apply Hall. rewrite <- Hk1. apply elem_of_map. eauto.
Qed.

Lemma build_scalar_param_nonneg (dat_o : list ORow) (param_name : string) :
  0 <= build_scalar_param dat_o param_name.
Proof.
  unfold build_scalar_param. cbv zeta.
  destruct (first_positive_spec
              (map p_value
                 (filter (λ r, p_param r = lower (norm (Some param_name)))
                         (_prepare_dat_o dat_o))))
    as [[-> _]|[Hpos _]]; [done|by apply Qlt_le_weak].
Qed.

Lemma build_loss_max_nonneg (dat_o : list ORow) : 0 <= build_loss_max dat_o.
Proof.
  unfold build_loss_max. cbv zeta.
  destruct (Qgtb _ 0) eqn:E; [apply build_scalar_param_nonneg|done].
Qed.

(** X6: the scalars read from other.csv have the signs the formulas
    rely on: the discount rate is strictly positive (0.02 when no
    positive value is given), and bigM, the year step and the maximum
    loss are never negative. *)
Theorem scalar_params_signs (dat_o : list ORow) :
  0 < build_disc_rate dat_o ∧ 0 <= build_loss_max dat_o ∧
  0 <= build_bigM dat_o ∧ 0 <= build_yearstep dat_o.
Proof.
  split_and!; [|apply build_loss_max_nonneg|apply build_scalar_param_nonneg
               |apply build_scalar_param_nonneg].
  unfold build_disc_rate. cbv zeta.
  destruct (Qgtb _ 0) eqn:E; [by apply Qgtb_true in E|done].
Qed.

(** X7: the conversion factor vola2(e) is never zero, and every
    non-empty cleaned fuel of the given domain has one. *)
Theorem build_vola2_nonzero (dat_o : list ORow) (e_values : list string) :
  (∀ e v, build_vola2 dat_o e_values !! e = Some v → ¬ v == 0) ∧
  (∀ e, e ∈ e_values → norm (Some e) ≠ "" →
        is_Some (build_vola2 dat_o e_values !! norm (Some e))).
Proof.
  unfold build_vola2. cbv zeta.
  set (rows := filter (λ r, p_param r = "vola2") (_prepare_dat_o dat_o)).
  set (e_domain := sorted_set _).
  set (result := foldl (λ (acc : gmap string Q) e, <[e := 1]> acc) ∅ e_domain).
  assert (Hres : (∀ e v, result !! e = Some v → ¬ v == 0) ∧
                 (∀ e, e ∈ e_domain → is_Some (result !! e))).
  { unfold result.
    assert (Hgen : ∀ (l : list string) (m : gmap string Q),
              (∀ e v, m !! e = Some v → ¬ v == 0) →
              (∀ e v, foldl (λ acc e, <[e := 1]> acc) m l !! e = Some v → ¬ v == 0) ∧
              (∀ e, e ∈ l ∨ is_Some (m !! e) →
                    is_Some (foldl (λ acc e, <[e := 1]> acc) m l !! e))).
    { induction l as [|x l IH]; intros m Hm; simpl.
      - split; [done|]. intros e [?%elem_of_nil|?]; done.
      - destruct (IH (<[x := 1]> m)) as [IH1 IH2].
        + intros e v. rewrite lookup_insert. case_decide; [|by apply Hm].
          intros [= <-]. discriminate.
        + split; [done|]. intros e He. apply IH2.
          rewrite lookup_insert. case_decide; [right; by eauto|].
          destruct He as [[->|He]%elem_of_cons|He]; [done|by left|by right]. }
    destruct (Hgen e_domain ∅) as [G1 G2]; [by intros e v; rewrite lookup_empty|].
    split; [done|]. intros e He. apply G2. by left. }
  destruct Hres as [Hnz Hdom].
  split.
  - apply (foldl_inv (λ m : gmap string Q, ∀ e v, m !! e = Some v → ¬ v == 0));
      [done|].
    intros m r _ Hm.
    destruct (String.eqb (p_indx1 r) ""); [done|].
    destruct (Qeq_bool (p_value r) 0) eqn:E; [done|].
    intros e v. rewrite lookup_insert. case_decide; [|by apply Hm].
    intros [= <-]. intros Hq. apply Qeq_bool_iff in Hq. congruence.
  - intros e He Hne.
    apply (foldl_inv (λ m : gmap string Q, is_Some (m !! norm (Some e)))).
    + apply Hdom. apply elem_of_sorted_set, list_elem_of_filter. split; [done|].
      apply elem_of_map. eauto.
    + intros m r _ Hm.
      destruct (String.eqb (p_indx1 r) ""); [done|].
      destruct (Qeq_bool (p_value r) 0); [done|].
      rewrite lookup_insert. case_decide; [by eauto|done].
Qed.

Lemma build_vola2_nonzero_witness :
  is_Some (build_vola2 [orow "vola2" (Some "G") None 0] [" G "]
             !! norm (Some " G ")).
Proof.
  apply (build_vola2_nonzero [orow "vola2" (Some "G") None 0] [" G "]).
  - left.
  - vm_compute. discriminate.
Defined.

(** X8: the pair parameters c_bl and ub_bl: the table has an entry for
    exactly the pairs of non-empty cleaned fuels of the given domain,
    and every entry is either a strictly positive value read from the
    rows of that parameter or the global default of its ('', '') row. *)
Theorem pair_param_global_default (dat_o : list ORow) (param_name : string)
    (es : list string) (e f : string) :
  let rows := filter (λ r, p_param r = lower (norm (Some param_name)))
                     (_prepare_dat_o dat_o) in
  let e_domain := filter (λ e, e ≠ "") (map (λ e, norm (Some e)) es) in
  let result := _build_pair_param_with_global_default dat_o param_name (Some es) in
  (e ∈ e_domain → f ∈ e_domain →
   ∃ v, result !! (e, f) = Some v ∧
        ((0 < v ∧ pair_lookup rows !! (e, f) = Some v) ∨ v = pair_default rows)) ∧
  (is_Some (result !! (e, f)) → e ∈ e_domain ∧ f ∈ e_domain).
Proof.
  intros rows e_domain result.
  unfold result, _build_pair_param_with_global_default. cbv zeta.
  fold rows. fold e_domain.
  set (P := λ v : Q, (0 < v ∧ pair_lookup rows !! (e, f) = Some v)
                     ∨ v = pair_default rows).
  set (body := λ e0 : string, for_each (sorted_set e_domain)
         (λ (f0 : string) (result0 : gmap (string * string) Q),
            <[(e0, f0) := if Qle_bool (dget 0 (pair_lookup rows) (e0, f0)) 0
                          then pair_default rows
                          else dget 0 (pair_lookup rows) (e0, f0)]> result0)).
  assert (Hval : P (if Qle_bool (dget 0 (pair_lookup rows) (e, f)) 0
                    then pair_default rows
                    else dget 0 (pair_lookup rows) (e, f))).
  { destruct (Qle_bool _ 0) eqn:E; [by right|]. left.
    assert (Hpos : 0 < dget 0 (pair_lookup rows) (e, f)).
    { apply Qnot_le_lt. intros Hle. apply Qle_bool_iff in Hle. congruence. }
    split; [done|]. apply dget_pos_is_Some in Hpos as [v Hv].
    unfold dget. by rewrite Hv. }
  split.
  - intros He Hf.
    apply (for_each_hit
             (λ m : gmap (string * string) Q, ∀ v, m !! (e, f) = Some v → P v)
             (λ m, ∃ v, m !! (e, f) = Some v ∧ P v)
             (sorted_set e_domain) body ∅ e).
    + by apply elem_of_sorted_set.
    + intros v. by rewrite lookup_empty.
    + intros e0 m _ Hm. unfold body.
      apply (for_each_inv
               (λ m : gmap (string * string) Q, ∀ v, m !! (e, f) = Some v → P v));
        [done|].
      intros f0 m0 _ Hm0 v. rewrite lookup_insert. case_decide; [|by apply Hm0].
      simplify_eq. by intros [= <-].
    + intros m Hm. unfold body.
      apply (for_each_hit
               (λ m : gmap (string * string) Q, ∀ v, m !! (e, f) = Some v → P v)
               (λ m, ∃ v, m !! (e, f) = Some v ∧ P v)
               (sorted_set e_domain) _ m f).
      * by apply elem_of_sorted_set.
      * done.
      * intros f0 m0 _ Hm0 v. rewrite lookup_insert. case_decide; [|by apply Hm0].
        simplify_eq. by intros [= <-].
      * intros m0 _. rewrite lookup_insert_eq. eauto.
      * intros f0 m0 _ (v & Hv & HP). rewrite lookup_insert.
        case_decide; [|by eauto]. simplify_eq. eauto.
    + intros e0 m _ (v & Hv & HP). unfold body.
      apply (for_each_inv (λ m, ∃ v, m !! (e, f) = Some v ∧ P v)); [by eauto|].
      intros f0 m0 _ (v0 & Hv0 & HP0). rewrite lookup_insert.
      case_decide; [|by eauto]. simplify_eq. eauto.
  - apply (for_each_inv
             (λ m : gmap (string * string) Q,
                is_Some (m !! (e, f)) → e ∈ e_domain ∧ f ∈ e_domain)).
    + rewrite lookup_empty. by intros [? ?].
    + intros e0 m He0 Hm. unfold body.
      apply (for_each_inv
             (λ m : gmap (string * string) Q,
                is_Some (m !! (e, f)) → e ∈ e_domain ∧ f ∈ e_domain)); [done|].
      intros f0 m0 Hf0 Hm0. rewrite lookup_insert. case_decide; [|done].
      simplify_eq. intros _. split; by apply elem_of_sorted_set.
Qed.

Lemma pair_param_global_default_witness :
  ∃ v, build_ub_bl [orow "BlendLim" None None (1 # 10);
                    orow "BlendLim" (Some "H") (Some "G") (-1)] (Some ["G"; "H"])
         !! ("H", "G") = Some v ∧
       ((0 < v ∧
         pair_lookup
           (filter (λ r, p_param r = lower (norm (Some "blendlim")))
              (_prepare_dat_o [orow "BlendLim" None None (1 # 10);
                               orow "BlendLim" (Some "H") (Some "G") (-1)]))
           !! ("H", "G") = Some v) ∨
        v = pair_default
              (filter (λ r, p_param r = lower (norm (Some "blendlim")))
                 (_prepare_dat_o [orow "BlendLim" None None (1 # 10);
                                  orow "BlendLim" (Some "H") (Some "G") (-1)]))).
Proof.
  apply (pair_param_global_default
           [orow "BlendLim" None None (1 # 10);
            orow "BlendLim" (Some "H") (Some "G") (-1)] "blendlim" ["G"; "H"]
           "H" "G").
  - vm_compute. right. left.
  - vm_compute. left.
Defined.

(** ** Time, consumption and production extractors (data_loading.py) *)

Lemma elem_of_hour_index (hc : list Z) (i : nat) (h : Z) :
  (i, h) ∈ hour_index hc → h ∈ hc.
Proof.
  unfold hour_index. intros Hin.
  apply elem_of_lookup_imap in Hin as (j & x & [= -> ->] & Hx).
  by eapply list_elem_of_lookup_2.
Qed.

(** The first strictly positive value of a list, if there is one. *)
Lemma head_filter_positive (vals : list Q) :
  match filter (λ v, Qgtb v 0 = true) vals with
  | x :: _ => 0 < x ∧ ∃ l1 l2, vals = l1 ++ x :: l2 ∧ ∀ v, v ∈ l1 → v <= 0
  | [] => ∀ v, v ∈ vals → v <= 0
  end.
Proof.
  induction vals as [|w vals IH]; [by intros v ?%elem_of_nil|].
  rewrite filter_cons. case_decide as Hw.
  - apply Qgtb_true in Hw. split; [done|].
    exists [], vals. split; [done|]. by intros v ?%elem_of_nil.
  - apply not_true_is_false, Qgtb_false in Hw.
    destruct (filter _ vals) as [|x l].
    + intros v [->|Hv]%elem_of_cons; auto.
    + destruct IH as (Hx & l1 & l2 & -> & Hl1). split; [done|].
      exists (w :: l1), l2. split; [done|].
      intros v [->|Hv]%elem_of_cons; auto.
Qed.

Lemma elem_of_casts (cells : list (option Q)) (z : Z) :
  Forall (λ c, ∀ v, c = Some v → in_int64 (py_trunc v)) cells →
  z ∈ map astype_int (somes cells) ↔ ∃ v, Some v ∈ cells ∧ py_trunc v = z.
Proof.
  intros Hrange. rewrite Forall_forall in Hrange.
  rewrite elem_of_map. unfold somes. split.
  - intros (v & -> & Hv). apply list_elem_of_omap in Hv as (c & Hc & Hid).
    simpl in Hid. subst c. exists v. split; [done|].
    symmetry. apply astype_int_in_range. by apply (Hrange (Some v)).
  - intros (v & Hv & <-). exists v. split.
    + symmetry. apply astype_int_in_range. by apply (Hrange (Some v)).
    + apply list_elem_of_omap. by exists (Some v).
Qed.

(** X9: the year and hour domains of timeseries.csv are the numeric
    years and hours of its rows, rounded toward zero, each once and in
    increasing order.  Exactly the hours of the domain have a scale factor.
    The factor of hour [h] is read from the rows whose hour equals [h]
    itself, so a row with a fractional hour gives its factor to no hour:
    it is the first strictly positive scaleup of these rows, and 1.0
    when they have none; it is strictly positive.  The cells are taken
    within the range of [int64]. *)
Theorem time_domains_and_scaleup (df_t : list TRow) :
  Forall (λ row, ∀ v, t_y row = Some v ∨ t_h row = Some v → in_int64 (py_trunc v))
         df_t →
  let r := _extract_time_domains df_t in
  (∀ y, y ∈ r.1.1 ↔ ∃ row v, row ∈ df_t ∧ t_y row = Some v ∧ py_trunc v = y) ∧
  (∀ h, h ∈ r.1.2 ↔ ∃ row v, row ∈ df_t ∧ t_h row = Some v ∧ py_trunc v = h) ∧
  NoDup r.1.1 ∧ StronglySorted Z.le r.1.1 ∧
  NoDup r.1.2 ∧ StronglySorted Z.le r.1.2 ∧
  (∀ h, is_Some (r.2 !! h) ↔ h ∈ r.1.2) ∧
  (∀ h x, r.2 !! h = Some x →
     let vals := somes (map t_scaleup (filter (λ row, hour_is h row = true) df_t)) in
     0 < x ∧
     ((x = 1 ∧ ∀ v, v ∈ vals → v <= 0) ∨
      (∃ l1 l2, vals = l1 ++ x :: l2 ∧ ∀ v, v ∈ l1 → v <= 0))).
Proof.
  intros Hrange.
  destruct df_t as [|r0 rows].
  { simpl. split_and!; try (by constructor);
      try (intros z; split;
           [by intros ?%elem_of_nil|by intros (row & v & ?%elem_of_nil & _)]).
    intros h. rewrite lookup_empty. split; [by intros [? ?]|by intros ?%elem_of_nil]. }
  unfold _extract_time_domains. cbv beta iota zeta. cbn [fst snd].
  set (df_t := r0 :: rows) in *.
  set (h_values := sorted_setZ (map astype_int (somes (map t_h df_t)))).
  set (chosen := λ h : Z,
         match filter (λ v, Qgtb v 0 = true)
                 (somes (map t_scaleup (filter (λ r, hour_is h r = true) df_t))) with
         | v :: _ => v
         | [] => 1
         end).
  assert (Hlook : ∀ h, foldl (λ acc h, <[h := chosen h]> acc) (∅ : gmap Z Q)
                         h_values !! h
                       = match last (filter (λ x, x = h) h_values) with
                         | Some x => Some (chosen x)
                         | None => None
                         end).
  { intros h. by rewrite (foldl_insert_last id chosen), lookup_empty. }
  assert (Hcells : ∀ (col : TRow → option Q),
            (∀ row v, col row = Some v → t_y row = Some v ∨ t_h row = Some v) →
            ∀ z, z ∈ sorted_setZ (map astype_int (somes (map col df_t)))
                 ↔ ∃ row v, row ∈ df_t ∧ col row = Some v ∧ py_trunc v = z).
  { intros col Hcol z. rewrite elem_of_sorted_setZ, elem_of_casts.
    - split.
      + intros (v & Hv & Hz). apply elem_of_map in Hv as (row & Hrow & Hin). eauto.
      + intros (row & v & Hin & Hrow & Hz). exists v. split; [|done].
        apply elem_of_map. eauto.
    - apply Forall_forall. intros c Hc v ->.
      apply elem_of_map in Hc as (row & Hrow & Hin).
      rewrite Forall_forall in Hrange. apply (Hrange row Hin). by apply Hcol. }
  split_and!.
  - apply Hcells. auto.
  - apply Hcells. auto.
  - apply NoDup_sorted_setZ.
  - apply (StronglySorted_merge_sort Z.le).
  - apply NoDup_sorted_setZ.
  - apply (StronglySorted_merge_sort Z.le).
  - intros h. fold chosen. rewrite Hlook. split.
    + destruct (last _) as [x|] eqn:E; [|by intros [? ?]]. intros _.
      apply last_Some_elem_of, list_elem_of_filter in E as [-> Hx]. done.
    + intros Hin.
      assert (Hne : filter (λ x, x = h) h_values ≠ []).
      { intros Hnil.
        exact (filter_nil_not_elem_of (λ x, x = h) _ h Hnil eq_refl Hin). }
      apply last_is_Some in Hne as [x ->]. eauto.
  - intros h x. fold chosen. rewrite Hlook.
    destruct (last _) as [h'|] eqn:E; [|done]. intros [= <-].
    apply last_Some_elem_of, list_elem_of_filter in E as [-> _].
    unfold chosen.
    set (vals := somes (map t_scaleup (filter (λ r, hour_is h r = true) df_t))).
    pose proof (head_filter_positive vals) as Hhead.
    destruct (filter _ vals) as [|x l].
    + split; [done|]. left. done.
    + destruct Hhead as [Hx Hsplit]. split; [done|]. by right.
Qed.

(** In [two_hours], hour 1 takes the factor 24 of its second row, hour 2
    has no positive factor, and the row of hour 3.5 is filed under hour 3
    but its factor 9 is not used. *)
Lemma time_domains_and_scaleup_witness :
  (∀ h, h ∈ (_extract_time_domains two_hours).1.2 ↔
        ∃ row v, row ∈ two_hours ∧ t_h row = Some v ∧ py_trunc v = h) ∧
  (_extract_time_domains two_hours).1.2 = [1; 2; 3]%Z ∧
  (_extract_time_domains two_hours).2 !! 1%Z = Some 24 ∧
  (_extract_time_domains two_hours).2 !! 2%Z = Some 1 ∧
  (_extract_time_domains two_hours).2 !! 3%Z = Some 1.
Proof.
  split; [|by vm_compute].
  apply (time_domains_and_scaleup two_hours).
  unfold two_hours.
  repeat (apply Forall_cons_2;
          [cbn; intros v [[= <-]|[= <-]]; vm_compute;
           (split; [discriminate|reflexivity])|]).
  apply Forall_nil_2.
Defined.

(** Every cell of the demand table is filed under a non-empty node and
    fuel, and its year, hour and fuel are in the domains that the
    consumption extractor reports with the table. *)
Lemma consumption_keys_wf (df_c : Wide) (n f : string) (y h : Z) (v : Q) :
  let r := _extract_consumption_data df_c in
  r.1.1.1 !! (n, f, y, h) = Some v →
  n ≠ "" ∧ f ≠ "" ∧ y ∈ r.1.1.2 ∧ h ∈ r.1.2 ∧ f ∈ r.2 ∧ h ∈ hour_cols df_c.
Proof.
  unfold _extract_consumption_data.
  destruct (w_rows df_c) as [|r0 rows] eqn:Erows.
  { simpl. by rewrite lookup_empty. }
  rewrite <- Erows. clear Erows r0 rows. simpl.
  rewrite elem_of_sorted_setZ, elem_of_sorted_setZ, elem_of_sorted_set.
  set (P := λ acc : ConsAcc,
         ∀ v, ca_dmd acc !! (n, f, y, h) = Some v →
              n ≠ "" ∧ f ≠ "" ∧ y ∈ ca_y acc ∧ h ∈ ca_h acc ∧ f ∈ ca_f acc
              ∧ h ∈ hour_cols df_c).
  revert v. change (P (foldl
    (λ acc row,
       let n := strip (py_str (w_n row)) in
       let f := strip (py_str (w_f row)) in
       match w_y row with
       | None => acc
       | Some y =>
           if bool_decide (n = "" ∨ f = "") then acc
           else
             let acc :=
               mkConsAcc (ca_dmd acc) (y :: ca_y acc) (ca_h acc) (f :: ca_f acc) in
             foldl (λ acc ih,
                      let '(i, h) := ih in
                      let v := num_or 0 (cell row i) in
                      mkConsAcc (<[(n, f, y, h) := v]> (ca_dmd acc))
                                (ca_y acc) (h :: ca_h acc) (ca_f acc))
                   acc (hour_index (hour_cols df_c))
       end)
    (mkConsAcc ∅ [] [] []) (w_rows df_c))).
  apply foldl_inv.
  { intros v. simpl. by rewrite lookup_empty. }
  intros acc row _ Hacc. cbv zeta.
  destruct (w_y row) as [y0|]; [|done].
  case_bool_decide as Hblank; [done|].
  assert (Hn0 : strip (py_str (w_n row)) ≠ "") by (intros ?; apply Hblank; by left).
  assert (Hf0 : strip (py_str (w_f row)) ≠ "") by (intros ?; apply Hblank; by right).
  set (Q0 := λ acc : ConsAcc,
         P acc ∧ y0 ∈ ca_y acc ∧ strip (py_str (w_f row)) ∈ ca_f acc).
  enough (HQ : Q0 (foldl
            (λ acc ih,
               let '(i, h) := ih in
               let v := num_or 0 (cell row i) in
               mkConsAcc (<[(strip (py_str (w_n row)), strip (py_str (w_f row)),
                             y0, h) := v]> (ca_dmd acc))
                         (ca_y acc) (h :: ca_h acc) (ca_f acc))
            (mkConsAcc (ca_dmd acc) (y0 :: ca_y acc) (ca_h acc)
                       (strip (py_str (w_f row)) :: ca_f acc))
            (hour_index (hour_cols df_c)))) by apply HQ.
  apply foldl_inv.
  - split_and!; [|left|left]. intros v Hv. simpl in *.
    destruct (Hacc v Hv) as (? & ? & ? & ? & ? & ?).
    split_and!; try done; by right.
  - intros acc' [i h0] Hih (HP & Hy & Hf). apply elem_of_hour_index in Hih.
    split_and!; [|done|done].
    intros v. simpl. rewrite lookup_insert. case_decide as Hk.
    + simplify_eq. intros _. split_and!; try done. left.
    + intros Hv. destruct (HP v Hv) as (? & ? & ? & ? & ? & ?).
      split_and!; try done. by right.
Qed.

Lemma prod_row_fields (hc : list Z) (acc : ProdAcc) (row : WRow) :
  pa_y (prod_row hc acc row) = pa_y acc ∧
  pa_c_p (prod_row hc acc row)
  = match wide_key row with
    | Some k => <[k := num_or 0 (w_mc row)]> (pa_c_p acc)
    | None => pa_c_p acc
    end.
Proof.
  unfold prod_row, wide_key. destruct (w_y row) as [y|]; [|done].
  case_bool_decide; [done|].
  apply (foldl_inv
           (λ a : ProdAcc,
              pa_y a = pa_y acc ∧
              pa_c_p a = <[(strip (py_str (w_n row)), strip (py_str (w_f row)), y)
                           := num_or 0 (w_mc row)]> (pa_c_p acc))); [done|].
  by intros a [i h] _ [? ?].
Qed.

Lemma prod_rows_c_p (hc : list Z) (rows : list WRow) (acc : ProdAcc) (k : Key3) :
  pa_c_p (foldl (prod_row hc) acc rows) !! k
  = match last (filter (λ row, wide_key row = Some k) rows) with
    | Some row => Some (num_or 0 (w_mc row))
    | None => pa_c_p acc !! k
    end.
Proof.
  induction rows as [|row rows IH] using rev_ind; [done|].
  rewrite foldl_app, filter_app. simpl.
  destruct (prod_row_fields hc (foldl (prod_row hc) acc rows) row) as [_ ->].
  destruct (decide (wide_key row = Some k)) as [Hk|Hk].
  - rewrite filter_cons_True, filter_nil, last_snoc by done.
    by rewrite Hk, lookup_insert_eq.
  - rewrite filter_cons_False, filter_nil, app_nil_r by done.
    destruct (wide_key row) as [k'|]; [|done].
    rewrite lookup_insert_ne; [done|congruence].
Qed.

(** X10: the production extractor reports no year at all, whatever the
    table: its year-2030 pass therefore never runs, and the marginal
    cost of a cell (n, f, y) is the one of the last row filed under
    that key, or absent when there is none. *)
Theorem production_years_never_collected (df_p : Wide) (k : Key3) :
  let r := _extract_production_data df_p in
  r.1.1.2 = [] ∧
  r.1.1.1.1.2 !! k
  = (λ row, num_or 0 (w_mc row))
      <$> last (filter (λ row, wide_key row = Some k) (w_rows df_p)).
Proof.
  unfold _extract_production_data.
  destruct (w_rows df_p) as [|r0 rows] eqn:Erows; [done|].
  rewrite <- Erows. clear Erows r0 rows. simpl.
  assert (Hy : pa_y (foldl (prod_row (hour_cols df_p)) (mkProdAcc ∅ ∅ ∅ [] [] [])
                       (w_rows df_p)) = []).
  { apply (foldl_inv (λ a : ProdAcc, pa_y a = [])); [done|].
    intros a row _ Ha. by destruct (prod_row_fields (hour_cols df_p) a row) as [-> _]. }
  rewrite Hy. split; [done|].
  change (carry_forward_rows (sorted_setZ []) ?c) with c.
  rewrite prod_rows_c_p. simpl. rewrite lookup_empty. by destruct (last _).
Qed.

(** ** The stages of [load_inputs] *)

Lemma load_inputs_stages (inp : Inputs) (loaded : Loaded) :
  load_inputs inp = Ok loaded →
  ∃ e0 out scaleup,
    let n0 := _extract_node_structures (dat_nodes inp) in
    let rs := regas_stage (dat_regas inp) n0 e0 in
    let n1 := sorted_set (rs.2 ++ ao_arc_nodes out) in
    let sd := _extract_storage_data (dat_storage inp) n1 (ld_e_values loaded)
                (ld_y_values loaded) (ld_h_values loaded) scaleup in
    _extract_arc_data (dat_arcs inp) (dat_o inp) (ld_y_values loaded) e0
      (build_vola2 (dat_o inp) e0) (build_loss_max (dat_o inp)) = Ok (Ret16 out) ∧
    ld_c_lr loaded = rs.1.1 ∧ ld_ub_r loaded = rs.1.2 ∧
    ld_a_values loaded = ao_a_values out ∧ ld_opp loaded = ao_opp out ∧
    ld_arc loaded = ao_st out ∧
    ld_e_values loaded = all_fuels_of e0 (ao_arc_fuels out) ∧
    ld_n_values loaded = sorted_set (n1 ++ sd.1.2) ∧
    ld_cap_ww loaded = sd.1.1.1 ∧ ld_h2_ready loaded = sd.1.1.2 ∧
    ld_dmd loaded = (_extract_consumption_data (dat_consumption inp)).1.1.1 ∧
    ld_c_z loaded = build_c_z (dat_o inp) None None.
Proof.
  unfold load_inputs.
  destruct (_extract_time_domains _) as [[y_values h_values] scaleup].
  destruct (_extract_consumption_data _) as [[[dmd y_dmd] h_dmd] f_dmd].
  destruct (_extract_production_data _) as [[[[[cap_p c_p] lb_p] y_prod] h_prod] f_prod].
  set (e0 := sorted_set (_ ++ _ ++ _ ++ _ ++ _)).
  destruct (regas_stage _ _ e0) as [[c_lr ub_r] n_values] eqn:Er.
  destruct (_extract_arc_data _ _ _ _ _ _) as [[|arcs]|err] eqn:Earc; try discriminate.
  destruct (_extract_storage_data _ _ _ _ _ _)
    as [[[cap_ww h2] stor_nodes] stor_fuels] eqn:Es.
  intros [= <-]. eexists e0, arcs, _. cbv zeta. simpl.
  rewrite Er. simpl. rewrite Es. simpl. by rewrite Earc.
Qed.

(** X11: a load that returns has at least one row in arcs.csv and a
    strictly positive Pipe,Len,Std and YearStep in other.csv (first
    matching row).  [load_inputs] therefore returns nothing for a
    scenario without arcs: the early return of the arc extractor lists 15
    values where [load_inputs] unpacks 16. *)
Theorem load_inputs_needs_arcs (inp : Inputs) (loaded : Loaded) :
  load_inputs inp = Ok loaded →
  dat_arcs inp ≠ [] ∧
  0 < _o_value (arc_dat_o (dat_o inp)) "pipe" "LEN" "STD" 0 ∧
  0 < _o_value (arc_dat_o (dat_o inp)) "yearstep" "" "" 0.
Proof.
  assert (Hle : ∀ q, Qle_bool q 0 = false → 0 < q).
  { intros q. rewrite <- not_true_iff_false, Qle_bool_iff. apply Qnot_le_lt. }
  unfold load_inputs.
  destruct (_extract_time_domains _) as [[y_values h_values] scaleup].
  destruct (_extract_consumption_data _) as [[[dmd y_dmd] h_dmd] f_dmd].
  destruct (_extract_production_data _) as [[[[[cap_p c_p] lb_p] y_prod] h_prod] f_prod].
  destruct (regas_stage _ _ _) as [[c_lr ub_r] n_values].
  unfold _extract_arc_data.
  destruct (dat_arcs inp) as [|r rows]; [discriminate|].
  destruct (Qle_bool (_o_value _ "pipe" "LEN" "STD" 0) 0) eqn:Ep; [discriminate|].
  destruct (Qle_bool (_o_value _ "yearstep" "" "" 0) 0) eqn:Ey; [discriminate|].
  intros _. split_and!; [done| |]; by apply Hle.
Qed.

Lemma load_inputs_needs_arcs_witness :
  dat_arcs two_way_pipe ≠ [] ∧
  0 < _o_value (arc_dat_o (dat_o two_way_pipe)) "pipe" "LEN" "STD" 0 ∧
  0 < _o_value (arc_dat_o (dat_o two_way_pipe)) "yearstep" "" "" 0.
Proof.
  apply (load_inputs_needs_arcs two_way_pipe
           (unwrap demo_loaded (load_inputs two_way_pipe))).
  apply ok_unwrap, two_way_pipe_loads.
Defined.

(** ** Regasification cost and bound *)

Lemma map_Forall_setdefault {K V : Type} `{Countable K} (P : K → V → Prop)
    (m : gmap K V) (k : K) (v : V) :
  P k v → map_Forall P m → map_Forall P (setdefault k v m).
Proof.
  intros Hv Hm. unfold setdefault. destruct (m !! k); [done|].
  by apply map_Forall_insert_2.
Qed.

Lemma regas_default_pos (e : string) : 0 < regas_default e.
Proof. unfold regas_default. by destruct (String.eqb _ "G"). Qed.

Lemma py_max_ge_l (a b : Q) : a <= py_max a b.
Proof.
  unfold py_max. destruct (Qgtb b a) eqn:E; [|apply Qle_refl].
  apply Qgtb_true in E. by apply Qlt_le_weak.
Qed.

Lemma py_max_ge_r (a b : Q) : b <= py_max a b.
Proof.
  unfold py_max. destruct (Qgtb b a) eqn:E; [apply Qle_refl|].
  by apply Qgtb_false in E.
Qed.

Lemma regas_stage_signs (df_r : list RRow) (n_values e_values : list string) :
  map_Forall (λ _ v, 0 < v) (regas_stage df_r n_values e_values).1.1 ∧
  map_Forall (λ _ v, 0 <= v) (regas_stage df_r n_values e_values).1.2.
Proof.
  set (P := λ cu : gmap (string * string) Q * gmap (string * string) Q,
         map_Forall (λ _ v, 0 < v) cu.1 ∧ map_Forall (λ _ v, 0 <= v) cu.2).
  pose proof (regas_stage_maps df_r n_values e_values) as Hmaps.
  change (P ((regas_stage df_r n_values e_values).1.1,
             (regas_stage df_r n_values e_values).1.2)).
  rewrite Hmaps. unfold regas_backfill.
  apply (for_each_inv P).
  - apply (foldl_inv P).
    + unfold regas_defaults. apply (for_each_inv P).
      * split; apply map_Forall_empty.
      * intros n acc _ Hacc. apply (for_each_inv P); [done|].
        intros e acc' _ [H1 H2]. split; simpl.
        -- apply map_Forall_insert_2; [apply regas_default_pos|done].
        -- by apply map_Forall_insert_2.
    + intros acc r _ [H1 H2]. unfold regas_row.
      destruct (regas_work r) as [[wn wf] y].
      case_bool_decide; [done|]. case_bool_decide; [done|].
      split; simpl.
      * apply map_Forall_insert_2; [|done].
        destruct (String.eqb _ "G"); [|done].
        destruct (r_cal_c r) as [v|]; [|done].
        destruct (Qle_bool v 0) eqn:E; [done|].
        apply Qnot_le_lt. intros Hle. apply Qle_bool_iff in Hle. congruence.
      * apply map_Forall_insert_2; [|done].
        destruct (r_ub r) as [v|]; [apply py_max_ge_l|done].
  - intros n acc _ Hacc. apply (for_each_inv P); [done|].
    intros e acc' _ [H1 H2]. split; simpl.
    + apply map_Forall_setdefault; [apply regas_default_pos|done].
    + by apply map_Forall_setdefault.
Qed.

(** X12: in every model built from loaded inputs, the regasification
    unit cost is strictly positive and the regasification bound is not
    negative, for every node and fuel, whether the cell comes from a
    row, from a default or from the model's own fall-back. *)
Theorem regas_cost_positive (inp : Inputs) (loaded : Loaded) (ov : Overrides)
    (n e : string) :
  load_inputs inp = Ok loaded →
  let m := build_base_model_with_cz loaded ov in
  0 < c_lr m n e ∧ 0 <= ub_r m n e.
Proof.
  intros Hload. simpl.
  destruct (load_inputs_stages inp loaded Hload)
    as (e0 & out & su & _ & -> & -> & _).
  destruct (regas_stage_signs (dat_regas inp)
              (_extract_node_structures (dat_nodes inp)) e0) as [Hc Hu].
  unfold dget. split.
  - destruct (_ !! (n, e)) as [v|] eqn:E; simpl; [by apply (Hc _ _ E)|].
    by destruct (String.eqb (upper e) "G").
  - destruct (_ !! (n, e)) as [v|] eqn:E; simpl; [by apply (Hu _ _ E)|done].
Qed.

Lemma regas_cost_positive_witness :
  let m := build_base_model_with_cz (unwrap demo_loaded (load_inputs two_way_pipe))
             no_overrides in
  0 < c_lr m "N1" "G" ∧ 0 <= ub_r m "N1" "G".
Proof.
  apply (regas_cost_positive two_way_pipe _ no_overrides "N1" "G").
  apply ok_unwrap, two_way_pipe_loads.
Defined.

(** ** Arc extractor: domains, bounds and coverage *)

Lemma for_each_proj {A S T : Type} (proj : S → T) (xs : list A)
    (body : A → S → S) (s : S) (t : T) :
  (∀ x s', proj (body x s') = proj s') → proj s = t →
  proj (for_each xs body s) = t.
Proof.
  intros Hbody <-. apply (for_each_inv (λ s', proj s' = proj s)); [done|].
  intros x s' _ <-. apply Hbody.
Qed.

(** A field that none of the nested loops writes. *)
Ltac keeps :=
  simpl;
  first [ reflexivity
        | apply for_each_proj; [intros ? ?; keeps | keeps] ].

(** Capacities are not negative and efficiencies not below [lo]. *)
Lemma arc_own_bounds (o : list PRow) (sc : ArcScalars) (work : list AWork)
    (y_values : list Z) (all_fuels : list string) (vola2 : gmap string Q)
    (loss_max : Q) (a : string) (st : ArcSt) :
  map_Forall (λ _ v, 0 <= v) (st_cap_a st) ∧
  map_Forall (λ _ v, 1 - loss_max <= v) (st_e_a st) →
  let st' := arc_own o sc work y_values all_fuels vola2 loss_max a st in
  map_Forall (λ _ v, 0 <= v) (st_cap_a st') ∧
  map_Forall (λ _ v, 1 - loss_max <= v) (st_e_a st').
Proof.
  intros Hst. cbv zeta. unfold arc_own.
  destruct (filter (λ w, aw_a w = a) work) as [|w0 rows] eqn:Erows; [done|].
  set (P := λ s : ArcSt, map_Forall (λ _ v, 0 <= v) (st_cap_a s) ∧
                         map_Forall (λ _ v, 1 - loss_max <= v) (st_e_a s)).
  match goal with
  | |- context [for_each (w0 :: rows) ?body ?init] =>
      assert (Hrows : P (for_each (w0 :: rows) body init).1);
      [|destruct (for_each (w0 :: rows) body init) as [st1 cal1]]
  end.
  { apply (for_each_inv (λ p : ArcSt * Cal, P p.1)); [done|].
    intros row [st0 cal0] _ Hp. simpl in *.
    apply (for_each_inv P).
    - destruct Hp as [H1 H2]. split; simpl; [done|].
      apply map_Forall_insert_2; [apply py_max_ge_l|done].
    - intros y s _ [H1 H2]. split; simpl; [|done].
      apply map_Forall_insert_2; [apply py_max_ge_l|done]. }
  simpl in Hrows. destruct Hrows as [H1 H2].
  match goal with
  | |- map_Forall _ (st_cap_a ?s) ∧ map_Forall _ (st_e_a ?s) =>
      assert (Ec : st_cap_a s = st_cap_a st1) by keeps;
      assert (Ee : st_e_a s = st_e_a st1) by keeps
  end.
  by rewrite Ec, Ee.
Qed.

Lemma arc_finish_bounds (a_values all_fuels : list string) (y_values : list Z)
    (opp : gmap (string * string) Z) (lo : Q) (st : ArcSt) :
  lo <= 1 →
  map_Forall (λ _ v, 0 <= v) (st_cap_a st) ∧
  map_Forall (λ _ v, lo <= v) (st_e_a st) →
  let st' := arc_finish a_values all_fuels y_values opp st in
  map_Forall (λ _ v, 0 <= v) (st_cap_a st') ∧
  map_Forall (λ _ v, lo <= v) (st_e_a st').
Proof.
  intros Hlo Hst. cbv zeta.
  set (P := λ s : ArcSt, map_Forall (λ _ v, 0 <= v) (st_cap_a s) ∧
                         map_Forall (λ _ v, lo <= v) (st_e_a s)).
  assert (Hkeep : ∀ s s', st_cap_a s' = st_cap_a s → st_e_a s' = st_e_a s →
                          P s → P s').
  { intros s s' Ec Ee. unfold P. by rewrite Ec, Ee. }
  unfold arc_finish.
  apply (Hkeep (fill_defaults a_values all_fuels y_values
                  (propagate_ar a_values all_fuels y_values opp
                     (propagate a_values all_fuels y_values opp st))));
    [unfold self_zero; keeps|unfold self_zero; keeps|].
  unfold fill_defaults. apply (for_each_inv P).
  - apply (Hkeep (propagate a_values all_fuels y_values opp st)).
    + unfold propagate_ar. apply for_each_proj; [|done]. intros ai s.
      apply for_each_proj; [|done]. intros ao s0.
      case_bool_decide; [done|].
      apply for_each_proj; [|done]. intros e s1.
      apply for_each_proj; [|done]. intros f s2.
      apply for_each_proj; [|done]. intros y s3.
      unfold prop_ar_step. by destruct (_ || _).
    + unfold propagate_ar. apply for_each_proj; [|done]. intros ai s.
      apply for_each_proj; [|done]. intros ao s0.
      case_bool_decide; [done|].
      apply for_each_proj; [|done]. intros e s1.
      apply for_each_proj; [|done]. intros f s2.
      apply for_each_proj; [|done]. intros y s3.
      unfold prop_ar_step. by destruct (_ || _).
    + unfold propagate. apply (for_each_inv P); [done|].
      intros ai s _ Hs. apply (for_each_inv P); [done|].
      intros ao s0 _ Hs0. case_bool_decide; [done|].
      apply (for_each_inv P); [done|]. intros f s1 _ Hs1.
      apply (for_each_inv P); [done|]. intros y s2 _ [H1 H2].
      unfold prop_step. destruct (_ && _); [|done].
      split; simpl; [done|].
      apply map_Forall_insert_2; [|done].
      unfold dget. destruct (st_e_a s2 !! (ai, f)) as [v|] eqn:E1; simpl.
      { by apply (H2 _ _ E1). }
      destruct (st_e_a s2 !! (ao, f)) as [v|] eqn:E2; simpl; [|done].
      by apply (H2 _ _ E2).
  - intros a s _ Hs. cbv zeta.
    match goal with
    | |- P (for_each all_fuels ?b3 ?s3) => apply (Hkeep s3); [keeps|keeps|]
    end.
    apply (for_each_inv P).
    + destruct Hs as [H1 H2]. by split.
    + intros f s1 _ [H1 H2]. cbv zeta. apply (for_each_inv P).
      * split; simpl; [done|]. by apply map_Forall_setdefault.
      * intros y s2 _ [G1 G2]. split; simpl; [|done].
        by apply map_Forall_setdefault.
Qed.

Lemma arc_state_bounds (inp : Inputs) (loaded : Loaded) :
  load_inputs inp = Ok loaded →
  map_Forall (λ _ v, 0 <= v) (st_cap_a (ld_arc loaded)) ∧
  map_Forall (λ _ v, 1 - build_loss_max (dat_o inp) <= v) (st_e_a (ld_arc loaded)).
Proof.
  intros Hload.
  destruct (load_inputs_stages inp loaded Hload)
    as (e0 & out & su & Hex & _ & _ & _ & _ & -> & _).
  destruct (_extract_arc_data_full _ _ _ _ _ _ _ Hex) as (_ & _ & _ & _ & ->).
  apply arc_finish_bounds.
  - pose proof (build_loss_max_nonneg (dat_o inp)) as Hl.
    apply (Qplus_le_r _ _ (build_loss_max (dat_o inp) - 1)).
    ring_simplify. done.
  - unfold arc_before_propagation.
    apply (for_each_inv
             (λ s : ArcSt,
                map_Forall (λ _ v, 0 <= v) (st_cap_a s) ∧
                map_Forall (λ _ v, 1 - build_loss_max (dat_o inp) <= v) (st_e_a s))).
    + split; apply map_Forall_empty.
    + intros a s _ Hs. by apply arc_own_bounds.
Qed.

(** X13: in every model built from loaded inputs the exogenous arc
    capacity is never negative, for any arc, fuel and year, configured
    or not. *)
Theorem cap_a_nonneg (inp : Inputs) (loaded : Loaded) (ov : Overrides)
    (a e : string) (y : Z) :
  load_inputs inp = Ok loaded →
  0 <= cap_a (build_base_model_with_cz loaded ov) a e y.
Proof.
  intros Hload. destruct (arc_state_bounds inp loaded Hload) as [Hc _].
  simpl. unfold dget.
  destruct (st_cap_a (ld_arc loaded) !! (a, e, y)) as [v|] eqn:E; simpl; [|done].
  by apply (Hc _ _ E).
Qed.

Lemma cap_a_nonneg_witness :
  0 <= cap_a (build_base_model_with_cz
                (unwrap demo_loaded (load_inputs two_way_pipe)) no_overrides)
             "A" "G" 2025.
Proof.
  apply (cap_a_nonneg two_way_pipe _ no_overrides "A" "G" 2025%Z).
  apply ok_unwrap, two_way_pipe_loads.
Defined.



(** ** Arc endpoints and the opposite-arc relation *)

Lemma arc_own_ends (o : list PRow) (sc : ArcScalars) (work : list AWork)
    (y_values : list Z) (all_fuels : list string) (vola2 : gmap string Q)
    (loss_max : Q) (a : string) (st : ArcSt) :
  let st' := arc_own o sc work y_values all_fuels vola2 loss_max a st in
  st_a_s st' = match first_row work a with
               | Some w0 => <[(a, strip (aw_start w0)) := 1%Z]> (st_a_s st)
               | None => st_a_s st
               end ∧
  st_a_e st' = match first_row work a with
               | Some w0 => <[(a, strip (aw_end w0)) := 1%Z]> (st_a_e st)
               | None => st_a_e st
               end.
Proof.
  cbv zeta. unfold arc_own, first_row.
  destruct (filter (λ w, aw_a w = a) work) as [|w0 rows] eqn:Erows; [done|].
  cbn [head].
  match goal with
  | |- context [for_each (w0 :: rows) ?body ?init] =>
      assert (Hrows : st_a_s (for_each (w0 :: rows) body init).1
                      = <[(a, strip (aw_start w0)) := 1%Z]> (st_a_s st) ∧
                      st_a_e (for_each (w0 :: rows) body init).1
                      = <[(a, strip (aw_end w0)) := 1%Z]> (st_a_e st));
      [|destruct (for_each (w0 :: rows) body init) as [st1 cal1]]
  end.
  { split.
    - apply (for_each_proj (λ p : ArcSt * Cal, st_a_s p.1)); [|done].
      intros row [st0 cal0]. keeps.
    - apply (for_each_proj (λ p : ArcSt * Cal, st_a_e p.1)); [|done].
      intros row [st0 cal0]. keeps. }
  simpl in Hrows. destruct Hrows as [<- <-]. split; keeps.
Qed.

Lemma before_propagation_ends (o : list PRow) (sc : ArcScalars) (work : list AWork)
    (y_values : list Z) (all_fuels : list string) (vola2 : gmap string Q)
    (loss_max : Q) (xs : list string) (a n : string) :
  let st := for_each xs (arc_own o sc work y_values all_fuels vola2 loss_max)
              empty_st in
  st_a_s st !! (a, n)
  = (if decide (a ∈ xs) then
       match first_row work a with
       | Some w0 => if decide (n = strip (aw_start w0)) then Some 1%Z else None
       | None => None
       end
     else None) ∧
  st_a_e st !! (a, n)
  = (if decide (a ∈ xs) then
       match first_row work a with
       | Some w0 => if decide (n = strip (aw_end w0)) then Some 1%Z else None
       | None => None
       end
     else None).
Proof.
  cbv zeta. induction xs as [|x xs IH] using rev_ind.
  { destruct (decide (a ∈ [])) as [?%elem_of_nil|]; [done|].
    split; apply lookup_empty. }
  rewrite for_each_app, for_each_cons, for_each_nil.
  destruct (arc_own_ends o sc work y_values all_fuels vola2 loss_max x
              (for_each xs (arc_own o sc work y_values all_fuels vola2 loss_max)
                 empty_st)) as [-> ->].
  destruct IH as [IHs IHe].
  destruct (decide (a = x)) as [->|Hne].
  - destruct (decide (x ∈ xs ++ [x])) as [_|Hnot];
      [|destruct Hnot; apply elem_of_app; right; left].
    destruct (first_row work x) as [w0|] eqn:Ew.
    + rewrite !lookup_insert. split.
      * destruct (decide (n = strip (aw_start w0))) as [->|Hn].
        -- by rewrite decide_True.
        -- rewrite decide_False by congruence. rewrite IHs.
           by destruct (decide (x ∈ xs)).
      * destruct (decide (n = strip (aw_end w0))) as [->|Hn].
        -- by rewrite decide_True.
        -- rewrite decide_False by congruence. rewrite IHe.
           by destruct (decide (x ∈ xs)).
    + rewrite IHs, IHe. by destruct (decide (x ∈ xs)).
  - assert (Hiff : a ∈ xs ++ [x] ↔ a ∈ xs).
    { rewrite elem_of_app, list_elem_of_singleton. tauto. }
    assert (Hs : ∀ (T : Type) (u v : T),
              (if decide (a ∈ xs ++ [x]) then u else v)
              = (if decide (a ∈ xs) then u else v)).
    { intros T u v. destruct (decide (a ∈ xs ++ [x])), (decide (a ∈ xs)); tauto. }
    rewrite !Hs.
    destruct (first_row work x) as [w0|].
    + rewrite !lookup_insert_ne by congruence. done.
    + done.
Qed.

Ltac keeps_if :=
  simpl;
  first [ reflexivity
        | apply for_each_proj; [intros ? ?; keeps_if | keeps_if]
        | match goal with
          | |- context [if ?b then _ else _] => destruct b; keeps_if
          end ].

Lemma arc_finish_ends (a_values all_fuels : list string) (y_values : list Z)
    (opp : gmap (string * string) Z) (st : ArcSt) :
  st_a_s (arc_finish a_values all_fuels y_values opp st) = st_a_s st ∧
  st_a_e (arc_finish a_values all_fuels y_values opp st) = st_a_e st.
Proof.
  unfold arc_finish, self_zero, fill_defaults, propagate_ar, propagate,
    prop_ar_step, prop_step, prop_copy.
  split; keeps_if.
Qed.

Lemma arc_endpoints_lookup (work : list AWork) (xs : list string) (a : string) :
  arc_endpoints work xs !! a
  = if decide (a ∈ xs)
    then (λ w, (strip (aw_start w), strip (aw_end w))) <$> first_row work a
    else None.
Proof.
  unfold arc_endpoints. induction xs as [|x xs IH] using rev_ind.
  { destruct (decide (a ∈ [])) as [?%elem_of_nil|]; [done|]. apply lookup_empty. }
  rewrite for_each_app, for_each_cons, for_each_nil.
  assert (Hstep : ∀ m : gmap string (string * string),
            match filter (λ w, aw_a w = x) work with
            | [] => m
            | w :: _ => <[x := (strip (aw_start w), strip (aw_end w))]> m
            end
            = match first_row work x with
              | Some w => <[x := (strip (aw_start w), strip (aw_end w))]> m
              | None => m
              end).
  { intros m. unfold first_row. by destruct (filter _ work). }
  rewrite Hstep.
  destruct (decide (a = x)) as [->|Hne].
  - rewrite decide_True by (apply elem_of_app; right; left).
    destruct (first_row work x) as [w0|] eqn:Ew.
    + by rewrite lookup_insert_eq.
    + rewrite IH. by destruct (decide (x ∈ xs)).
  - assert (Hlk : ∀ m : gmap string (string * string),
              match first_row work x with
              | Some w => <[x := (strip (aw_start w), strip (aw_end w))]> m
              | None => m
              end !! a = m !! a).
    { intros m. destruct (first_row work x); [|done].
      by rewrite lookup_insert_ne by congruence. }
    rewrite Hlk, IH.
    assert (Hiff : a ∈ xs ++ [x] ↔ a ∈ xs).
    { rewrite elem_of_app, list_elem_of_singleton. tauto. }
    destruct (decide (a ∈ xs ++ [x])), (decide (a ∈ xs)); try done; tauto.
Qed.

Lemma build_opp_complete (ends : gmap string (string * string)) (xs : list string)
    (ai ao n m : string) :
  ai ∈ xs → ao ∈ xs → ai ≠ ao →
  ends !! ai = Some (n, m) → ends !! ao = Some (m, n) →
  build_opp ends xs !! (ai, ao) = Some 1%Z.
Proof.
  intros Hai Hao Hne Ei Eo.
  set (P := λ opp : gmap (string * string) Z, opp !! (ai, ao) = Some 1%Z).
  assert (Hinner : ∀ x ni mi opp, P opp →
    P (for_each xs
         (λ ao0 opp0,
            if bool_decide (ao0 = x) then opp0
            else match ends !! ao0 with
                 | None => opp0
                 | Some (no, mo) =>
                     if bool_decide (ni = mo ∧ mi = no)
                     then <[(x, ao0) := 1%Z]> opp0 else opp0
                 end) opp)).
  { intros x ni mi opp Hopp. apply (for_each_inv P); [done|].
    intros x' opp' _ Hopp'. case_bool_decide; [done|].
    destruct (ends !! x') as [[no mo]|]; [|done].
    case_bool_decide; [|done]. unfold P. rewrite lookup_insert.
    by case_decide. }
  unfold build_opp.
  apply (for_each_hit (λ _, True) P xs _ ∅ ai); [done|done|done| |].
  - intros opp _. rewrite Ei.
    apply (for_each_hit (λ _, True) P xs _ opp ao); [done|done|done| |].
    + intros opp' _. rewrite bool_decide_eq_false_2 by congruence.
      rewrite Eo. rewrite bool_decide_eq_true_2 by done.
      unfold P. by rewrite lookup_insert_eq.
    + intros x' opp' _ Hopp'. case_bool_decide; [done|].
      destruct (ends !! x') as [[no mo]|]; [|done].
      case_bool_decide; [|done]. unfold P. rewrite lookup_insert.
      by case_decide.
  - intros x opp _ Hopp. destruct (ends !! x) as [[ni mi]|]; [|done].
    by apply Hinner.
Qed.

Lemma arc_work_stripped (df_a : list ARow) (w : AWork) :
  w ∈ arc_work df_a →
  strip (aw_start w) = aw_start w ∧ strip (aw_end w) = aw_end w.
Proof.
  unfold arc_work. intros Hw. apply list_elem_of_filter in Hw as [_ Hw].
  apply elem_of_map in Hw as (r & -> & _). simpl. by rewrite !strip_idem.
Qed.

Lemma first_row_Some (work : list AWork) (a : string) (w : AWork) :
  first_row work a = Some w → w ∈ work ∧ aw_a w = a.
Proof.
  unfold first_row. intros Hh. apply head_Some_elem_of in Hh.
  apply list_elem_of_filter in Hh as [? ?]. done.
Qed.

Lemma first_row_is_Some (work : list AWork) (a : string) :
  a ∈ sorted_set (map aw_a work) → is_Some (first_row work a).
Proof.
  rewrite elem_of_sorted_set. intros Ha.
  apply elem_of_map in Ha as (w & -> & Hw). unfold first_row.
  destruct (filter (λ w0, aw_a w0 = aw_a w) work) as [|w1 l] eqn:E; [|by eauto].
  exfalso. exact (filter_nil_not_elem_of (λ w0, aw_a w0 = aw_a w) _ w E eq_refl Hw).
Qed.

(** What the model reads from the incidence maps of a loaded arc. *)
Lemma loaded_incidence (inp : Inputs) (loaded : Loaded) (a : string) :
  load_inputs inp = Ok loaded →
  a ∈ ld_a_values loaded →
  ∃ w0, w0 ∈ arc_work (dat_arcs inp) ∧
        first_row (arc_work (dat_arcs inp)) a = Some w0 ∧
        (∀ n, dget 0%Z (st_a_s (ld_arc loaded)) (a, n) = 1%Z ↔ n = aw_start w0) ∧
        (∀ n, dget 0%Z (st_a_e (ld_arc loaded)) (a, n) = 1%Z ↔ n = aw_end w0).
Proof.
  intros Hload Ha.
  destruct (load_inputs_stages inp loaded Hload)
    as (e0 & out & su & Hex & _ & _ & Ea & _ & Est & _).
  destruct (_extract_arc_data_full _ _ _ _ _ _ _ Hex) as (Eav & _ & _ & _ & Eout).
  rewrite Ea, Eav in Ha.
  destruct (first_row_is_Some _ _ Ha) as [w0 Hw0].
  destruct (first_row_Some _ _ _ Hw0) as [Hin _].
  destruct (arc_work_stripped _ _ Hin) as [Hs He].
  exists w0. split_and!; [done|done| |].
  - intros n. rewrite Est, Eout.
    destruct (arc_finish_ends (sorted_set (map aw_a (arc_work (dat_arcs inp))))
                (all_fuels_of e0 (sorted_set (map aw_f (arc_work (dat_arcs inp)))))
                (ld_y_values loaded)
                (build_opp
                   (arc_endpoints (arc_work (dat_arcs inp))
                      (sorted_set (map aw_a (arc_work (dat_arcs inp)))))
                   (sorted_set (map aw_a (arc_work (dat_arcs inp)))))
                (arc_before_propagation (dat_arcs inp) (dat_o inp)
                   (ld_y_values loaded) e0 (build_vola2 (dat_o inp) e0)
                   (build_loss_max (dat_o inp)))) as [-> _].
    unfold arc_before_propagation, dget.
    destruct (before_propagation_ends (arc_dat_o (dat_o inp))
                (arc_scalars (arc_dat_o (dat_o inp))) (arc_work (dat_arcs inp))
                (ld_y_values loaded)
                (all_fuels_of e0 (sorted_set (map aw_f (arc_work (dat_arcs inp)))))
                (build_vola2 (dat_o inp) e0) (build_loss_max (dat_o inp))
                (sorted_set (map aw_a (arc_work (dat_arcs inp)))) a n) as [-> _].
    rewrite decide_True by done. rewrite Hw0, Hs.
    destruct (decide (n = aw_start w0)); simpl; split; done.
  - intros n. rewrite Est, Eout.
    destruct (arc_finish_ends (sorted_set (map aw_a (arc_work (dat_arcs inp))))
                (all_fuels_of e0 (sorted_set (map aw_f (arc_work (dat_arcs inp)))))
                (ld_y_values loaded)
                (build_opp
                   (arc_endpoints (arc_work (dat_arcs inp))
                      (sorted_set (map aw_a (arc_work (dat_arcs inp)))))
                   (sorted_set (map aw_a (arc_work (dat_arcs inp)))))
                (arc_before_propagation (dat_arcs inp) (dat_o inp)
                   (ld_y_values loaded) e0 (build_vola2 (dat_o inp) e0)
                   (build_loss_max (dat_o inp)))) as [_ ->].
    unfold arc_before_propagation, dget.
    destruct (before_propagation_ends (arc_dat_o (dat_o inp))
                (arc_scalars (arc_dat_o (dat_o inp))) (arc_work (dat_arcs inp))
                (ld_y_values loaded)
                (all_fuels_of e0 (sorted_set (map aw_f (arc_work (dat_arcs inp)))))
                (build_vola2 (dat_o inp) e0) (build_loss_max (dat_o inp))
                (sorted_set (map aw_a (arc_work (dat_arcs inp)))) a n) as [_ ->].
    rewrite decide_True by done. rewrite Hw0, He.
    destruct (decide (n = aw_end w0)); simpl; split; done.
Qed.

(** X15: every arc of the loaded arc set leaves exactly one node and
    enters exactly one node, those of its first record, and both nodes
    belong to the loaded node set. *)
Theorem arc_has_one_start_and_end (inp : Inputs) (loaded : Loaded) (a : string) :
  load_inputs inp = Ok loaded →
  a ∈ ld_a_values loaded →
  ∃ n m, n ∈ ld_n_values loaded ∧ m ∈ ld_n_values loaded ∧
         (∀ n', dget 0%Z (st_a_s (ld_arc loaded)) (a, n') = 1%Z ↔ n' = n) ∧
         (∀ m', dget 0%Z (st_a_e (ld_arc loaded)) (a, m') = 1%Z ↔ m' = m).
Proof.
  intros Hload Ha.
  destruct (loaded_incidence inp loaded a Hload Ha) as (w0 & Hin & _ & Hs & He).
  destruct (load_inputs_stages inp loaded Hload)
    as (e0 & out & su & Hex & _ & _ & _ & _ & _ & _ & En & _).
  destruct (_extract_arc_data_full _ _ _ _ _ _ _ Hex) as (_ & Enodes & _).
  exists (aw_start w0), (aw_end w0). split_and!; [| |done|done].
  - rewrite En. apply elem_of_sorted_set, elem_of_app. left.
    apply elem_of_sorted_set, elem_of_app. right. rewrite Enodes.
    apply elem_of_sorted_set, elem_of_app. left. apply elem_of_map. eauto.
  - rewrite En. apply elem_of_sorted_set, elem_of_app. left.
    apply elem_of_sorted_set, elem_of_app. right. rewrite Enodes.
    apply elem_of_sorted_set, elem_of_app. right. apply elem_of_map. eauto.
Qed.

Lemma arc_has_one_start_and_end_witness :
  let loaded := unwrap demo_loaded (load_inputs two_way_pipe) in
  ∃ n m, n ∈ ld_n_values loaded ∧ m ∈ ld_n_values loaded ∧
         (∀ n', dget 0%Z (st_a_s (ld_arc loaded)) ("A", n') = 1%Z ↔ n' = n) ∧
         (∀ m', dget 0%Z (st_a_e (ld_arc loaded)) ("A", m') = 1%Z ↔ m' = m).
Proof.
  apply (arc_has_one_start_and_end two_way_pipe _ "A").
  - apply ok_unwrap, two_way_pipe_loads.
  - vm_compute. left.
Defined.

(** X16: opp(ai, ao) is 1 exactly for two distinct loaded arcs that
    join the same two nodes in reverse: ao starts where ai ends and ends
    where ai starts.  The relation is therefore symmetric and never
    relates an arc to itself. *)
Theorem opposite_arcs_reverse_endpoints (inp : Inputs) (loaded : Loaded)
    (ai ao : string) :
  load_inputs inp = Ok loaded →
  let st := ld_arc loaded in
  (dget 0%Z (ld_opp loaded) (ai, ao) = 1%Z ↔
   ai ∈ ld_a_values loaded ∧ ao ∈ ld_a_values loaded ∧ ai ≠ ao ∧
   ∃ n m, dget 0%Z (st_a_s st) (ai, n) = 1%Z ∧ dget 0%Z (st_a_e st) (ai, m) = 1%Z ∧
          dget 0%Z (st_a_s st) (ao, m) = 1%Z ∧ dget 0%Z (st_a_e st) (ao, n) = 1%Z) ∧
  (dget 0%Z (ld_opp loaded) (ai, ao) = 1%Z →
   dget 0%Z (ld_opp loaded) (ao, ai) = 1%Z).
Proof.
  intros Hload st.
  destruct (load_inputs_stages inp loaded Hload)
    as (e0 & out & su & Hex & _ & _ & Ea & Eo & _).
  destruct (_extract_arc_data_full _ _ _ _ _ _ _ Hex) as (Eav & _ & _ & Eopp & _).
  set (work := arc_work (dat_arcs inp)) in *.
  set (xs := sorted_set (map aw_a work)) in *.
  set (ends := arc_endpoints work xs) in *.
  assert (Hread : ∀ k, dget 0%Z (ld_opp loaded) k = dget 0%Z (build_opp ends xs) k).
  { intros k. rewrite Eo, Eopp. apply opp_defaults_reads. }
  assert (Hone : ∀ k, dget 0%Z (build_opp ends xs) k = 1%Z ↔
                      build_opp ends xs !! k = Some 1%Z).
  { intros k. unfold dget. destruct (build_opp ends xs !! k); simpl; split;
      congruence. }
  assert (Hchar : ∀ x x', dget 0%Z (ld_opp loaded) (x, x') = 1%Z ↔
            x ∈ ld_a_values loaded ∧ x' ∈ ld_a_values loaded ∧ x ≠ x' ∧
            ∃ n m, dget 0%Z (st_a_s st) (x, n) = 1%Z ∧
                   dget 0%Z (st_a_e st) (x, m) = 1%Z ∧
                   dget 0%Z (st_a_s st) (x', m) = 1%Z ∧
                   dget 0%Z (st_a_e st) (x', n) = 1%Z).
  { intros x x'. rewrite Hread, Hone, Ea, Eav. fold work xs. split.
    - intros Hopp. apply build_opp_sound in Hopp as (_ & Hx & Hx' & Hne & n & m & E1 & E2).
      split_and!; try done.
      assert (Hx0 : x ∈ ld_a_values loaded) by (by rewrite Ea, Eav).
      assert (Hx0' : x' ∈ ld_a_values loaded) by (by rewrite Ea, Eav).
      destruct (loaded_incidence inp loaded x Hload Hx0)
        as (w & Hw & Hf & Hs & He).
      destruct (loaded_incidence inp loaded x' Hload Hx0')
        as (w' & Hw' & Hf' & Hs' & He').
      destruct (arc_work_stripped _ _ Hw) as [S1 S2].
      destruct (arc_work_stripped _ _ Hw') as [S1' S2'].
      unfold ends in E1, E2. rewrite arc_endpoints_lookup in E1, E2.
      rewrite decide_True in E1 by done. rewrite decide_True in E2 by done.
      fold work in Hf, Hf'. rewrite Hf in E1. rewrite Hf' in E2.
      simpl in E1, E2. rewrite S1, S2 in E1. rewrite S1', S2' in E2.
      simplify_eq. exists (aw_start w), (aw_end w).
      split_and!; [by apply Hs|by apply He|apply Hs'; congruence|apply He'; congruence].
    - intros (Hx & Hx' & Hne & n & m & A1 & A2 & A3 & A4).
      assert (Hx0 : x ∈ ld_a_values loaded) by (by rewrite Ea, Eav).
      assert (Hx0' : x' ∈ ld_a_values loaded) by (by rewrite Ea, Eav).
      destruct (loaded_incidence inp loaded x Hload Hx0)
        as (w & Hw & Hf & Hs & He).
      destruct (loaded_incidence inp loaded x' Hload Hx0')
        as (w' & Hw' & Hf' & Hs' & He').
      destruct (arc_work_stripped _ _ Hw) as [S1 S2].
      destruct (arc_work_stripped _ _ Hw') as [S1' S2'].
      apply Hs in A1. apply He in A2. apply Hs' in A3. apply He' in A4.
      apply (build_opp_complete ends xs x x' n m); try done.
      + unfold ends. rewrite arc_endpoints_lookup, decide_True by done.
        fold work in Hf. rewrite Hf. simpl. by rewrite S1, S2, A1, A2.
      + unfold ends. rewrite arc_endpoints_lookup, decide_True by done.
        fold work in Hf'. rewrite Hf'. simpl. by rewrite S1', S2', A3, A4. }
  split; [apply Hchar|].
  intros Hopp. apply Hchar in Hopp as (H1 & H2 & Hne & n & m & A1 & A2 & A3 & A4).
  apply Hchar. split_and!; try done. exists m, n. done.
Qed.

Lemma opposite_arcs_reverse_endpoints_witness :
  dget 0%Z (ld_opp (unwrap demo_loaded (load_inputs two_way_pipe))) ("B", "A") = 1%Z.
Proof.
  destruct (opposite_arcs_reverse_endpoints two_way_pipe
              (unwrap demo_loaded (load_inputs two_way_pipe)) "A" "B"
              (ok_unwrap _ _ two_way_pipe_loads)) as [_ Hsym].
  apply Hsym. vm_compute. reflexivity.
Defined.

(** ** Arc tables cover the model domain *)

Lemma is_Some_setdefault_eq {K V : Type} `{Countable K} (m : gmap K V) (k : K) (v : V) :
  is_Some (setdefault k v m !! k).
Proof. rewrite lookup_setdefault_eq. eauto. Qed.

Lemma is_Some_setdefault_mono {K V : Type} `{Countable K} (m : gmap K V)
    (k k' : K) (v : V) :
  is_Some (m !! k') → is_Some (setdefault k v m !! k').
Proof. intros Hs. rewrite lookup_setdefault. case_decide; [by eauto|done]. Qed.

(** An entry, once present, stays through loops that only add or
    overwrite entries. *)
Ltac mono :=
  cbv beta zeta;
  first
    [ assumption
    | lazymatch goal with
      | |- is_Some (?proj (for_each ?xs ?body ?s) !! ?k) =>
          apply (for_each_inv (λ z, is_Some (proj z !! k)) xs body s);
          [mono | intros ? ? _ ?; mono]
      | |- is_Some (setdefault _ _ _ !! _) => apply is_Some_setdefault_mono; mono
      | |- is_Some (<[_ := _]> _ !! _) => apply is_Some_insert; mono
      end
    | progress simpl; mono ].

(** Step over a loop that keeps the entry. *)
Ltac through :=
  cbv beta zeta;
  lazymatch goal with
  | |- is_Some (?proj (for_each ?xs ?body ?s) !! ?k) =>
      apply (for_each_inv (λ z, is_Some (proj z !! k)) xs body s);
      [cbv beta | intros ? ? _ ?; mono]
  end.

(** Enter the iteration [x0] of a loop; the later ones keep the entry. *)
Ltac hit x0 :=
  cbv beta zeta;
  lazymatch goal with
  | |- is_Some (?proj (for_each ?xs ?body ?s) !! ?k) =>
      apply (for_each_hit (λ _, True) (λ z, is_Some (proj z !! k)) xs body s x0);
      [assumption | exact I | done | intros ? _; cbv beta | intros ? ? _ ?; mono]
  end.

Lemma fill_defaults_covers (a_values all_fuels : list string) (y_values : list Z)
    (s : ArcSt) (a e f : string) (y : Z) :
  a ∈ a_values → e ∈ all_fuels → f ∈ all_fuels → y ∈ y_values →
  let st := fill_defaults a_values all_fuels y_values s in
  is_Some (st_is_bid st !! a) ∧ is_Some (st_e_a st !! (a, e)) ∧
  is_Some (st_cap_a st !! (a, e, y)) ∧ is_Some (st_c_a st !! (a, e, y)) ∧
  is_Some (st_c_ax st !! (a, e, y)) ∧ is_Some (st_c_ab st !! (a, e, y)) ∧
  is_Some (st_f_ab st !! (a, y)) ∧
  is_Some (st_c_ar st !! (a, e, f, y)) ∧ is_Some (st_f_ar st !! (a, e, f, y)).
Proof.
  intros Ha He Hf Hy. cbv zeta. unfold fill_defaults. split_and!.
  - hit a. through. through. simpl. apply is_Some_setdefault_eq.
  - hit a. through. hit e. through. simpl. apply is_Some_setdefault_eq.
  - hit a. through. hit e. hit y. simpl. apply is_Some_setdefault_eq.
  - hit a. through. hit e. hit y. simpl. apply is_Some_setdefault_eq.
  - hit a. through. hit e. hit y. simpl. apply is_Some_setdefault_eq.
  - hit a. through. hit e. hit y. simpl. apply is_Some_setdefault_eq.
  - hit a. through. hit e. hit y. simpl. apply is_Some_setdefault_eq.
  - hit a. hit e. hit f. hit y. simpl. apply is_Some_setdefault_eq.
  - hit a. hit e. hit f. hit y. simpl. apply is_Some_setdefault_eq.
Qed.

(** X17: after loading, every parameter table of the arcs has an entry
    for every combination of a loaded arc with the loaded fuels and
    years: nothing that the model looks up on its arc domain falls back
    to the model's own default. *)
Theorem arc_tables_cover_domain (inp : Inputs) (loaded : Loaded)
    (a e f : string) (y : Z) :
  load_inputs inp = Ok loaded →
  a ∈ ld_a_values loaded → e ∈ ld_e_values loaded → f ∈ ld_e_values loaded →
  y ∈ ld_y_values loaded →
  let st := ld_arc loaded in
  is_Some (st_is_bid st !! a) ∧ is_Some (st_e_a st !! (a, e)) ∧
  is_Some (st_cap_a st !! (a, e, y)) ∧ is_Some (st_c_a st !! (a, e, y)) ∧
  is_Some (st_c_ax st !! (a, e, y)) ∧ is_Some (st_c_ab st !! (a, e, y)) ∧
  is_Some (st_f_ab st !! (a, y)) ∧
  is_Some (st_c_ar st !! (a, e, f, y)) ∧ is_Some (st_f_ar st !! (a, e, f, y)).
Proof.
  intros Hload Ha He Hf Hy.
  destruct (load_inputs_stages inp loaded Hload)
    as (e0 & out & su & Hex & _ & _ & Ea & _ & Est & Ee & _).
  destruct (_extract_arc_data_full _ _ _ _ _ _ _ Hex) as (Eav & _ & Ef & _ & Eout).
  rewrite Ea, Eav in Ha. rewrite Ee, Ef in He, Hf.
  cbv zeta. rewrite Est, Eout. unfold arc_finish.
  match goal with
  | |- context [self_zero ?A ?F ?Y (fill_defaults ?A ?F ?Y ?s)] =>
      destruct (fill_defaults_covers A F Y s a e f y Ha He Hf Hy)
        as (H1 & H2 & H3 & H4 & H5 & H6 & H7 & H8 & H9);
      generalize dependent (fill_defaults A F Y s)
  end.
  intros st H1 H2 H3 H4 H5 H6 H7 H8 H9.
  unfold self_zero. split_and!; mono.
Qed.

Lemma arc_tables_cover_domain_witness :
  let st := ld_arc (unwrap demo_loaded (load_inputs two_way_pipe)) in
  is_Some (st_is_bid st !! "B") ∧ is_Some (st_e_a st !! ("B", "H")) ∧
  is_Some (st_cap_a st !! ("B", "H", 2030%Z)) ∧
  is_Some (st_c_a st !! ("B", "H", 2030%Z)) ∧
  is_Some (st_c_ax st !! ("B", "H", 2030%Z)) ∧
  is_Some (st_c_ab st !! ("B", "H", 2030%Z)) ∧
  is_Some (st_f_ab st !! ("B", 2030%Z)) ∧
  is_Some (st_c_ar st !! ("B", "H", "G", 2030%Z)) ∧
  is_Some (st_f_ar st !! ("B", "H", "G", 2030%Z)).
Proof.
  apply (arc_tables_cover_domain two_way_pipe _ "B" "H" "G" 2030%Z).
  - apply ok_unwrap, two_way_pipe_loads.
  - vm_compute. right. left.
  - vm_compute. right. left.
  - vm_compute. left.
  - vm_compute. right. left.
Defined.

(** ** Storage working volume (data_loading.py) *)

Lemma storage_cap_ww_nonneg (df_s : list SRow) (n_values e_values : list string)
    (y_values h_values : list Z) (scaleup : gmap Z Q) :
  map_Forall (λ _ v, 0 <= v)
    (_extract_storage_data df_s n_values e_values y_values h_values scaleup).1.1.1.
Proof.
  unfold _extract_storage_data. cbv zeta.
  match goal with
  | |- context [for_each ?xs ?body (∅, ∅)] =>
      assert (Hinv : map_Forall (λ _ v, 0 <= v) (for_each xs body (∅, ∅)).1);
      [|by destruct (for_each xs body (∅, ∅)) as [cap_ww h2]]
  end.
  apply (for_each_inv
           (λ p : gmap Key3 Q * gmap (string * string) Q,
              map_Forall (λ _ v, 0 <= v) p.1)).
  { apply map_Forall_empty. }
  intros n p _ Hp.
  apply (for_each_inv
           (λ p : gmap Key3 Q * gmap (string * string) Q,
              map_Forall (λ _ v, 0 <= v) p.1)); [done|].
  intros e [cap_ww h2] _ Hc. cbn [fst] in *.
  apply (for_each_inv (λ m : gmap Key3 Q, map_Forall (λ _ v, 0 <= v) m)); [done|].
  intros y m _ Hm. apply map_Forall_insert_2; [apply py_max_ge_l|done].
Qed.

(** X18: in every model built from loaded inputs the exogenous storage
    working volume is never negative, for any node, fuel and year. *)
Theorem cap_ww_nonneg (inp : Inputs) (loaded : Loaded) (ov : Overrides)
    (n e : string) (y : Z) :
  load_inputs inp = Ok loaded →
  0 <= cap_ww (build_base_model_with_cz loaded ov) n e y.
Proof.
  intros Hload.
  destruct (load_inputs_stages inp loaded Hload)
    as (e0 & out & su & _ & _ & _ & _ & _ & _ & _ & _ & Ew & _).
  simpl. unfold dget.
  destruct (ld_cap_ww loaded !! (n, e, y)) as [v|] eqn:E; simpl; [|done].
  rewrite Ew in E. by apply (storage_cap_ww_nonneg _ _ _ _ _ _ _ _ E).
Qed.

Lemma cap_ww_nonneg_witness :
  0 <= cap_ww (build_base_model_with_cz
                 (unwrap demo_loaded (load_inputs two_way_pipe)) no_overrides)
              "N1" "G" 2025.
Proof.
  apply (cap_ww_nonneg two_way_pipe _ no_overrides "N1" "G" 2025%Z).
  apply ok_unwrap, two_way_pipe_loads.
Defined.

(** ** The model's years, storage fixings and demand balance (model.py) *)

Lemma sorted_setZ_head_min (l : list Z) (y0 : Z) :
  head (sorted_setZ l) = Some y0 → ∀ y, y ∈ sorted_setZ l → (y0 ≤ y)%Z.
Proof.
  intros Hhead y Hy.
  pose proof (StronglySorted_merge_sort Z.le (remove_dups l)) as Hs.
  unfold sorted_setZ in *.
  destruct (merge_sort Z.le (remove_dups l)) as [|y1 rest]; [done|].
  simpl in Hhead. simplify_eq.
  apply StronglySorted_inv in Hs as [_ Hall].
  apply elem_of_cons in Hy as [->|Hy]; [done|].
  rewrite Forall_forall in Hall. by apply Hall.
Qed.

(** X19: the first year of a built model, the one in which stocks are
    fixed and repurposing is excluded, is the smallest year of Y, and Y
    lists no year twice. *)
Theorem first_year_is_minimum (loaded : Loaded) (ov : Overrides) (y0 : Z) :
  let m := build_base_model_with_cz loaded ov in
  first_y m = Some y0 →
  y0 ∈ mY m ∧ (∀ y, y ∈ mY m → (y0 ≤ y)%Z) ∧ NoDup (mY m).
Proof.
  intros m Hfirst. change (head (mY m) = Some y0) in Hfirst.
  split_and!.
  - by apply head_Some_elem_of.
  - by apply sorted_setZ_head_min.
  - apply NoDup_sorted_setZ.
Qed.

Lemma first_year_is_minimum_witness :
  let m := build_base_model_with_cz demo_loaded no_overrides in
  2025%Z ∈ mY m ∧ (∀ y, y ∈ mY m → (2025 ≤ y)%Z) ∧ NoDup (mY m).
Proof.
  apply (first_year_is_minimum demo_loaded no_overrides 2025%Z). reflexivity.
Defined.

(** X20: in every assignment that satisfies the constraints of a built
    model, the storage stock of the first year equals the exogenous
    working volume, and no storage is repurposed in the first year. *)
Theorem storage_first_year_fixity (loaded : Loaded) (ov : Overrides) (v : Asg)
    (y0 : Z) :
  let m := build_base_model_with_cz loaded ov in
  feasible m v →
  head (mY m) = Some y0 →
  (∀ n e, n ∈ mN m → e ∈ mE m → K_W v n e y0 == cap_ww m n e y0) ∧
  (∀ n e f, n ∈ mN m → e ∈ mE m → f ∈ mE m →
     B_WR v n e f y0 == 0 ∧ K_RW v n e f y0 == 0).
Proof.
  intros m Hfeas Hhead.
  assert (Hy0 : y0 ∈ mY m) by (by apply head_Some_elem_of).
  assert (Hfirst : is_first m y0 = true).
  { apply is_first_head. by rewrite <- Hhead. }
  split.
  - intros n e Hn He.
    pose proof (sat_k_w_init m v Hfeas n e y0 Hn He Hy0) as Hc.
    unfold k_w_init in Hc. by rewrite Hfirst in Hc.
  - intros n e f Hn He Hf. split.
    + pose proof (sat_b_wr_fix_first m v Hfeas n e f y0 Hn He Hf Hy0) as Hc.
      unfold b_wr_fix_first in Hc. by rewrite Hfirst in Hc.
    + pose proof (sat_k_rw_fix_first m v Hfeas n e f y0 Hn He Hf Hy0) as Hc.
      unfold k_rw_fix_first in Hc. by rewrite Hfirst in Hc.
Qed.

Lemma storage_first_year_fixity_witness :
  K_W demo_asg "N1" "G" 2025
  == cap_ww (build_base_model_with_cz demo_loaded no_overrides) "N1" "G" 2025.
Proof.
  apply (storage_first_year_fixity demo_loaded no_overrides demo_asg 2025%Z
           demo_feasible).
  - reflexivity.
  - by vm_compute; left.
  - by vm_compute; left.
Defined.

(** X21: for a fuel other than hydrogen, every cell of the node, year
    and hour domains falls under exactly one of the two demand rules,
    and in every feasible assignment the served quantity plus the slack
    of the demand class equals the positive part of the demand: a cell
    without positive demand has neither sales nor slack. *)
Theorem served_plus_slack (loaded : Loaded) (ov : Overrides) (v : Asg)
    (z n e : string) (y h : Z) :
  let m := build_base_model_with_cz loaded ov in
  feasible m v →
  z_dmd m = Some z → not_h m e = 1%Z →
  n ∈ mN m → e ∈ mE m → y ∈ mY m → h ∈ mH m →
  (dmd_n3 m n e y h = None ↔ qs_zero_nonh m n e y h ≠ None) ∧
  Q_S v n e y h + ZDS v z n e y h == py_max 0 (dmd m n e y h) ∧
  (dmd m n e y h <= 0 → Q_S v n e y h == 0 ∧ ZDS v z n e y h == 0).
Proof.
  intros m Hfeas Hz Hnh Hn He Hy Hh. clearbody m.
  pose proof (sat_dmd_n3 m v Hfeas n e y h Hn He Hy Hh) as H3.
  pose proof (sat_qs_zero_nonh m v Hfeas n e y h Hn He Hy Hh) as Hq.
  pose proof (sat_zd2_zero_nonh m v Hfeas n e y h Hn He Hy Hh) as Hs.
  assert (Hnb : bool_decide (not_h m e ≠ 1%Z) = false).
  { apply bool_decide_eq_false_2. by intros ?. }
  unfold dmd_n3 in *. unfold qs_zero_nonh in *. unfold zd2_zero_nonh in Hs.
  rewrite Hz, Hnb in H3. rewrite Hz, Hnb in Hs. rewrite Hnb in Hq.
  rewrite Hz, !Hnb. unfold py_max.
  destruct (Qgtb (dmd m n e y h) 0) eqn:Eg.
  - assert (Qle_bool (dmd m n e y h) 0 = false) as El.
    { apply Qgtb_true in Eg. apply not_true_iff_false. rewrite Qle_bool_iff.
      by apply Qlt_not_le. }
    rewrite El in H3. rewrite El. cbn [orb holds] in *. split_and!.
    + split; [done|]. by intros ?.
    + rewrite H3. ring.
    + intros Hle. apply Qgtb_true in Eg. by apply Qlt_not_le in Eg.
  - assert (Qle_bool (dmd m n e y h) 0 = true) as El.
    { apply Qgtb_false in Eg. by apply Qle_bool_iff. }
    rewrite El. cbn [orb holds] in *. split_and!.
    + split; [by intros ?|done].
    + rewrite Hq, Hs. ring.
    + done.
Qed.

Lemma served_plus_slack_witness :
  Q_S demo_asg "N1" "G" 2030 1 + ZDS demo_asg "ZD2" "N1" "G" 2030 1
  == py_max 0 (dmd (build_base_model_with_cz demo_loaded no_overrides)
                   "N1" "G" 2030 1).
Proof.
  assert (Hn : "N1" ∈ mN (build_base_model_with_cz demo_loaded no_overrides))
    by (vm_compute; left).
  assert (He : "G" ∈ mE (build_base_model_with_cz demo_loaded no_overrides))
    by (vm_compute; left).
  assert (Hy : 2030%Z ∈ mY (build_base_model_with_cz demo_loaded no_overrides))
    by (vm_compute; right; left).
  assert (Hh : 1%Z ∈ mH (build_base_model_with_cz demo_loaded no_overrides))
    by (vm_compute; left).
  exact (proj1 (proj2 (served_plus_slack demo_loaded no_overrides demo_asg
                         "ZD2" "N1" "G" 2030%Z 1%Z demo_feasible
                         eq_refl eq_refl Hn He Hy Hh))).
Defined.

(** ** Storage volume across the years (model.py: wr_cap, bil_w1) *)

Lemma py_sum_foldl (l : list Q) (a : Q) : foldl Qplus a l == a + py_sum l.
Proof.
  unfold py_sum. revert a. induction l as [|x l IH]; intros a; simpl.
  - ring.
  - rewrite (IH (a + x)), (IH (0 + x)). ring.
Qed.

Lemma py_sum_cons (x : Q) (l : list Q) : py_sum (x :: l) == x + py_sum l.
Proof. unfold py_sum at 1. simpl. rewrite py_sum_foldl. ring. Qed.

Lemma py_sum_ext {A : Type} (g g' : A → Q) (l : list A) :
  (∀ x, x ∈ l → g x == g' x) → py_sum (map g l) == py_sum (map g' l).
Proof.
  induction l as [|x l IH]; intros Hg; simpl; [reflexivity|].
  rewrite !py_sum_cons, IH.
  - rewrite (Hg x) by left. reflexivity.
  - intros z Hz. apply Hg. by right.
Qed.

Lemma py_sum_zero {A : Type} (l : list A) : py_sum (map (λ _, 0) l) == 0.
Proof.
  induction l as [|x l IH]; simpl; [reflexivity|].
  rewrite py_sum_cons, IH. ring.
Qed.

Lemma py_sum_plus {A : Type} (g h : A → Q) (l : list A) :
  py_sum (map (λ x, g x + h x) l) == py_sum (map g l) + py_sum (map h l).
Proof.
  induction l as [|x l IH]; simpl; [reflexivity|].
  rewrite !py_sum_cons, IH. ring.
Qed.

Lemma py_sum_swap {A B : Type} (G : A → B → Q) (l1 : list A) (l2 : list B) :
  py_sum (map (λ a, py_sum (map (λ b, G a b) l2)) l1)
  == py_sum (map (λ b, py_sum (map (λ a, G a b) l1)) l2).
Proof.
  induction l1 as [|a l1 IH]; simpl.
  - symmetry. apply (py_sum_zero l2).
  - rewrite py_sum_cons, IH.
    rewrite <- py_sum_plus. apply py_sum_ext. intros b _.
    by rewrite py_sum_cons.
Qed.

Lemma last_all_equal {A : Type} (l : list A) (c : A) :
  l ≠ [] → (∀ x, x ∈ l → x = c) → last l = Some c.
Proof.
  intros Hne Hall. apply last_is_Some in Hne as [x Hx].
  rewrite Hx. f_equal. apply Hall. by apply last_Some_elem_of.
Qed.

Lemma y_pos_lookup (m : Model) (i : nat) (y : Z) :
  NoDup (mY m) → mY m !! i = Some y → y_pos m !! y = Some i.
Proof.
  intros Hnd Hi. unfold y_pos.
  rewrite (foldl_insert_last (λ iy : nat * Z, iy.2) (λ iy : nat * Z, iy.1)).
  rewrite (last_all_equal _ (i, y)); [done| |].
  - intros Hnil.
    refine (filter_nil_not_elem_of (λ iy : nat * Z, iy.2 = y) _ (i, y) Hnil eq_refl _).
    by apply (elem_of_lookup_imap_2 (λ i y, (i, y))).
  - intros [j y'] Hin. apply list_elem_of_filter in Hin as [Hy Hin].
    simpl in Hy. subst y'.
    apply elem_of_lookup_imap in Hin as (j' & x & [= -> ->] & Hj).
    f_equal. by eapply NoDup_lookup.
Qed.

Lemma y_pos_inv (m : Model) (i : nat) (y : Z) :
  y_pos m !! y = Some i → mY m !! i = Some y.
Proof.
  unfold y_pos.
  rewrite (foldl_insert_last (λ iy : nat * Z, iy.2) (λ iy : nat * Z, iy.1)).
  destruct (last _) as [[j y']|] eqn:E; [|by rewrite lookup_empty].
  intros [= <-]. apply last_Some_elem_of, list_elem_of_filter in E as [Hy Hin].
  simpl in Hy. subst y'.
  by apply elem_of_lookup_imap in Hin as (j' & x & [= -> ->] & Hj).
Qed.

(** On a list of distinct years, [ypred(y2, y) = 1] exactly when [y]
    comes right after [y2]. *)
Lemma ypred_next (m : Model) (y2 y : Z) :
  NoDup (mY m) →
  ypred m y2 y = 1%Z ↔ ∃ i, mY m !! i = Some y2 ∧ mY m !! S i = Some y.
Proof.
  intros Hnd. unfold ypred. split.
  - destruct (y_pos m !! y) as [a|] eqn:Ea; [|done].
    destruct (y_pos m !! y2) as [b|] eqn:Eb; [|done].
    case_bool_decide as Hd; [|done]. intros _.
    apply y_pos_inv in Ea, Eb. exists b. split; [done|].
    by replace (S b) with a by lia.
  - intros (i & H2 & H1).
    rewrite (y_pos_lookup m (S i) y Hnd H1), (y_pos_lookup m i y2 Hnd H2).
    rewrite bool_decide_eq_true_2; [done|lia].
Qed.

Lemma filter_none {A : Type} (P : A → Prop) `{∀ x, Decision (P x)} (l : list A) :
  (∀ x, x ∈ l → ¬ P x) → filter P l = [].
Proof.
  induction l as [|x l IH]; intros Hall; [done|].
  rewrite filter_cons_False by (apply Hall; left).
  apply IH. intros z Hz. apply Hall. by right.
Qed.

Lemma filter_only {A : Type} (P : A → Prop) `{∀ x, Decision (P x)}
    (l : list A) (c : A) :
  NoDup l → c ∈ l → (∀ x, x ∈ l → P x ↔ x = c) → filter P l = [c].
Proof.
  induction l as [|x l IH]; intros Hnd Hc Hall; [by apply elem_of_nil in Hc|].
  apply NoDup_cons in Hnd as [Hx Hnd].
  destruct (decide (P x)) as [HP|HP].
  - assert (x = c) as -> by (apply Hall; [left|done]).
    rewrite filter_cons_True by done.
    f_equal. apply filter_none. intros z Hz HPz.
    apply Hall in HPz; [|by right]. by subst z.
  - assert (Hne : x ≠ c).
    { intros ->. apply HP. apply Hall; [left|done]. }
    rewrite filter_cons_False by done.
    apply IH; [done| |].
    + by apply elem_of_cons in Hc as [->|Hc].
    + intros z Hz. apply Hall. by right.
Qed.

(** The storage volume of a node, summed over the fuels, in year [y]. *)
Lemma storage_total_step (m : Model) (v : Asg) (n : string) (i : nat) (y' y y0 : Z) :
  NoDup (mY m) → first_y m = head (mY m) → head (mY m) = Some y0 →
  storage_feasible m v → n ∈ mN m →
  mY m !! i = Some y' → mY m !! S i = Some y →
  py_sum (map (λ e, K_W v n e y) (mE m)) == py_sum (map (λ e, K_W v n e y') (mE m)).
Proof.
  intros Hnd Hfy Hhead Hsf Hn Hi HSi.
  assert (Hy : y ∈ mY m) by (by eapply list_elem_of_lookup_2).
  assert (Hlater : is_later m y = true).
  { unfold is_later. rewrite Hfy, Hhead. apply bool_decide_eq_true_2.
    intros ->. assert (H0 : mY m !! 0%nat = Some y0).
    { destruct (mY m); [done|]. by simpl in *. }
    pose proof (NoDup_lookup _ _ _ _ Hnd HSi H0). done. }
  assert (Hpreds : filter (λ y2, ypred m y2 y = 1%Z) (mY m) = [y']).
  { apply filter_only; [done|by eapply list_elem_of_lookup_2|].
    intros z Hz. rewrite ypred_next by done. split.
    - intros (j & Hj & HSj).
      pose proof (NoDup_lookup _ _ _ _ Hnd HSi HSj) as Heq.
      assert (j = i) by lia. subst j. congruence.
    - intros ->. eauto. }
  rewrite (py_sum_ext (λ e, K_W v n e y)
             (λ e, py_sum (map (λ f, K_RW v n f e y) (mE m)))).
  2:{ intros e He. pose proof (sat_wr_cap m v Hsf n e y Hn He Hy) as Hc.
      unfold wr_cap in Hc. by rewrite Hlater in Hc. }
  rewrite (py_sum_swap (λ e f, K_RW v n f e y)).
  apply py_sum_ext. intros f Hf.
  pose proof (sat_bil_w1 m v Hsf n f y Hn Hf Hy) as Hc.
  unfold bil_w1 in Hc. rewrite Hlater, Hpreds in Hc. simpl in Hc.
  rewrite Hc. unfold py_sum. simpl. ring.
Qed.

(** X22: repurposing only moves storage volume between fuels.  In
    every assignment that satisfies the first-year fixings and the two
    storage balances of a built model, the storage volume of a node,
    summed over the fuels, is in every year the total exogenous working
    volume of that node in the first year. *)
Theorem storage_volume_conserved (loaded : Loaded) (ov : Overrides) (v : Asg)
    (n : string) (y y0 : Z) :
  let m := build_base_model_with_cz loaded ov in
  feasible m v → storage_feasible m v →
  head (mY m) = Some y0 → n ∈ mN m → y ∈ mY m →
  py_sum (map (λ e, K_W v n e y) (mE m))
  == py_sum (map (λ e, cap_ww m n e y0) (mE m)).
Proof.
  intros m Hfeas Hsf Hhead Hn Hy.
  assert (Hnd : NoDup (mY m)) by apply NoDup_sorted_setZ.
  assert (Hfy : first_y m = head (mY m)) by apply first_y_build.
  assert (Hy0 : y0 ∈ mY m) by (by apply head_Some_elem_of).
  assert (Hfirst : is_first m y0 = true).
  { apply is_first_head. by rewrite Hfy. }
  clearbody m.
  assert (Hall : ∀ i y1, mY m !! i = Some y1 →
            py_sum (map (λ e, K_W v n e y1) (mE m))
            == py_sum (map (λ e, K_W v n e y0) (mE m))).
  { induction i as [|i IH]; intros y1 Hi.
    - assert (y1 = y0) as ->; [|reflexivity].
      destruct (mY m); [done|]. simpl in *. congruence.
    - destruct (lookup_lt_is_Some_2 (mY m) i) as [y' Hy'].
      { apply lookup_lt_Some in Hi. lia. }
      rewrite (storage_total_step m v n i y' y1 y0) by done.
      by apply IH. }
  apply list_elem_of_lookup_1 in Hy as [i Hi].
  rewrite (Hall i y Hi). apply py_sum_ext. intros e He.
  pose proof (sat_k_w_init m v Hfeas n e y0 Hn He Hy0) as Hc.
  unfold k_w_init in Hc. by rewrite Hfirst in Hc.
Qed.

Lemma demo_storage_feasible :
  feasible (build_base_model_with_cz demo_loaded no_overrides) demo_asg_storage ∧
  storage_feasible (build_base_model_with_cz demo_loaded no_overrides)
    demo_asg_storage.
Proof.
  split; split.
  - intros a e y Ha He Hy. mem_cases Ha; mem_cases He; mem_cases Hy; by vm_compute.
  - intros a e y Ha He Hy. mem_cases Ha; mem_cases He; mem_cases Hy; by vm_compute.
  - intros a e f y Ha He Hf Hy.
    mem_cases Ha; mem_cases He; mem_cases Hf; mem_cases Hy; by vm_compute.
  - intros a e f y Ha He Hf Hy.
    mem_cases Ha; mem_cases He; mem_cases Hf; mem_cases Hy; by vm_compute.
  - intros a e f y Ha He Hf Hy.
    mem_cases Ha; mem_cases He; mem_cases Hf; mem_cases Hy; by vm_compute.
  - intros a e f y Ha He Hf Hy.
    mem_cases Ha; mem_cases He; mem_cases Hf; mem_cases Hy; by vm_compute.
  - intros n y Hn Hy. mem_cases Hn; mem_cases Hy; by vm_compute.
  - intros n e y h Hn He Hy Hh.
    mem_cases Hn; mem_cases He; mem_cases Hy; mem_cases Hh; by vm_compute.
  - intros n e y h Hn He Hy Hh.
    mem_cases Hn; mem_cases He; mem_cases Hy; mem_cases Hh; by vm_compute.
  - intros n e y h Hn He Hy Hh.
    mem_cases Hn; mem_cases He; mem_cases Hy; mem_cases Hh; by vm_compute.
  - intros n e y Hn He Hy. mem_cases Hn; mem_cases He; mem_cases Hy; by vm_compute.
  - intros n e y Hn He Hy. mem_cases Hn; mem_cases He; mem_cases Hy; by vm_compute.
Defined.

Lemma storage_volume_conserved_witness :
  let m := build_base_model_with_cz demo_loaded no_overrides in
  py_sum (map (λ e, K_W demo_asg_storage "N1" e 2030) (mE m))
  == py_sum (map (λ e, cap_ww m "N1" e 2025) (mE m)).
Proof.
  assert (Hn : "N1" ∈ mN (build_base_model_with_cz demo_loaded no_overrides))
    by (vm_compute; left).
  assert (Hy : 2030%Z ∈ mY (build_base_model_with_cz demo_loaded no_overrides))
    by (vm_compute; right; left).
  exact (storage_volume_conserved demo_loaded no_overrides demo_asg_storage
           "N1" 2030%Z 2025%Z (proj1 demo_storage_feasible)
           (proj2 demo_storage_feasible) eq_refl Hn Hy).
Defined.

(** ** The loaded domains and the tables *)

Lemma load_inputs_domains (inp : Inputs) (loaded : Loaded) :
  load_inputs inp = Ok loaded →
  let td := _extract_time_domains (dat_t inp) in
  let cd := _extract_consumption_data (dat_consumption inp) in
  let pd := _extract_production_data (dat_production inp) in
  ld_y_values loaded = sorted_setZ (td.1.1 ++ cd.1.1.2 ++ pd.1.1.2) ∧
  ld_h_values loaded = sorted_setZ (td.1.2 ++ cd.1.2 ++ pd.1.2) ∧
  (∀ f, f ∈ cd.2 ∨ f ∈ pd.2 → f ∈ ld_e_values loaded).
Proof.
  unfold load_inputs.
  destruct (_extract_time_domains _) as [[y_values h_values] scaleup].
  destruct (_extract_consumption_data _) as [[[dmd y_dmd] h_dmd] f_dmd].
  destruct (_extract_production_data _) as [[[[[cap_p c_p] lb_p] y_prod] h_prod] f_prod].
  destruct (regas_stage _ _ _) as [[c_lr ub_r] n_values].
  destruct (_extract_arc_data _ _ _ _ _ _) as [[|arcs]|err]; try discriminate.
  destruct (_extract_storage_data _ _ _ _ _ _)
    as [[[cap_ww h2] stor_nodes] stor_fuels].
  intros [= <-]. cbv zeta. cbn [fst snd ld_y_values ld_h_values ld_e_values].
  split_and!; [done|done|].
  intros f Hf. apply elem_of_sorted_set, elem_of_app. left.
  apply elem_of_sorted_set. rewrite !elem_of_app. tauto.
Qed.

(** X23: no demand is lost to the fuel, year or hour domain: every
    cell of the loaded demand table has a non-empty node and fuel, and
    its fuel, year and hour belong to the loaded E, Y and H. *)
Theorem demand_cells_in_loaded_domains (inp : Inputs) (loaded : Loaded)
    (n f : string) (y h : Z) (v : Q) :
  load_inputs inp = Ok loaded →
  ld_dmd loaded !! (n, f, y, h) = Some v →
  n ≠ "" ∧ f ≠ "" ∧ f ∈ ld_e_values loaded ∧ y ∈ ld_y_values loaded
  ∧ h ∈ ld_h_values loaded.
Proof.
  intros Hload Hd.
  destruct (load_inputs_stages inp loaded Hload)
    as (e0 & out & su & _ & _ & _ & _ & _ & _ & _ & _ & _ & _ & Ed & _).
  destruct (load_inputs_domains inp loaded Hload) as (Ey & Eh & Ee).
  rewrite Ed in Hd.
  destruct (consumption_keys_wf (dat_consumption inp) n f y h v Hd)
    as (Hn & Hf & Hy & Hh & Hfe & _).
  split_and!; [done|done| | |].
  - apply Ee. by left.
  - rewrite Ey. apply elem_of_sorted_setZ. rewrite !elem_of_app. tauto.
  - rewrite Eh. apply elem_of_sorted_setZ. rewrite !elem_of_app. tauto.
Qed.

Lemma arc_only_node_loads : is_ok (load_inputs arc_only_node) = true.
Proof. vm_compute. reflexivity. Qed.

Lemma demand_cells_in_loaded_domains_witness :
  let loaded := unwrap demo_loaded (load_inputs arc_only_node) in
  "N1" ≠ "" ∧ "GAS" ≠ "" ∧ "GAS" ∈ ld_e_values loaded
  ∧ 2025%Z ∈ ld_y_values loaded ∧ 1%Z ∈ ld_h_values loaded.
Proof.
  apply (demand_cells_in_loaded_domains arc_only_node _ "N1" "GAS" 2025%Z 1%Z 5).
  - apply ok_unwrap, arc_only_node_loads.
  - vm_compute. reflexivity.
Defined.

Lemma regas_nodes_in_stage (df_r : list RRow) (n0 e0 : list string) (r : RRow) :
  r ∈ df_r → strip (py_str (r_n r)) ≠ "" →
  strip (py_str (r_n r)) ∈ (regas_stage df_r n0 e0).2.
Proof.
  intros Hr Hne. unfold regas_stage, _extract_regas_data.
  destruct (regas_defaults n0 e0) as [c u].
  destruct df_r as [|r0 rows] eqn:E; [by apply elem_of_nil in Hr|].
  rewrite <- E in *. clear E r0 rows.
  destruct (foldl regas_row (c, u) df_r) as [c1 u1].
  destruct (regas_backfill _ e0 (c1, u1)) as [c2 u2]. cbn [snd].
  apply elem_of_sorted_set, elem_of_app. right.
  apply elem_of_sorted_set, list_elem_of_filter. split; [done|].
  apply elem_of_map. exists (regas_work r). split; [done|].
  apply elem_of_map. eauto.
Qed.

Lemma storage_nodes_extracted (df_s : list SRow) (n_values e_values : list string)
    (y_values h_values : list Z) (scaleup : gmap Z Q) (r : SRow) :
  r ∈ df_s → strip (default "" (s_n r)) ≠ "" → strip (default "" (s_f r)) ≠ "" →
  strip (default "" (s_n r))
  ∈ (_extract_storage_data df_s n_values e_values y_values h_values scaleup).1.2.
Proof.
  intros Hr Hn Hf. unfold _extract_storage_data. cbv zeta.
  destruct (for_each (sorted_set _) _ _) as [cap_ww h2]. cbn [fst snd].
  apply elem_of_sorted_set, elem_of_map.
  exists (r, _normalize_fuel_label (Some (strip (default "" (s_f r))))).
  split; [done|]. apply elem_of_map. exists r. split; [done|].
  by apply list_elem_of_filter.
Qed.

(** X24: the loaded node set contains every node of nodes.csv with a
    complete record, the node of every regasification row and the node
    of every storage row that names a node and a fuel. *)
Theorem node_set_covers_tables (inp : Inputs) (loaded : Loaded) :
  load_inputs inp = Ok loaded →
  (∀ n, n ∈ _extract_node_structures (dat_nodes inp) → n ∈ ld_n_values loaded) ∧
  (∀ r, r ∈ dat_regas inp → strip (py_str (r_n r)) ≠ "" →
        strip (py_str (r_n r)) ∈ ld_n_values loaded) ∧
  (∀ r, r ∈ dat_storage inp →
        strip (default "" (s_n r)) ≠ "" → strip (default "" (s_f r)) ≠ "" →
        strip (default "" (s_n r)) ∈ ld_n_values loaded).
Proof.
  intros Hload.
  destruct (load_inputs_stages inp loaded Hload)
    as (e0 & out & su & _ & _ & _ & _ & _ & _ & _ & En & _).
  rewrite En. split_and!.
  - intros n Hn. apply elem_of_sorted_set, elem_of_app. left.
    apply elem_of_sorted_set, elem_of_app. left. by apply regas_stage_nodes.
  - intros r Hr Hne. apply elem_of_sorted_set, elem_of_app. left.
    apply elem_of_sorted_set, elem_of_app. left. by apply regas_nodes_in_stage.
  - intros r Hr Hn Hf. apply elem_of_sorted_set, elem_of_app. right.
    by apply storage_nodes_extracted.
Qed.

Lemma node_set_covers_tables_witness :
  "N1" ∈ ld_n_values (unwrap demo_loaded (load_inputs arc_only_node)).
Proof.
  destruct (node_set_covers_tables arc_only_node
              (unwrap demo_loaded (load_inputs arc_only_node))
              (ok_unwrap _ _ arc_only_node_loads)) as [Hn _].
  apply Hn. vm_compute. left.
Defined.

(** X25: the year-2030 pass of the loader.  When the loaded year domain
    has at least three years, 2030 among them, a production cost
    configured for (n, f, 2030) is the loaded cost of (n, f) in 2030 and
    in every year from the third on; when the domain has fewer than
    three years or lacks 2030, the loaded costs are the extracted ones,
    unchanged. *)
Theorem carry_forward_from_2030 (inp : Inputs) (loaded : Loaded) :
  load_inputs inp = Ok loaded →
  let c_p := (_extract_production_data (dat_production inp)).1.1.1.1.2 in
  ((3 ≤ length (ld_y_values loaded))%nat → 2030%Z ∈ ld_y_values loaded →
   ∀ n f v, c_p !! (n, f, 2030%Z) = Some v →
     ld_c_p loaded !! (n, f, 2030%Z) = Some v ∧
     ∀ y, y ∈ drop 2 (ld_y_values loaded) → ld_c_p loaded !! (n, f, y) = Some v) ∧
  ((length (ld_y_values loaded) < 3)%nat ∨ 2030%Z ∉ ld_y_values loaded →
   ld_c_p loaded = c_p).
Proof.
  intros Hload. cbv zeta.
  pose proof (load_inputs_production inp loaded Hload) as Hp.
  destruct (_extract_production_data _) as [[[[[cap_p c_p] lb_p] y_prod] h_prod] f_prod].
  destruct Hp as (_ & _ & ->). cbn [fst snd]. split.
  - intros Hlen H2030 n f v Href. by apply carry_forward_final_spec.
  - intros Hno. unfold carry_forward_final.
    destruct Hno as [Hlt|Hnin].
    + rewrite (bool_decide_eq_false_2 (3 ≤ _)%nat) by lia. done.
    + rewrite (bool_decide_eq_false_2 (2030%Z ∈ _)) by done.
      by rewrite andb_false_r.
Qed.

Lemma carry_forward_from_2030_witness :
  let loaded := unwrap demo_loaded (load_inputs production_with_timeseries) in
  ld_c_p loaded !! ("N1", "G", 2030%Z) = Some 3 ∧
  ∀ y, y ∈ drop 2 (ld_y_values loaded) → ld_c_p loaded !! ("N1", "G", y) = Some 3.
Proof.
  destruct (carry_forward_from_2030 production_with_timeseries
              (unwrap demo_loaded (load_inputs production_with_timeseries))
              (ok_unwrap _ _ production_with_timeseries_loads)) as [Hcarry _].
  apply Hcarry.
  - vm_compute. lia.
  - vm_compute. right. right. left.
  - vm_compute. reflexivity.
Defined.

(** ** The validator and the storage balances (validate.py, model.py) *)






Lemma no_violation (lhs rhs tol : Q) :
  Qgtb (Qabs (lhs - rhs)) tol = false ↔ Qabs (lhs - rhs) <= tol.
Proof. apply Qgtb_false. Qed.



